(** * Infinity token mint: admission controller, batch queue, hash-chained ledger

    A shallow embedding of [CapacitorMint], [BatchProcessor] and
    [ImmutableLedger] with the properties their specification states, and
    of the code around them: [ALCMinter] and [TokenFactory], which the batch
    processor calls, [MintReceiver], [MultiLocationWriter] and
    [BackupSystem].

    Conventions of the embedding.
    - A JavaScript number that carries a quantity (charge, intensity, decay
      rate) is an exact rational [Q]; NaN, the infinities and the rounding of
      doubles are outside the model.  Lengths, indices, batch sizes and token
      values are integers [Z].
    - A JavaScript string is a [string]; [charCodeAt] is the code of the
      character.
    - The wall clock is an input: an operation that reads [new Date()] or
      [Date.now()] takes the reading, in milliseconds, as its argument [now].
      An ISO timestamp stored by the code is kept as that millisecond value,
      which is what [new Date(iso).getTime()] gives back.
    - A draw from [Math.random] is an input too, given as the string the
      code makes of it.
    - Objects are records, a method is a function from the object before the
      call to the object after it and the returned value. *)

From Stdlib Require Import ZArith QArith Qminmax Lqa Lia ZifyNat.
From Stdlib Require Import DecimalString HexadecimalString.
From Stdlib Require Import Ascii String.
From Stdlib Require HexadecimalFacts HexadecimalPos HexadecimalN.
From stdpp Require Import base list strings gmap.

Local Open Scope Z_scope.

(** ** Array helpers of the JavaScript runtime *)

Section JsArray.
Context {A : Type}.

(** A relative index of [Array.prototype.slice]: negative counts from the
    end, and the result is clamped to [0, len]. *)
Definition js_rel_index (len z : Z) : Z :=
  if z <? 0 then Z.max (len + z) 0 else Z.min z len.

(** [arr.slice(start, end)]; [end = None] is the one-argument call. *)
Definition js_slice (l : list A) (start : Z) (end_ : option Z) : list A :=
  let len := Z.of_nat (length l) in
  let k := js_rel_index len start in
  let fin := match end_ with
             | None => len
             | Some e => js_rel_index len e
             end in
  take (Z.to_nat (Z.max (fin - k) 0)) (drop (Z.to_nat k) l).

(** [arr.splice(0, deleteCount)]: the removed prefix and what is left. *)
Definition js_splice0 (l : list A) (deleteCount : Z) : list A * list A :=
  let dc := Z.to_nat (Z.min (Z.max deleteCount 0) (Z.of_nat (length l))) in
  (take dc l, drop dc l).
End JsArray.

(** ** CapacitorMint: the admission controller *)

Module Capacitor.

Record Activity := mkActivity {
  a_type : string;
  a_intensity : Q;
  a_charge_added : Q;
  a_timestamp : Z;
  a_total_charge : Q
}.

Record CapacitorMint := mkCapacitorMint {
  charge : Q;
  maxCharge : Q;
  threshold : Q;
  chargeRate : Q;
  dischargeRate : Q;
  activityLog : list Activity;
  lastMintTime : option Z
}.

(** [config.capacitor_physics?.threshold || 100]: an absent or zero
    threshold falls back to 100. *)
Definition config_threshold (cfg : option Q) : Q :=
  match cfg with
  | Some t => if Qeq_bool t 0 then 100%Q else t
  | None => 100%Q
  end.

Definition constructor (cfg : option Q) : CapacitorMint :=
  {| charge := 0%Q;
     maxCharge := 100%Q;
     threshold := config_threshold cfg;
     chargeRate := 1%Q;
     dischargeRate := 20%Q;
     activityLog := [];
     lastMintTime := None |}.

Definition canMint (s : CapacitorMint) : bool :=
  Qle_bool (threshold s) (charge s).

Record RegisterResult := mkRegisterResult {
  rr_charge : Q;
  rr_can_mint : bool
}.

(** [registerActivity(activityType, intensity = 1)] *)
Definition registerActivity (now : Z) (activityType : string)
    (intensity : option Q) (s : CapacitorMint)
    : CapacitorMint * RegisterResult :=
  let i := default 1%Q intensity in
  let chargeAmount := (i * chargeRate s)%Q in
  let c := Qmin (maxCharge s) (charge s + chargeAmount)%Q in
  let log := activityLog s ++
               [ {| a_type := activityType;
                    a_intensity := i;
                    a_charge_added := chargeAmount;
                    a_timestamp := now;
                    a_total_charge := c |} ] in
  let log' := if 100 <? Z.of_nat (length log)
              then js_slice log (-100) None else log in
  let s' := {| charge := c;
               maxCharge := maxCharge s;
               threshold := threshold s;
               chargeRate := chargeRate s;
               dischargeRate := dischargeRate s;
               activityLog := log';
               lastMintTime := lastMintTime s |} in
  (s', {| rr_charge := c; rr_can_mint := canMint s' |}).

Inductive MintAttempt :=
| MintRejected (error : string) (charge threshold needed : Q)
| MintSuccess (charge : Q) (timestamp : Z).

(** [attemptMint()] *)
Definition attemptMint (now : Z) (s : CapacitorMint)
    : CapacitorMint * MintAttempt :=
  if negb (canMint s) then
    (s, MintRejected "Insufficient capacitor charge"
          (charge s) (threshold s) (threshold s - charge s)%Q)
  else
    let c := Qmax 0 (charge s - dischargeRate s)%Q in
    ({| charge := c;
        maxCharge := maxCharge s;
        threshold := threshold s;
        chargeRate := chargeRate s;
        dischargeRate := dischargeRate s;
        activityLog := activityLog s;
        lastMintTime := Some now |},
     MintSuccess c now).

(** [applyDecay(decayRate = 0.1)] *)
Definition applyDecay (decayRate : option Q) (s : CapacitorMint)
    : CapacitorMint :=
  let r := default (1 # 10)%Q decayRate in
  {| charge := Qmax 0 (charge s - r)%Q;
     maxCharge := maxCharge s;
     threshold := threshold s;
     chargeRate := chargeRate s;
     dischargeRate := dischargeRate s;
     activityLog := activityLog s;
     lastMintTime := lastMintTime s |}.

Record BoostResult := mkBoostResult {
  boosted : bool;
  boost_amount : Q;
  new_charge : Q
}.

(** [boost(amount)] *)
Definition boost (amount : Q) (s : CapacitorMint)
    : CapacitorMint * BoostResult :=
  let c := Qmin (maxCharge s) (charge s + amount)%Q in
  ({| charge := c;
      maxCharge := maxCharge s;
      threshold := threshold s;
      chargeRate := chargeRate s;
      dischargeRate := dischargeRate s;
      activityLog := activityLog s;
      lastMintTime := lastMintTime s |},
   {| boosted := true; boost_amount := amount; new_charge := c |}).

(** [reset()] *)
Definition reset (s : CapacitorMint) : CapacitorMint :=
  {| charge := 0%Q;
     maxCharge := maxCharge s;
     threshold := threshold s;
     chargeRate := chargeRate s;
     dischargeRate := dischargeRate s;
     activityLog := [];
     lastMintTime := None |}.

Inductive AbuseReport :=
| NoAbuse
| RapidFire (action : string) (cooldown : Z)
| Repetitive (action suggestion : string).

Definition abuse_detected (r : AbuseReport) : bool :=
  match r with NoAbuse => false | _ => true end.

Definition pattern (r : AbuseReport) : option string :=
  match r with
  | NoAbuse => None
  | RapidFire _ _ => Some "rapid_fire"
  | Repetitive _ _ => Some "repetitive"
  end.

(** [types.every(t => t === types[0])] *)
Definition every_same (types : list string) : bool :=
  match types with
  | [] => true
  | t0 :: _ => forallb (fun t => bool_decide (t = t0)) types
  end.

(** [detectAbuse()] *)
Definition detectAbuse (s : CapacitorMint) : AbuseReport :=
  if Z.of_nat (length (activityLog s)) <? 10 then NoAbuse
  else
    let recentActivities := js_slice (activityLog s) (-10) None in
    let timestamps := map a_timestamp recentActivities in
    let timeSpan := default 0 (last timestamps) - default 0 (head timestamps) in
    if timeSpan <? 1000 then RapidFire "throttle" 5000
    else
      let types := map a_type recentActivities in
      let allSame := every_same types in
      if allSame && (8 <? Z.of_nat (length types))
      then Repetitive "require_variety" "Vary activity types"
      else NoAbuse.

(** The mutating calls a client can make, and the state after each call of
    a sequence. *)
Inductive Call :=
| CallRegisterActivity (now : Z) (activityType : string) (intensity : option Q)
| CallBoost (amount : Q)
| CallApplyDecay (decayRate : option Q)
| CallAttemptMint (now : Z)
| CallReset.

Definition call (c : Call) (s : CapacitorMint) : CapacitorMint :=
  match c with
  | CallRegisterActivity now ty i => fst (registerActivity now ty i s)
  | CallBoost a => fst (boost a s)
  | CallApplyDecay r => applyDecay r s
  | CallAttemptMint now => fst (attemptMint now s)
  | CallReset => reset s
  end.

Fixpoint states_after (cs : list Call) (s : CapacitorMint)
    : list CapacitorMint :=
  match cs with
  | [] => []
  | c :: cs' => let s' := call c s in s' :: states_after cs' s'
  end.

(** The invariant of the charge: [0 <= charge <= maxCharge]. *)
Definition in_range (s : CapacitorMint) : Prop :=
  (0 <= charge s /\ charge s <= maxCharge s)%Q.

(** Every numeric argument of the call is non-negative. *)
Definition nonneg_args (c : Call) : Prop :=
  match c with
  | CallRegisterActivity _ _ i => (0 <= default 1 i)%Q
  | CallBoost a => (0 <= a)%Q
  | CallApplyDecay r => (0 <= default (1 # 10) r)%Q
  | CallAttemptMint _ => True
  | CallReset => True
  end.

(** The rates never change, so a state that starts with non-negative rates
    keeps them. *)
Definition rates_nonneg (s : CapacitorMint) : Prop :=
  (0 <= chargeRate s /\ 0 <= dischargeRate s)%Q.

(** The [success] field of what [attemptMint] returns. *)
Definition succeeded (r : MintAttempt) : bool :=
  match r with MintSuccess _ _ => true | MintRejected _ _ _ _ => false end.

(** The state after a whole sequence of calls. *)
Definition run (cs : list Call) (s : CapacitorMint) : CapacitorMint :=
  foldl (fun s c => call c s) s cs.

(** Sample data: a session that charges, mints, boosts, decays, resets and
    charges again. *)
Definition sample_calls : list Call :=
  [CallRegisterActivity 0 "click" (Some 100%Q);
   CallAttemptMint 5;
   CallBoost 50%Q;
   CallApplyDecay None;
   CallReset;
   CallRegisterActivity 9 "scroll" None].

(** Ten [registerActivity('click')] calls, one every [gap] milliseconds. *)
Definition clicks (gap : Z) : list Call :=
  map (fun k => CallRegisterActivity (k * gap) "click" None) (seqZ 0 10).


(** The event [registerActivity] pushes on the log of [s]. *)
Definition logged_event (now : Z) (activityType : string)
    (intensity : option Q) (s : CapacitorMint) : Activity :=
  let i := default 1%Q intensity in
  {| a_type := activityType;
     a_intensity := i;
     a_charge_added := (i * chargeRate s)%Q;
     a_timestamp := now;
     a_total_charge := Qmin (maxCharge s) (charge s + i * chargeRate s)%Q |}.

End Capacitor.

(** ** Strings of the JavaScript runtime *)

(** [String(n)] for an integer [n]; integers of magnitude 1e21 and above,
    which JavaScript prints with an exponent, are outside the model. *)
Definition js_string_of_int (z : Z) : string :=
  DecimalString.NilZero.string_of_int (Z.to_int z).

(** [n.toString(16)] for a non-negative integer [n]. *)
Definition js_hex (z : Z) : string :=
  HexadecimalString.NilZero.string_of_uint (N.to_hex_uint (Z.to_N z)).

(** [s.padStart(n, c)] for a one-character pad string. *)
Definition padStart (s : string) (n : nat) (c : ascii) : string :=
  string_of_list_ascii (replicate (n - String.length s) c) +:+ s.

(** [ToInt32]: the value of a bitwise operator's operand. *)
Definition to_int32 (z : Z) : Z :=
  (z + 2 ^ 31) mod 2 ^ 32 - 2 ^ 31.

(** One turn of the rolling-hash loop:
    [hash = ((hash << 5) - hash) + char; hash = hash & hash]. *)
Definition rolling_step (hash : Z) (c : ascii) : Z :=
  to_int32 (to_int32 (Z.shiftl (to_int32 hash) 5) - hash
            + Z.of_nat (nat_of_ascii c)).

Definition rolling_hash (data : string) : Z :=
  foldl rolling_step 0 (list_ascii_of_string data).

(** ** ImmutableLedger: the hash-chained ledger *)

Module Ledger.

Inductive result (A : Type) :=
| Ok (a : A)
| Throw (message : string).
Arguments Ok {A} a.
Arguments Throw {A} message.

Record Token := mkToken {
  id : string;
  type : string;
  t_owner : string;
  t_value : Z;
  t_timestamp : string;
  t_immutable : bool
}.

Record Entry := mkEntry {
  index : Z;
  token_id : string;
  token_type : string;
  owner : string;
  value : Z;
  timestamp : Z;
  added_at : Z;
  hash : string;
  previous_hash : string;
  immutable : bool;
  sealed : bool;
  merkle_root : option string
}.

Record MerkleRoot := mkMerkleRoot {
  root_id : string;
  batch_start : Z;
  batch_end : Z;
  batch_size : Z;
  mr_timestamp : Z;
  root_hash : string;
  mr_sealed : bool;
  mr_immutable : bool
}.

Record ImmutableLedger := mkImmutableLedger {
  ledger : list Entry;
  merkleRoots : list MerkleRoot;
  l_sealed : bool
}.

Definition constructor : ImmutableLedger :=
  {| ledger := []; merkleRoots := []; l_sealed := false |}.

(** [calculateHash(token)] *)
Definition calculateHash (token : Token) : string :=
  let data := id token +:+ type token +:+ t_owner token
              +:+ js_string_of_int (t_value token) +:+ t_timestamp token in
  "0x" +:+ padStart (js_hex (Z.abs (rolling_hash data))) 16 "0".

(** [calculateBatchHash(batch)] *)
Definition calculateBatchHash (batch : list Entry) : string :=
  let hashes := String.concat "" (map hash batch) in
  "0x" +:+ padStart (js_hex (Z.abs (rolling_hash hashes))) 32 "0".

(** The body of the sealing loop:
    [ledger[i].sealed = true; ledger[i].merkle_root = root_id]. *)
Definition mark_sealed (rid : string) (e : Entry) : Entry :=
  {| index := index e;
     token_id := token_id e;
     token_type := token_type e;
     owner := owner e;
     value := value e;
     timestamp := timestamp e;
     added_at := added_at e;
     hash := hash e;
     previous_hash := previous_hash e;
     immutable := immutable e;
     sealed := true;
     merkle_root := Some rid |}.

Definition seal_loop (rid : string) (batchStart lastIndex : Z)
    (l : list Entry) : list Entry :=
  foldl (fun l i => alter (mark_sealed rid) (Z.to_nat i) l) l
        (seqZ batchStart (lastIndex - batchStart)).

(** [createMerkleRoot()] *)
Definition createMerkleRoot (now : Z) (L : ImmutableLedger)
    : ImmutableLedger * MerkleRoot :=
  let lastIndex := Z.of_nat (length (ledger L)) in
  let batchStart := Z.max 0 (lastIndex - 100) in
  let batch := js_slice (ledger L) batchStart (Some lastIndex) in
  let merkleRoot :=
    {| root_id := "MERKLE_" +:+ js_string_of_int now;
       batch_start := batchStart;
       batch_end := lastIndex - 1;
       batch_size := Z.of_nat (length batch);
       mr_timestamp := now;
       root_hash := calculateBatchHash batch;
       mr_sealed := true;
       mr_immutable := true |} in
  ({| ledger := seal_loop (root_id merkleRoot) batchStart lastIndex (ledger L);
      merkleRoots := merkleRoots L ++ [merkleRoot];
      l_sealed := l_sealed L |},
   merkleRoot).

(** The entry [addToken] builds before it pushes it. *)
Definition new_entry (now : Z) (token : Token) (L : ImmutableLedger) : Entry :=
  {| index := Z.of_nat (length (ledger L));
     token_id := id token;
     token_type := type token;
     owner := t_owner token;
     value := t_value token;
     timestamp := now;
     added_at := now;
     hash := calculateHash token;
     previous_hash := match last (ledger L) with
                      | Some e => hash e
                      | None => "0"
                      end;
     immutable := true;
     sealed := false;
     merkle_root := None |}.

(** [addToken(token)].  The returned entry is the pushed object, so it is
    read back from the ledger after the sealing step. *)
Definition addToken (now : Z) (token : Token) (L : ImmutableLedger)
    : result (ImmutableLedger * Entry) :=
  if negb (t_immutable token) then
    Throw "Only immutable tokens can be added to ledger"
  else
    let entry := new_entry now token L in
    let L1 := {| ledger := ledger L ++ [entry];
                 merkleRoots := merkleRoots L;
                 l_sealed := l_sealed L |} in
    let L2 := if Z.of_nat (length (ledger L1)) mod 100 =? 0
              then fst (createMerkleRoot now L1) else L1 in
    Ok (L2, default entry (last (ledger L2))).

(** A run of appends, each with the clock reading of its call; it stops at
    the first append that throws. *)
Fixpoint appendAll (inputs : list (Z * Token)) (L : ImmutableLedger)
    : result ImmutableLedger :=
  match inputs with
  | [] => Ok L
  | (now, token) :: rest =>
      match addToken now token L with
      | Ok (L', _) => appendAll rest L'
      | Throw m => Throw m
      end
  end.

Record IntegrityError := mkIntegrityError {
  ie_index : Z;
  ie_error : string;
  expected : string;
  actual : string
}.

Record Integrity := mkIntegrity {
  valid : bool;
  total_entries : Z;
  verified_entries : Z;
  errors : list IntegrityError
}.

(** The body of the verification loop at index [i]. *)
Definition verify_step (l : list Entry) (results : Integrity) (i : Z)
    : Integrity :=
  match l !! Z.to_nat i, l !! Z.to_nat (i - 1) with
  | Some current, Some previous =>
      if bool_decide (previous_hash current <> hash previous) then
        {| valid := false;
           total_entries := total_entries results;
           verified_entries := verified_entries results;
           errors := errors results ++
                       [ {| ie_index := i;
                            ie_error := "Hash chain broken";
                            expected := hash previous;
                            actual := previous_hash current |} ] |}
      else
        {| valid := valid results;
           total_entries := total_entries results;
           verified_entries := verified_entries results + 1;
           errors := errors results |}
  | _, _ => results
  end.

(** [verifyIntegrity()] *)
Definition verifyIntegrity (L : ImmutableLedger) : Integrity :=
  let len := Z.of_nat (length (ledger L)) in
  foldl (verify_step (ledger L))
        {| valid := true;
           total_entries := len;
           verified_entries := 0;
           errors := [] |}
        (seqZ 1 (len - 1)).

(** The link the chain asks of position [i]: the genesis constant for the
    first entry, the hash of the entry before it otherwise. *)
Definition expected_previous (l : list Entry) (i : nat) : option string :=
  match i with
  | O => Some "0"
  | S j => hash <$> l !! j
  end.

(** Every entry sits at its index and points to the entry before it. *)
Definition chain_ok (l : list Entry) : Prop :=
  forall (i : nat) e, l !! i = Some e ->
    index e = Z.of_nat i /\ Some (previous_hash e) = expected_previous l i.

(** One Merkle root per complete range of 100 entries, and the entries of
    those ranges, and only they, are sealed under the root of their range. *)
Definition seals_ok (L : ImmutableLedger) : Prop :=
  let n := length (ledger L) in
  length (merkleRoots L) = (n / 100)%nat /\
  (forall (k : nat) r, merkleRoots L !! k = Some r ->
     batch_start r = 100 * Z.of_nat k /\
     batch_end r = 100 * Z.of_nat k + 99 /\
     batch_size r = 100) /\
  (forall (i : nat) e, ledger L !! i = Some e ->
     sealed e = bool_decide (i < 100 * (n / 100))%nat /\
     merkle_root e = root_id <$> merkleRoots L !! (i / 100)%nat).

(** The error the verification loop records at index [i], if any. *)
Definition broken_link (l : list Entry) (i : Z) : option IntegrityError :=
  match l !! Z.to_nat i, l !! Z.to_nat (i - 1) with
  | Some current, Some previous =>
      if bool_decide (previous_hash current <> hash previous)
      then Some {| ie_index := i;
                   ie_error := "Hash chain broken";
                   expected := hash previous;
                   actual := previous_hash current |}
      else None
  | _, _ => None
  end.

(** Sample data: [n] immutable tokens, appended at times 0, 1, ... *)
Definition sample_token (k : Z) : Token :=
  {| id := "TOKEN_" +:+ js_string_of_int k;
     type := "ART";
     t_owner := "alice";
     t_value := k;
     t_timestamp := "2024-01-01T00:00:00.000Z";
     t_immutable := true |}.

Definition sample_inputs (n : Z) : list (Z * Token) :=
  map (fun k => (k, sample_token k)) (seqZ 0 n).

Definition range_of (r : MerkleRoot) : Z * Z := (batch_start r, batch_end r).

(** The ledger after 100 sample appends; the 100th append has sealed it. *)
Definition ledger_of_100 : ImmutableLedger :=
  match appendAll (sample_inputs 100) constructor with
  | Ok L => L
  | Throw _ => constructor
  end.

(** A chain with two broken links: the ledger of four sample appends, with
    the hash of entry 0 and the hash of entry 2 overwritten afterwards. *)
Definition tampered_ledger : ImmutableLedger :=
  match appendAll (sample_inputs 4) constructor with
  | Ok L =>
      let forge e :=
        {| index := index e; token_id := token_id e;
           token_type := token_type e; owner := owner e; value := value e;
           timestamp := timestamp e; added_at := added_at e;
           hash := "0xforged";
           previous_hash := previous_hash e; immutable := immutable e;
           sealed := sealed e; merkle_root := merkle_root e |} in
      {| ledger := alter forge 2%nat (alter forge 0%nat (ledger L));
         merkleRoots := merkleRoots L;
         l_sealed := l_sealed L |}
  | Throw _ => constructor
  end.

(** [getToken(tokenId)]: [find] gives the first entry with that id, or
    [undefined]. *)
Definition getToken (tokenId : string) (L : ImmutableLedger) : option Entry :=
  snd <$> list_find (fun e => token_id e = tokenId) (ledger L).

(** The argument of [query]: every field may be absent. *)
Record Query := mkQuery {
  q_owner : option string;
  q_type : option string;
  q_fromIndex : option Z;
  q_toIndex : option Z
}.

(** [if (s)] for an optional string: absent and empty are both falsy. *)
Definition truthy_string (s : option string) : option string :=
  match s with
  | Some x => if bool_decide (x = "") then None else Some x
  | None => None
  end.

(** [query({ owner, type, fromIndex, toIndex })] *)
Definition query (q : Query) (L : ImmutableLedger) : list Entry :=
  let results := ledger L in
  let results := match truthy_string (q_owner q) with
                 | Some o => filter (fun e => owner e = o) results
                 | None => results
                 end in
  let results := match truthy_string (q_type q) with
                 | Some t => filter (fun e => token_type e = t) results
                 | None => results
                 end in
  let results := match q_fromIndex q with
                 | Some a => filter (fun e => a <= index e) results
                 | None => results
                 end in
  let results := match q_toIndex q with
                 | Some b => filter (fun e => index e <= b) results
                 | None => results
                 end in
  results.

(** A value of the [typeCount] object of [getStats]: a number, or the text
    that [+ 1] makes of a function inherited from [Object.prototype], which
    is the source text of that function followed by one ['1'] for every
    entry counted. *)
Inductive CountValue :=
| Number (n : Z)
| FunctionText (member : string) (ones : nat).

Record Stats := mkStats {
  st_total_entries : Z;
  total_value : Z;
  st_merkle_roots : Z;
  sealed_entries : Z;
  by_type : gmap string CountValue;
  integrity : bool
}.

(** The functions an empty object literal inherits from
    [Object.prototype]. *)
Definition object_prototype_functions : list string :=
  [ "constructor"; "__defineGetter__"; "__defineSetter__"; "hasOwnProperty";
    "__lookupGetter__"; "__lookupSetter__"; "isPrototypeOf";
    "propertyIsEnumerable"; "toString"; "valueOf"; "toLocaleString" ].

(** The body of the [forEach] of [getStats]:
    [typeCount[t] = (typeCount[t] || 0) + 1], on [typeCount = {}]; the map
    holds the own properties of [typeCount].  A number is counted up, a
    text gets one more ['1'].  Where [typeCount] has no own property [t],
    the read goes to [Object.prototype]: under ['__proto__'] it finds that
    object, and the assignment of the text made of it to ['__proto__'] sets
    no property; under the name of an inherited function it finds the
    function, and the assignment stores its text and ['1']; under any other
    name it finds [undefined] and stores 1. *)
Definition count_type (typeCount : gmap string CountValue) (e : Entry)
    : gmap string CountValue :=
  let t := token_type e in
  match typeCount !! t with
  | Some (Number n) => <[t := Number (n + 1)]> typeCount
  | Some (FunctionText member ones) =>
      <[t := FunctionText member (S ones)]> typeCount
  | None =>
      if bool_decide (t = "__proto__") then typeCount
      else if bool_decide (t ∈ object_prototype_functions)
           then <[t := FunctionText t 1]> typeCount
      else <[t := Number 1]> typeCount
  end.

(** [getStats()] *)
Definition getStats (L : ImmutableLedger) : Stats :=
  {| st_total_entries := Z.of_nat (length (ledger L));
     total_value := foldl (fun sum e => sum + value e) 0 (ledger L);
     st_merkle_roots := Z.of_nat (length (merkleRoots L));
     sealed_entries :=
       Z.of_nat (length (filter (fun e => sealed e = true) (ledger L)));
     by_type := foldl count_type ∅ (ledger L);
     integrity := valid (verifyIntegrity L) |}.

(** Helpers to state what verification sees: the entry at position [i] with
    its hash replaced, and with its owner and value replaced. *)
Definition with_hash (h : string) (e : Entry) : Entry :=
  {| index := index e; token_id := token_id e; token_type := token_type e;
     owner := owner e; value := value e; timestamp := timestamp e;
     added_at := added_at e; hash := h; previous_hash := previous_hash e;
     immutable := immutable e; sealed := sealed e;
     merkle_root := merkle_root e |}.

Definition with_content (o : string) (v : Z) (e : Entry) : Entry :=
  {| index := index e; token_id := token_id e; token_type := token_type e;
     owner := o; value := v; timestamp := timestamp e;
     added_at := added_at e; hash := hash e; previous_hash := previous_hash e;
     immutable := immutable e; sealed := sealed e;
     merkle_root := merkle_root e |}.

Definition alter_entry (f : Entry -> Entry) (i : nat) (L : ImmutableLedger)
    : ImmutableLedger :=
  {| ledger := alter f i (ledger L);
     merkleRoots := merkleRoots L;
     l_sealed := l_sealed L |}.

(** Every link of the chain holds. *)
Definition links_intact (l : list Entry) : Prop :=
  forall (i : nat) cur prev,
    l !! S i = Some cur -> l !! i = Some prev ->
    previous_hash cur = hash prev.

(** The polynomial the rolling hash evaluates, without the wrap-around. *)
Definition horner31 (data : string) : Z :=
  foldl (fun h c => 31 * h + Z.of_nat (nat_of_ascii c)) 0
        (list_ascii_of_string data).

(** Sample data: the ledger after five sample appends. *)
Definition ledger_of_5 : ImmutableLedger :=
  match appendAll (sample_inputs 5) constructor with
  | Ok L => L
  | Throw _ => constructor
  end.

(** What sealing may do to an entry: nothing, or set [sealed] and
    [merkle_root]. *)
Definition sealed_or_same (e1 e2 : Entry) : Prop :=
  e2 = e1 \/ exists rid, e2 = mark_sealed rid e1.

(** [exportLedger()].  The export holds [this.ledger] and
    [this.merkleRoots] themselves, not copies; [addToken] and
    [createMerkleRoot] push onto these arrays and write into their entries.
    So the record keeps the fields that are copied when the export is made,
    and [export_ledger] and [export_merkle_roots] read the two arrays as the
    ledger stands when they are read. *)
Record Export := mkExport {
  x_version : string;
  exported_at : Z;
  x_stats : Stats
}.

Definition exportLedger (now : Z) (L : ImmutableLedger) : Export :=
  {| x_version := "1.0.0"; exported_at := now; x_stats := getStats L |}.

Definition export_ledger (x : Export) (L : ImmutableLedger) : list Entry :=
  ledger L.

Definition export_merkle_roots (x : Export) (L : ImmutableLedger)
    : list MerkleRoot :=
  merkleRoots L.

End Ledger.

(** ** BatchProcessor: the batch queue *)

Module Batch.

Record Request := mkRequest {
  r_type : option string;
  r_trigger : option string;
  r_owner : option string;
  r_amount : option Z
}.

(** A queue element: [{...request, queued_at, status: 'queued'}]. *)
Record QueuedRequest := mkQueuedRequest {
  request : Request;
  queued_at : Z;
  status : string
}.

(** What a call of a collaborator does: it returns or it throws. *)
Inductive Outcome (A : Type) :=
| Returned (a : A)
| Thrown (message : string).
Arguments Returned {A} a.
Arguments Thrown {A} message.

(** The object [alcMinter.mint] resolves to: [{success: true, token}] or
    [{success: false, error}]. *)
Inductive MintResult (Token : Type) :=
| MintOk (token : Token)
| MintFailed (error : string).
Arguments MintOk {Token} token.
Arguments MintFailed {Token} error.

(** The two collaborators the constructor receives.  Each call may change
    the collaborator's own state, [M] for the minter and [F] for the
    factory. *)
Class Collaborators (Token M F : Type) := {
  mint : QueuedRequest -> M -> Outcome (MintResult Token) * M;
  createToken : QueuedRequest -> F -> Outcome Token * F
}.

Section Processor.
Context {Token M F : Type} `{!Collaborators Token M F}.

Record BatchError := mkBatchError {
  be_index : Z;
  be_request : QueuedRequest;
  be_error : string
}.

Record BatchResults := mkBatchResults {
  batch_id : string;
  b_timestamp : Z;
  size : Z;
  tokens : list Token;
  errors : list BatchError
}.

Inductive BatchReply :=
| ReplyError (error : string)
| ReplyMessage (message : string)
| ReplyResults (results : BatchResults).

Record BatchProcessor := mkBatchProcessor {
  queue : list QueuedRequest;
  processing : bool;
  maxBatchSize : Z;
  batchHistory : list BatchResults
}.

Definition constructor : BatchProcessor :=
  {| queue := []; processing := false; maxBatchSize := 100;
     batchHistory := [] |}.

Record QueueTicket := mkQueueTicket {
  qt_success : bool;
  position : Z;
  estimated_wait : Q
}.

(** [addToQueue(request)] *)
Definition addToQueue (now : Z) (req : Request) (bp : BatchProcessor)
    : BatchProcessor * QueueTicket :=
  let q := queue bp ++
             [ {| request := req; queued_at := now; status := "queued" |} ] in
  ({| queue := q;
      processing := processing bp;
      maxBatchSize := maxBatchSize bp;
      batchHistory := batchHistory bp |},
   {| qt_success := true;
      position := Z.of_nat (length q);
      estimated_wait := (inject_Z (Z.of_nat (length q)) * (1 # 10))%Q |}).

(** [clearQueue()] *)
Definition clearQueue (bp : BatchProcessor) : BatchProcessor * Z :=
  ({| queue := [];
      processing := processing bp;
      maxBatchSize := maxBatchSize bp;
      batchHistory := batchHistory bp |},
   Z.of_nat (length (queue bp))).

(** [generateBatchId()]; [rnd] is the suffix drawn from [Math.random]. *)
Definition generateBatchId (now : Z) (rnd : string) : string :=
  "BATCH_" +:+ js_string_of_int now +:+ "_" +:+ rnd.

(** [request.type === 'ALC' || !request.type] *)
Definition uses_alc_minter (r : QueuedRequest) : bool :=
  match r_type (request r) with
  | None => true
  | Some t => bool_decide (t = "ALC") || bool_decide (t = "")
  end.

(** The [try] block of the loop body: the token, or the message of the
    error that reaches the [catch]. *)
Definition try_mint (r : QueuedRequest) (w : M * F)
    : (Token + string) * (M * F) :=
  if uses_alc_minter r then
    match mint r (fst w) with
    | (Returned (MintOk token), m) => (inl token, (m, snd w))
    | (Returned (MintFailed error), m) => (inr error, (m, snd w))
    | (Thrown message, m) => (inr message, (m, snd w))
    end
  else
    match createToken r (snd w) with
    | (Returned token, f) => (inl token, (fst w, f))
    | (Thrown message, f) => (inr message, (fst w, f))
    end.

(** The rest of the loop body: push the token or the error. *)
Definition record_item (i : Z) (r : QueuedRequest) (o : Token + string)
    (results : BatchResults) : BatchResults :=
  match o with
  | inl token =>
      {| batch_id := batch_id results;
         b_timestamp := b_timestamp results;
         size := size results;
         tokens := tokens results ++ [token];
         errors := errors results |}
  | inr message =>
      {| batch_id := batch_id results;
         b_timestamp := b_timestamp results;
         size := size results;
         tokens := tokens results;
         errors := errors results ++
                     [ {| be_index := i; be_request := r;
                          be_error := message |} ] |}
  end.

(** The loop [for (let i = 0; i < batch.length; i++)] from index [i] on,
    [rest] being [batch[i..]]. *)
Fixpoint process_items (i : Z) (rest : list QueuedRequest)
    (results : BatchResults) (w : M * F) : BatchResults * (M * F) :=
  match rest with
  | [] => (results, w)
  | r :: rest' =>
      let '(o, w') := try_mint r w in
      process_items (i + 1) rest' (record_item i r o results) w'
  end.

(** An activation of [processBatch] that has passed its guards: the
    loop counter, the items still to process and the results so far. *)
Record Job := mkJob {
  job_i : Z;
  job_rest : list QueuedRequest;
  job_results : BatchResults
}.

(** [processBatch] up to the loop: the two guards, then the drain. *)
Definition processBatch_begin (now : Z) (rnd : string)
    (batchSize : option Z) (bp : BatchProcessor)
    : BatchProcessor * (BatchReply + Job) :=
  if processing bp then (bp, inl (ReplyError "Batch already processing"))
  else
    let wanted := match batchSize with
                  | Some b => if b =? 0 then maxBatchSize bp else b
                  | None => maxBatchSize bp
                  end in
    let sz := Z.min wanted (Z.of_nat (length (queue bp))) in
    if sz =? 0 then (bp, inl (ReplyMessage "Queue is empty"))
    else
      let '(batch, remaining) := js_splice0 (queue bp) sz in
      ({| queue := remaining;
          processing := true;
          maxBatchSize := maxBatchSize bp;
          batchHistory := batchHistory bp |},
       inr {| job_i := 0;
              job_rest := batch;
              job_results := {| batch_id := generateBatchId now rnd;
                                b_timestamp := now;
                                size := sz;
                                tokens := [];
                                errors := [] |} |}).

(** [processBatch] after the loop: release the flag, keep the last 50
    results. *)
Definition processBatch_end (results : BatchResults) (bp : BatchProcessor)
    : BatchProcessor :=
  let h := batchHistory bp ++ [results] in
  {| queue := queue bp;
     processing := false;
     maxBatchSize := maxBatchSize bp;
     batchHistory := if 50 <? Z.of_nat (length h)
                     then js_slice h (-50) None else h |}.

(** [processBatch(batchSize = null)] run to completion with no other call
    in between. *)
Definition processBatch (now : Z) (rnd : string) (batchSize : option Z)
    (bp : BatchProcessor) (w : M * F)
    : BatchProcessor * (M * F) * BatchReply :=
  match processBatch_begin now rnd batchSize bp with
  | (bp', inl reply) => (bp', w, reply)
  | (bp', inr job) =>
      let '(results, w') :=
        process_items (job_i job) (job_rest job) (job_results job) w in
      (processBatch_end results bp', w', ReplyResults results)
  end.

(** The outcome of every item of a batch, in order, the collaborators'
    state carried from one item to the next. *)
Fixpoint outcomes (batch : list QueuedRequest) (w : M * F)
    : list (Token + string) :=
  match batch with
  | [] => []
  | r :: rest => let '(o, w') := try_mint r w in o :: outcomes rest w'
  end.

(** The errors a list of outcomes leaves, numbered from [i]. *)
Fixpoint failures_from (i : Z) (batch : list QueuedRequest)
    (os : list (Token + string)) : list BatchError :=
  match batch, os with
  | r :: batch', inr message :: os' =>
      {| be_index := i; be_request := r; be_error := message |}
        :: failures_from (i + 1) batch' os'
  | _ :: batch', inl _ :: os' => failures_from (i + 1) batch' os'
  | _, _ => []
  end.

Fixpoint successes (os : list (Token + string)) : list Token :=
  match os with
  | [] => []
  | inl token :: os' => token :: successes os'
  | inr _ :: os' => successes os'
  end.

(** *** Interleaving

    [processBatch] is an [async] function: while it waits for the minter
    another call on the same object may run.  A system state is the
    processor, the collaborators and the activations of [processBatch]
    that are inside their loop; every loop turn is a step of its own, so
    any other call may come between two turns. *)
Record System := mkSystem {
  bp : BatchProcessor;
  world : M * F;
  jobs : list Job
}.

Inductive step : System -> System -> Prop :=
| step_addToQueue now req s :
    step s {| bp := fst (addToQueue now req (bp s));
              world := world s; jobs := jobs s |}
| step_clearQueue s :
    step s {| bp := fst (clearQueue (bp s));
              world := world s; jobs := jobs s |}
| step_processBatch_rejected now rnd batchSize s bp' reply :
    processBatch_begin now rnd batchSize (bp s) = (bp', inl reply) ->
    step s {| bp := bp'; world := world s; jobs := jobs s |}
| step_processBatch_started now rnd batchSize s bp' job :
    processBatch_begin now rnd batchSize (bp s) = (bp', inr job) ->
    step s {| bp := bp'; world := world s; jobs := jobs s ++ [job] |}
| step_item s js1 js2 i r rest results o w' :
    jobs s = js1 ++ {| job_i := i; job_rest := r :: rest;
                       job_results := results |} :: js2 ->
    try_mint r (world s) = (o, w') ->
    step s {| bp := bp s; world := w';
              jobs := js1 ++ {| job_i := i + 1; job_rest := rest;
                                job_results := record_item i r o results |}
                          :: js2 |}
| step_finish s js1 js2 i results :
    jobs s = js1 ++ {| job_i := i; job_rest := [];
                       job_results := results |} :: js2 ->
    step s {| bp := processBatch_end results (bp s); world := world s;
              jobs := js1 ++ js2 |}.

Inductive reachable : System -> Prop :=
| reachable_init w :
    reachable {| bp := constructor; world := w; jobs := [] |}
| reachable_step s s' : reachable s -> step s s' -> reachable s'.

End Processor.

(** *** Sample collaborators

    Stand-ins that are enough to run a batch: a minter over a capacitor
    charge that every mint lowers by 20, and a factory that knows the token
    type ART only and numbers the tokens it makes.  Tokens are their ids. *)
Definition sample_mint (r : QueuedRequest) (charge : Z)
    : Outcome (MintResult string) * Z :=
  if charge <? 100
  then (Returned (MintFailed "Insufficient capacitor charge"), charge)
  else (Returned (MintOk ("ALC_" +:+ js_string_of_int charge)),
        Z.max 0 (charge - 20)).

Definition sample_createToken (r : QueuedRequest) (made : Z)
    : Outcome string * Z :=
  match r_type (request r) with
  | Some t =>
      if bool_decide (t = "ART")
      then (Returned ("ART_" +:+ js_string_of_int made), made + 1)
      else (Thrown ("Unknown token type: " +:+ t), made)
  | None => (Thrown "Unknown token type: undefined", made)
  end.

#[export] Instance sample_collaborators : Collaborators string Z Z :=
  {| mint := sample_mint; createToken := sample_createToken |}.

(** Twelve requests for ART tokens, the one at index 4 asking for a type the
    factory does not know. *)
Definition sample_requests : list Request :=
  map (fun k => {| r_type := Some (if k =? 4 then "COIN" else "ART");
                   r_trigger := None;
                   r_owner := Some "alice";
                   r_amount := Some 1 |})
      (seqZ 0 12).

Definition sample_processor : @BatchProcessor string :=
  foldl (fun bp req => fst (addToQueue 0 req bp)) constructor sample_requests.

(** The system after the twelve [addToQueue] calls and a [processBatch(10)]
    that has drained its batch and waits in its loop. *)
Definition sample_in_flight : @System string Z Z :=
  let begun := processBatch_begin 1 "k3x9q" (Some 10) sample_processor in
  {| bp := fst begun;
     world := (100, 0);
     jobs := match snd begun with inr job => [job] | inl _ => [] end |}.

(** *** The callers of [processBatch] *)

Section Wrappers.
Context {Token M F : Type} `{!Collaborators Token M F}.




(** The requests of a list of queue elements, in order. *)
Definition requests_of (q : list QueuedRequest) : list Request :=
  map request q.

End Wrappers.

End Batch.

(** ** Hexadecimal digits

    The little-endian digit string of [n mod 16^k], used to bound the number
    of digits [toString(16)] produces. *)

Definition hex_digit (x : N) (d : Hexadecimal.uint) : Hexadecimal.uint :=
  match x with
  | 0%N => Hexadecimal.D0 d | 1%N => Hexadecimal.D1 d
  | 2%N => Hexadecimal.D2 d | 3%N => Hexadecimal.D3 d
  | 4%N => Hexadecimal.D4 d | 5%N => Hexadecimal.D5 d
  | 6%N => Hexadecimal.D6 d | 7%N => Hexadecimal.D7 d
  | 8%N => Hexadecimal.D8 d | 9%N => Hexadecimal.D9 d
  | 10%N => Hexadecimal.Da d | 11%N => Hexadecimal.Db d
  | 12%N => Hexadecimal.Dc d | 13%N => Hexadecimal.Dd d
  | 14%N => Hexadecimal.De d | _ => Hexadecimal.Df d
  end.

Fixpoint nibbles_lu (k : nat) (n : N) : Hexadecimal.uint :=
  match k with
  | O => Hexadecimal.Nil
  | S k' => hex_digit (n mod 16) (nibbles_lu k' (n / 16))
  end.

(** ** ALCMinter: the minter of ALC tokens *)

Module Minter.

Record Trigger := mkTrigger {
  enabled : bool;
  base_amount : Z
}.

Record MintingProof := mkMintingProof {
  shows : string;
  proves : string;
  evidence : string
}.

(** The configuration object, as far as the minter reads it. *)
Record Config := mkConfig {
  minting_triggers : gmap string Trigger;
  threshold : Q;
  token_emoji : string;
  cfg_blockchain_backed : bool;
  minting_proof : MintingProof
}.

Record Request := mkRequest {
  r_trigger : option string;
  r_amount : option Z;
  r_owner : option string;
  r_metadata : gmap string string
}.

Record ProofOfMint := mkProofOfMint {
  p_shows : string;
  p_proves : string;
  p_evidence : string;
  p_timestamp : Z;
  p_signature : string
}.

(** [{...metadata, trigger, timestamp, proof}]: the three fields shadow keys
    of the same name in the request's metadata. *)
Record Metadata := mkMetadata {
  md_request : gmap string string;
  md_trigger : string;
  md_timestamp : Z;
  md_proof : ProofOfMint
}.

Record Token := mkToken {
  id : string;
  type : string;
  emoji : string;
  value : Z;
  owner : string;
  trigger : string;
  timestamp : Z;
  metadata : Metadata;
  immutable : bool;
  blockchain_backed : bool
}.

Record ALCMinter := mkALCMinter {
  config : Config;
  totalMinted : Z;
  inCirculation : Z;
  mintingHistory : list Token;
  capacitorCharge : Q
}.

Definition constructor (cfg : Config) : ALCMinter :=
  {| config := cfg; totalMinted := 0; inCirculation := 0;
     mintingHistory := []; capacitorCharge := 0%Q |}.

(** [validateMintRequest(request)] *)
Definition validateMintRequest (r : Request) (s : ALCMinter) : bool :=
  match Ledger.truthy_string (r_trigger r),
        Ledger.truthy_string (r_owner r) with
  | Some t, Some _ =>
      match minting_triggers (config s) !! t with
      | Some tr => enabled tr
      | None => false
      end
  | _, _ => false
  end.

(** [checkCapacitorCharge(trigger)] *)
Definition checkCapacitorCharge (s : ALCMinter) : bool :=
  Qle_bool (threshold (config s)) (capacitorCharge s).

(** [chargeCapacitor(activity)] *)
Definition chargeCapacitor (activity : Q) (s : ALCMinter) : ALCMinter :=
  {| config := config s; totalMinted := totalMinted s;
     inCirculation := inCirculation s; mintingHistory := mintingHistory s;
     capacitorCharge := Qmin 100 (capacitorCharge s + activity)%Q |}.

(** [registerActivity(activityLevel = 5)] *)
Definition registerActivity (activityLevel : option Q) (s : ALCMinter)
    : ALCMinter :=
  chargeCapacitor (default 5%Q activityLevel) s.

(** [calculateMintRate()]: the mints of the last hour. *)
Definition calculateMintRate (now : Z) (s : ALCMinter) : Z :=
  let oneHourAgo := now - 3600000 in
  Z.of_nat (length (filter (fun t => oneHourAgo < timestamp t)
                           (mintingHistory s))).

Record MinterStats := mkMinterStats {
  total_minted : Z;
  in_circulation : Z;
  mint_rate : Z;
  capacitor_charge : Q;
  recent_mints : list Token
}.

(** [getStats()] *)
Definition getStats (now : Z) (s : ALCMinter) : MinterStats :=
  {| total_minted := totalMinted s;
     in_circulation := inCirculation s;
     mint_rate := calculateMintRate now s;
     capacitor_charge := capacitorCharge s;
     recent_mints := js_slice (mintingHistory s) (-10) None |}.

Inductive MintReply :=
| MintRefused (error : string)
| MintDone (token : Token) (stats : MinterStats).

(** The token [mint] builds: [generateProof], then [createToken].  [rnd_sig]
    and [rnd_id] are the suffixes drawn from [Math.random] for the signature
    and for the token id. *)
Definition new_token (now : Z) (rnd_sig rnd_id : string) (r : Request)
    (tr : Trigger) (s : ALCMinter) : Token :=
  let amount := match r_amount r with
                | Some a => if a =? 0 then base_amount tr else a
                | None => base_amount tr
                end in
  let trig := default "" (r_trigger r) in
  {| id := "ALC_" +:+ js_string_of_int now +:+ "_" +:+ rnd_id;
     type := "ALC";
     emoji := token_emoji (config s);
     value := amount;
     owner := default "" (r_owner r);
     trigger := trig;
     timestamp := now;
     metadata :=
       {| md_request := r_metadata r;
          md_trigger := trig;
          md_timestamp := now;
          md_proof :=
            {| p_shows := shows (minting_proof (config s));
               p_proves := proves (minting_proof (config s));
               p_evidence := evidence (minting_proof (config s));
               p_timestamp := now;
               p_signature :=
                 "sig_" +:+ js_string_of_int now +:+ "_" +:+ rnd_sig |} |};
     immutable := true;
     blockchain_backed := cfg_blockchain_backed (config s) |}.

(** [mint(request)] *)
Definition mint (now : Z) (rnd_sig rnd_id : string) (r : Request)
    (s : ALCMinter) : ALCMinter * MintReply :=
  if negb (validateMintRequest r s) then
    (s, MintRefused "Invalid mint request")
  else if negb (checkCapacitorCharge s) then
    (s, MintRefused "Insufficient capacitor charge")
  else
    match minting_triggers (config s) !! default "" (r_trigger r) with
    | None => (s, MintRefused "Invalid mint request")
    | Some tr =>
        let token := new_token now rnd_sig rnd_id r tr s in
        let s' := {| config := config s;
                     totalMinted := totalMinted s + value token;
                     inCirculation := inCirculation s + value token;
                     mintingHistory := mintingHistory s ++ [token];
                     capacitorCharge :=
                       Qmax 0 (capacitorCharge s - 20)%Q |} in
        (s', MintDone token (getStats now s'))
    end.

(** The calls a client can make, and the state after a sequence of them. *)
Inductive Call :=
| CallMint (now : Z) (rnd_sig rnd_id : string) (r : Request)
| CallRegisterActivity (activityLevel : option Q)
| CallChargeCapacitor (activity : Q).

Definition call (c : Call) (s : ALCMinter) : ALCMinter :=
  match c with
  | CallMint now rnd_sig rnd_id r => fst (mint now rnd_sig rnd_id r s)
  | CallRegisterActivity a => registerActivity a s
  | CallChargeCapacitor a => chargeCapacitor a s
  end.

Definition run (cs : list Call) (s : ALCMinter) : ALCMinter :=
  foldl (fun s c => call c s) s cs.


End Minter.

(** ** TokenFactory: the general token factory *)

(** [n.toString(36)] for a non-negative integer: the digits, most
    significant first.  [fuel] bounds the number of digits. *)
Definition base36_digit (d : Z) : ascii :=
  if d <? 10 then ascii_of_nat (Z.to_nat (48 + d))
  else ascii_of_nat (Z.to_nat (87 + d)).

Fixpoint base36_digits (fuel : nat) (n : Z) : list ascii :=
  match fuel with
  | O => [base36_digit (n mod 36)]
  | S fuel' =>
      if n <? 36 then [base36_digit n]
      else base36_digits fuel' (n / 36) ++ [base36_digit (n mod 36)]
  end.

Definition js_base36 (n : Z) : string :=
  string_of_list_ascii (base36_digits (Z.to_nat (Z.log2 n)) n).

Module Factory.

Record TokenType := mkTokenType {
  tt_name : option string;
  tt_emoji : option string;
  tt_description : option string;
  mintable : bool;
  transferable : bool;
  burnable : bool
}.

(** The rules object, as far as the factory reads it:
    [version], [token_types], [token_structure.{immutable, required_fields}]
    and [validation_rules.{require_owner, require_metadata, min_value,
    max_value}]. *)
Record Rules := mkRules {
  version : option string;
  token_types : gmap string TokenType;
  structure_immutable : bool;
  required_fields : list string;
  require_owner : bool;
  require_metadata : bool;
  min_value : option Z;
  max_value : option Z
}.

Record Request := mkRequest {
  r_type : option string;
  r_owner : option string;
  r_value : option Z;
  r_metadata : gmap string string
}.

(** [{...metadata, created_at, factory_version}] *)
Record Metadata := mkMetadata {
  md_request : gmap string string;
  created_at : Z;
  factory_version : option string
}.

Record Token := mkToken {
  id : string;
  type : option string;
  name : option string;
  emoji : option string;
  description : option string;
  timestamp : Z;
  owner : option string;
  value : option Z;
  metadata : Metadata;
  t_transferable : bool;
  t_burnable : bool;
  immutable : bool
}.

Record TokenFactory := mkTokenFactory {
  rules : Rules;
  ledger : list Token
}.

Definition constructor (rs : Rules) : TokenFactory :=
  {| rules := rs; ledger := [] |}.

(** The property name [`${type}`] of a possibly absent type. *)
Definition type_key (ty : option string) : string :=
  default "undefined" ty.

(** [simpleHash(str)] *)
Definition simpleHash (str : string) : string :=
  js_base36 (Z.abs (rolling_hash str)).

(** [generateUniqueId(type)]; [rnd] is the suffix drawn from
    [Math.random]. *)
Definition generateUniqueId (now : Z) (rnd : string) (ty : option string)
    : string :=
  simpleHash (type_key ty +:+ "_" +:+ js_string_of_int now +:+ "_" +:+ rnd).

Definition falsy_string (s : option string) : bool :=
  match s with
  | Some x => bool_decide (x = "")
  | None => true
  end.

(** [!token[field]] for the fields a token has; any other name reads
    [undefined].  Names of members of [Object.prototype] are outside the
    model. *)
Definition field_falsy (field : string) (t : Token) : bool :=
  if bool_decide (field = "id") then bool_decide (id t = "")
  else if bool_decide (field = "type") then falsy_string (type t)
  else if bool_decide (field = "name") then falsy_string (name t)
  else if bool_decide (field = "emoji") then falsy_string (emoji t)
  else if bool_decide (field = "description")
       then falsy_string (description t)
  else if bool_decide (field = "timestamp") then false
  else if bool_decide (field = "owner") then falsy_string (owner t)
  else if bool_decide (field = "value")
       then match value t with Some v => v =? 0 | None => true end
  else if bool_decide (field = "metadata") then false
  else if bool_decide (field = "transferable") then negb (t_transferable t)
  else if bool_decide (field = "burnable") then negb (t_burnable t)
  else if bool_decide (field = "immutable") then negb (immutable t)
  else true.

(** [validateToken(token)] *)
Definition validateToken (rs : Rules) (t : Token) : bool :=
  if existsb (fun field => field_falsy field t) (required_fields rs)
  then false
  else if require_owner rs && falsy_string (owner t) then false
  else if require_metadata rs && false (* [!token.metadata]: an object *)
       then false
  else if match value t, min_value rs with
          | Some v, Some m => v <? m
          | _, _ => false
          end then false
  else if match value t, max_value rs with
          | Some v, Some m => m <? v
          | _, _ => false
          end then false
  else true.

Inductive Outcome (A : Type) :=
| Returned (a : A)
| Thrown (message : string).
Arguments Returned {A} a.
Arguments Thrown {A} message.

(** [createToken({ type, owner, value, metadata = {} })]; type names that
    are members of [Object.prototype] are outside the model. *)
Definition createToken (now : Z) (rnd : string) (r : Request)
    (s : TokenFactory) : TokenFactory * Outcome Token :=
  match token_types (rules s) !! type_key (r_type r) with
  | None => (s, Thrown ("Unknown token type: " +:+ type_key (r_type r)))
  | Some tokenType =>
      if negb (mintable tokenType) then
        (s, Thrown ("Token type " +:+ type_key (r_type r)
                    +:+ " is not mintable"))
      else
        let token :=
          {| id := generateUniqueId now rnd (r_type r);
             type := r_type r;
             name := tt_name tokenType;
             emoji := tt_emoji tokenType;
             description := tt_description tokenType;
             timestamp := now;
             owner := r_owner r;
             value := r_value r;
             metadata := {| md_request := r_metadata r;
                            created_at := now;
                            factory_version := version (rules s) |};
             t_transferable := transferable tokenType;
             t_burnable := burnable tokenType;
             immutable := structure_immutable (rules s) |} in
        if negb (validateToken (rules s) token) then
          (s, Thrown "Token validation failed")
        else
          ({| rules := rules s; ledger := ledger s ++ [token] |},
           Returned token)
  end.

Record BatchError := mkBatchError {
  be_index : Z;
  be_error : string
}.

(** The loop of [batchCreate] from index [i] on; every request comes with
    the clock reading and the random suffix of its [createToken] call. *)
Fixpoint batchCreate_from (i : Z) (inputs : list (Z * string * Request))
    (tokens : list Token) (errors : list BatchError) (s : TokenFactory)
    : TokenFactory * (list Token * list BatchError) :=
  match inputs with
  | [] => (s, (tokens, errors))
  | (now, rnd, r) :: rest =>
      match createToken now rnd r s with
      | (s', Returned token) =>
          batchCreate_from (i + 1) rest (tokens ++ [token]) errors s'
      | (s', Thrown message) =>
          batchCreate_from (i + 1) rest tokens
            (errors ++ [ {| be_index := i; be_error := message |} ]) s'
      end
  end.

(** [batchCreate(requests)] *)
Definition batchCreate (inputs : list (Z * string * Request))
    (s : TokenFactory) : TokenFactory * (list Token * list BatchError) :=
  batchCreate_from 0 inputs [] [] s.

(** [getToken(id)] *)
Definition getToken (tokenId : string) (s : TokenFactory) : option Token :=
  snd <$> list_find (fun t => id t = tokenId) (ledger s).

End Factory.

(** ** The batch processor with its two collaborators

    [BatchProcessor] calls [alcMinter.mint(request)] and
    [tokenFactory.createToken(request)] on the queued request itself.  The
    queued requests of this model carry [type], [trigger], [owner] and
    [amount]: the minter finds no [metadata] in them and the factory no
    [value] and no [metadata].  The clock readings and random suffixes of the
    calls come from an oracle, one reading for every call a collaborator
    receives, numbered from 0. *)

Module Pipeline.

Record Env := mkEnv {
  env_now : Z;
  env_rnd1 : string;
  env_rnd2 : string
}.

(** The tokens a batch result can hold. *)
Definition Token : Type := Minter.Token + Factory.Token.

(** The clock readings and random draws still to come: the [n]-th call of a
    collaborator reads [readings n]. *)
Record Clock := mkClock {
  readings : nat -> Env;
  tick : nat
}.

Definition advance (c : Clock) : Clock :=
  {| readings := readings c; tick := S (tick c) |}.

(** What the minter and the factory read of a queued request.  A request of
    the queue carries [type], [trigger], [owner] and [amount]; it has no
    [value] and no [metadata]. *)
Definition minter_request (r : Batch.QueuedRequest) : Minter.Request :=
  {| Minter.r_trigger := Batch.r_trigger (Batch.request r);
     Minter.r_amount := Batch.r_amount (Batch.request r);
     Minter.r_owner := Batch.r_owner (Batch.request r);
     Minter.r_metadata := ∅ |}.

Definition factory_request (r : Batch.QueuedRequest) : Factory.Request :=
  {| Factory.r_type := Batch.r_type (Batch.request r);
     Factory.r_owner := Batch.r_owner (Batch.request r);
     Factory.r_value := None;
     Factory.r_metadata := ∅ |}.

(** [this.alcMinter.mint(request)] *)
Definition collab_mint (r : Batch.QueuedRequest)
    (m : Minter.ALCMinter * Clock)
    : Batch.Outcome (Batch.MintResult Token) * (Minter.ALCMinter * Clock) :=
  let e := readings (snd m) (tick (snd m)) in
  match Minter.mint (env_now e) (env_rnd1 e) (env_rnd2 e)
          (minter_request r) (fst m) with
  | (s', Minter.MintDone token _) =>
      (Batch.Returned (Batch.MintOk (inl token)), (s', advance (snd m)))
  | (s', Minter.MintRefused error) =>
      (Batch.Returned (Batch.MintFailed error), (s', advance (snd m)))
  end.

(** [this.tokenFactory.createToken(request)] *)
Definition collab_createToken (r : Batch.QueuedRequest)
    (f : Factory.TokenFactory * Clock)
    : Batch.Outcome Token * (Factory.TokenFactory * Clock) :=
  let e := readings (snd f) (tick (snd f)) in
  match Factory.createToken (env_now e) (env_rnd1 e)
          (factory_request r) (fst f) with
  | (s', Factory.Returned token) =>
      (Batch.Returned (inr token), (s', advance (snd f)))
  | (s', Factory.Thrown message) =>
      (Batch.Thrown message, (s', advance (snd f)))
  end.

#[export] Instance collaborators
  : Batch.Collaborators Token (Minter.ALCMinter * Clock)
      (Factory.TokenFactory * Clock) :=
  {| Batch.mint := collab_mint;
     Batch.createToken := collab_createToken |}.

(** The tokens as [ImmutableLedger.addToken] reads them; [iso] is the
    rendering of a clock reading as an ISO string.  A factory token converts
    when its type, owner and value are present. *)
Definition ledger_token_of_alc (iso : Z -> string) (t : Minter.Token)
    : Ledger.Token :=
  {| Ledger.id := Minter.id t;
     Ledger.type := Minter.type t;
     Ledger.t_owner := Minter.owner t;
     Ledger.t_value := Minter.value t;
     Ledger.t_timestamp := iso (Minter.timestamp t);
     Ledger.t_immutable := Minter.immutable t |}.

Definition ledger_token_of_factory (iso : Z -> string) (t : Factory.Token)
    : option Ledger.Token :=
  match Factory.type t, Factory.owner t, Factory.value t with
  | Some ty, Some o, Some v =>
      Some {| Ledger.id := Factory.id t;
              Ledger.type := ty;
              Ledger.t_owner := o;
              Ledger.t_value := v;
              Ledger.t_timestamp := iso (Factory.timestamp t);
              Ledger.t_immutable := Factory.immutable t |}
  | _, _, _ => None
  end.

(** Sample data: a minter configuration with one enabled trigger and the
    threshold 100, and a queue of three ALC requests. *)
Definition sample_config : Minter.Config :=
  {| Minter.minting_triggers :=
       {[ "purchase" := {| Minter.enabled := true; Minter.base_amount := 5 |} ]};
     Minter.threshold := 100%Q;
     Minter.token_emoji := "ALC";
     Minter.cfg_blockchain_backed := true;
     Minter.minting_proof :=
       {| Minter.shows := "work"; Minter.proves := "value";
          Minter.evidence := "ledger" |} |}.

Definition sample_clock : Clock :=
  {| readings := fun n => {| env_now := Z.of_nat n; env_rnd1 := "a1b2c3";
                             env_rnd2 := "d4e5f6" |};
     tick := 0 |}.

Definition sample_alc_request : Batch.Request :=
  {| Batch.r_type := Some "ALC"; Batch.r_trigger := Some "purchase";
     Batch.r_owner := Some "alice"; Batch.r_amount := None |}.

(** A minter charged to the full, and a processor with three ALC requests
    queued. *)
Definition sample_minter : Minter.ALCMinter :=
  Minter.chargeCapacitor 100 (Minter.constructor sample_config).

Definition sample_alc_processor : @Batch.BatchProcessor Token :=
  foldl (fun bp req => fst (Batch.addToQueue 0 req bp)) Batch.constructor
        [sample_alc_request; sample_alc_request; sample_alc_request].

Definition sample_rules : Factory.Rules :=
  {| Factory.version := Some "1.0.0";
     Factory.token_types :=
       {[ "ART" := {| Factory.tt_name := Some "Art";
                      Factory.tt_emoji := Some "ART";
                      Factory.tt_description := Some "Art token";
                      Factory.mintable := true;
                      Factory.transferable := true;
                      Factory.burnable := false |} ]};
     Factory.structure_immutable := true;
     Factory.required_fields := ["id"; "type"; "owner"; "value"];
     Factory.require_owner := true;
     Factory.require_metadata := false;
     Factory.min_value := Some 0;
     Factory.max_value := Some 1000 |}.

End Pipeline.

(** ** MintReceiver: the intake queue *)

(** [arr.sort(compareFn)] for a consistent comparator: the stable sort,
    which puts [a] before [b] when [compareFn(a, b) < 0] and keeps the order
    of the array where it answers 0. *)
Section JsSort.
Context {A : Type}.
Variable compareFn : A -> A -> Z.

Fixpoint js_sort_insert (x : A) (l : list A) : list A :=
  match l with
  | [] => [x]
  | y :: l' =>
      if compareFn x y <=? 0 then x :: l else y :: js_sort_insert x l'
  end.

Definition js_sort (l : list A) : list A := foldr js_sort_insert [] l.
End JsSort.

Module Receiver.

(** The priority names that [priorityOrder] of [getNextRequest] knows. *)
Inductive Priority := high | medium | low.

#[export] Instance Priority_eq_dec : EqDecision Priority.
Proof. solve_decision. Defined.

(** An entry of [config.receives_from]; [e_priority = None] is an endpoint
    without a priority. *)
Record Endpoint := mkEndpoint {
  e_source : string;
  e_priority : option Priority
}.

Record Request := mkRequest {
  r_source : option string;
  r_trigger : option string;
  r_type : option string;
  r_owner : option string;
  r_amount : option Z;
  r_metadata : gmap string string
}.

(** [{...request, received_at, request_id, source_validated, priority}] *)
Record EnrichedRequest := mkEnrichedRequest {
  request : Request;
  received_at : Z;
  request_id : string;
  source_validated : bool;
  priority : Priority
}.

Record MintReceiver := mkMintReceiver {
  endpoints : list Endpoint;
  requestQueue : list EnrichedRequest;
  receivedCount : Z
}.

Definition constructor (receives_from : list Endpoint) : MintReceiver :=
  {| endpoints := receives_from; requestQueue := []; receivedCount := 0 |}.

(** [this.endpoints.find(e => e.source === source)] *)
Definition find_endpoint (source : string) (s : MintReceiver)
    : option Endpoint :=
  snd <$> list_find (fun e => e_source e = source) (endpoints s).

Inductive Validation :=
| Valid
| Invalid (error : string).

(** [validateRequest(request)] *)
Definition validateRequest (r : Request) (s : MintReceiver) : Validation :=
  match Ledger.truthy_string (r_source r) with
  | None => Invalid "Missing source"
  | Some source =>
      match find_endpoint source s with
      | None => Invalid ("Unknown source: " +:+ source)
      | Some _ =>
          match Ledger.truthy_string (r_trigger r),
                Ledger.truthy_string (r_type r) with
          | None, None => Invalid "Missing trigger or type"
          | _, _ =>
              match Ledger.truthy_string (r_owner r) with
              | None => Invalid "Missing owner"
              | Some _ => Valid
              end
          end
      end
  end.

(** [getPriority(source)]: [endpoint?.priority || 'medium'] *)
Definition getPriority (source : option string) (s : MintReceiver)
    : Priority :=
  match source with
  | Some src =>
      match find_endpoint src s with
      | Some e => default medium (e_priority e)
      | None => medium
      end
  | None => medium
  end.

Definition generateRequestId (now : Z) (rnd : string) : string :=
  "REQ_" +:+ js_string_of_int now +:+ "_" +:+ rnd.

Inductive Receipt :=
| Rejected (error : string)
| Accepted (request_id : string) (queue_position : Z).

(** [receiveRequest(request)] *)
Definition receiveRequest (now : Z) (rnd : string) (r : Request)
    (s : MintReceiver) : MintReceiver * Receipt :=
  match validateRequest r s with
  | Invalid error => (s, Rejected error)
  | Valid =>
      let enrichedRequest :=
        {| request := r;
           received_at := now;
           request_id := generateRequestId now rnd;
           source_validated := true;
           priority := getPriority (r_source r) s |} in
      let queue := requestQueue s ++ [enrichedRequest] in
      ({| endpoints := endpoints s;
          requestQueue := queue;
          receivedCount := receivedCount s + 1 |},
       Accepted (request_id enrichedRequest) (Z.of_nat (length queue)))
  end.

(** [priorityOrder = { high: 3, medium: 2, low: 1 }] *)
Definition priorityOrder (p : Priority) : Z :=
  match p with
  | high => 3
  | medium => 2
  | low => 1
  end.

(** The comparator [(a, b) => priorityOrder[b.priority] -
    priorityOrder[a.priority]]. *)
Definition by_priority (a b : EnrichedRequest) : Z :=
  priorityOrder (priority b) - priorityOrder (priority a).

(** [getNextRequest()]: sorts the queue in place, then shifts. *)
Definition getNextRequest (s : MintReceiver)
    : MintReceiver * option EnrichedRequest :=
  match requestQueue s with
  | [] => (s, None)
  | _ :: _ =>
      match js_sort by_priority (requestQueue s) with
      | [] => ({| endpoints := endpoints s; requestQueue := [];
                  receivedCount := receivedCount s |}, None)
      | next :: rest =>
          ({| endpoints := endpoints s; requestQueue := rest;
              receivedCount := receivedCount s |}, Some next)
      end
  end.

Definition with_priority (p : Priority) (queue : list EnrichedRequest)
    : list EnrichedRequest :=
  filter (fun r => priority r = p) queue.

Record QueueStats := mkQueueStats {
  queue_length : Z;
  by_priority_high : Z;
  by_priority_medium : Z;
  by_priority_low : Z;
  total_received : Z
}.

(** [getQueueStats()] *)
Definition getQueueStats (s : MintReceiver) : QueueStats :=
  {| queue_length := Z.of_nat (length (requestQueue s));
     by_priority_high := Z.of_nat (length (with_priority high (requestQueue s)));
     by_priority_medium :=
       Z.of_nat (length (with_priority medium (requestQueue s)));
     by_priority_low := Z.of_nat (length (with_priority low (requestQueue s)));
     total_received := receivedCount s |}.

(** [clearQueue()] *)
Definition clearQueue (s : MintReceiver) : MintReceiver * Z :=
  ({| endpoints := endpoints s; requestQueue := [];
      receivedCount := receivedCount s |},
   Z.of_nat (length (requestQueue s))).

(** The calls a client can make, and the state after a sequence of them. *)
Inductive Call :=
| CallReceiveRequest (now : Z) (rnd : string) (r : Request)
| CallGetNextRequest
| CallClearQueue.

Definition call (c : Call) (s : MintReceiver) : MintReceiver :=
  match c with
  | CallReceiveRequest now rnd r => fst (receiveRequest now rnd r s)
  | CallGetNextRequest => fst (getNextRequest s)
  | CallClearQueue => fst (clearQueue s)
  end.

Definition run (cs : list Call) (s : MintReceiver) : MintReceiver :=
  foldl (fun s c => call c s) s cs.

(** What [validateRequest] checked of a queued request. *)
Definition validated (s : MintReceiver) (e : EnrichedRequest) : Prop :=
  source_validated e = true /\
  (exists source endpoint,
     Ledger.truthy_string (r_source (request e)) = Some source /\
     find_endpoint source s = Some endpoint /\
     e_source endpoint = source /\
     priority e = default medium (e_priority endpoint)) /\
  Ledger.truthy_string (r_owner (request e)) <> None /\
  (Ledger.truthy_string (r_trigger (request e)) <> None \/
   Ledger.truthy_string (r_type (request e)) <> None).

(** The number of requests a sequence of calls hands out or clears. *)
Fixpoint removed_by (cs : list Call) (s : MintReceiver) : Z :=
  match cs with
  | [] => 0
  | c :: cs' =>
      (match c with
       | CallReceiveRequest _ _ _ => 0
       | CallGetNextRequest =>
           match snd (getNextRequest s) with Some _ => 1 | None => 0 end
       | CallClearQueue => snd (clearQueue s)
       end) + removed_by cs' (call c s)
  end.

(** Sample data: three endpoints and five requests, two of them from the
    high-priority source. *)
Definition sample_endpoints : list Endpoint :=
  [ {| e_source := "dash-hub"; e_priority := Some low |};
    {| e_source := "banksy"; e_priority := Some high |};
    {| e_source := "commerce"; e_priority := None |} ].

Definition sample_request (source owner : string) : Request :=
  {| r_source := Some source; r_trigger := Some "purchase";
     r_type := None; r_owner := Some owner; r_amount := Some 1;
     r_metadata := ∅ |}.

Definition sample_calls : list Call :=
  [ CallReceiveRequest 1 "r1" (sample_request "dash-hub" "alice");
    CallReceiveRequest 2 "r2" (sample_request "commerce" "bob");
    CallReceiveRequest 3 "r3" (sample_request "banksy" "carol");
    CallReceiveRequest 4 "r4" (sample_request "nowhere" "dave");
    CallReceiveRequest 5 "r5" (sample_request "banksy" "erin");
    CallReceiveRequest 6 "r6" (sample_request "dash-hub" "") ].

End Receiver.

(** ** MultiLocationWriter: redundant storage *)

Module Writer.

(** What a storage implementation adds to its receipt. *)
Inductive Detail :=
| NoDetail
| BlockDetail (block_hash : string) (immutable : bool)
| CommitDetail (commit_hash : string)
| LearningDetail (learning_pattern : string)
| OwnerDetail (owner : string)
| ValueDetail (value : Z).

Record StorageReceipt := mkStorageReceipt {
  location : string;
  r_timestamp : Z;
  r_backup_id : string;
  detail : Detail;
  stored : bool
}.

(** What [writeToAllLocations] keeps of a write. *)
Inductive LocationResult :=
| Written (timestamp : Z) (backup_id : string)
| Failed (error : string).

Record WriteResults := mkWriteResults {
  token_id : string;
  timestamp : Z;
  locations : gmap string LocationResult;
  success_count : Z;
  failure_count : Z
}.

Record MultiLocationWriter := mkMultiLocationWriter {
  storageLocations : list string;
  writeLog : list WriteResults
}.

Definition constructor (storage_locations : list string)
    : MultiLocationWriter :=
  {| storageLocations := storage_locations; writeLog := [] |}.

Definition receipt (loc : string) (now : Z) (prefix : string) (d : Detail)
    : StorageReceipt :=
  {| location := loc; r_timestamp := now;
     r_backup_id := prefix +:+ js_string_of_int now;
     detail := d; stored := true |}.

(** [generateBlockHash(token)] and [generateCommitHash(token)]; [rnd] is the
    suffix drawn from [Math.random]. *)
Definition generateBlockHash (now : Z) (rnd : string) : string :=
  "0x" +:+ js_hex now +:+ rnd.

Definition generateCommitHash (now : Z) (rnd : string) : string :=
  js_base36 now +:+ rnd.

(** The storage locations [writeToLocation] has a case for. *)
Definition known_locations : list string :=
  [ "local_mint_database"; "dash_hub_records"; "blockchain_backup";
    "git_commit_history"; "mongoose_learning_data"; "user_wallet";
    "pricing_engine_catalog"; "documentation_system" ].

(** [writeToLocation(location, token)] *)
Definition writeToLocation (now : Z) (rnd : string) (loc : string)
    (token : Ledger.Token) : Ledger.result StorageReceipt :=
  if bool_decide (loc = "local_mint_database") then
    Ledger.Ok (receipt loc now "DB_" NoDetail)
  else if bool_decide (loc = "dash_hub_records") then
    Ledger.Ok (receipt loc now "DASH_" NoDetail)
  else if bool_decide (loc = "blockchain_backup") then
    Ledger.Ok (receipt loc now "BLOCK_"
                 (BlockDetail (generateBlockHash now rnd) true))
  else if bool_decide (loc = "git_commit_history") then
    Ledger.Ok (receipt loc now "GIT_"
                 (CommitDetail (generateCommitHash now rnd)))
  else if bool_decide (loc = "mongoose_learning_data") then
    Ledger.Ok (receipt loc now "MONGOOSE_" (LearningDetail "token_minting"))
  else if bool_decide (loc = "user_wallet") then
    Ledger.Ok (receipt loc now ("WALLET_" +:+ Ledger.t_owner token +:+ "_")
                 (OwnerDetail (Ledger.t_owner token)))
  else if bool_decide (loc = "pricing_engine_catalog") then
    Ledger.Ok (receipt loc now "PRICE_" (ValueDetail (Ledger.t_value token)))
  else if bool_decide (loc = "documentation_system") then
    Ledger.Ok (receipt loc now "DOC_" NoDetail)
  else
    Ledger.Throw ("Unknown storage location: " +:+ loc).

(** The body of the loop of [writeToAllLocations]. *)
Definition write_one (now : Z) (rnd : string) (token : Ledger.Token)
    (writeResults : WriteResults) (loc : string) : WriteResults :=
  match writeToLocation now rnd loc token with
  | Ledger.Ok result =>
      {| token_id := token_id writeResults;
         timestamp := timestamp writeResults;
         locations :=
           <[loc := Written (r_timestamp result) (r_backup_id result)]>
             (locations writeResults);
         success_count := success_count writeResults + 1;
         failure_count := failure_count writeResults |}
  | Ledger.Throw message =>
      {| token_id := token_id writeResults;
         timestamp := timestamp writeResults;
         locations := <[loc := Failed message]> (locations writeResults);
         success_count := success_count writeResults;
         failure_count := failure_count writeResults + 1 |}
  end.

(** [writeToAllLocations(token)] *)
Definition writeToAllLocations (now : Z) (rnd : string)
    (token : Ledger.Token) (s : MultiLocationWriter)
    : MultiLocationWriter * WriteResults :=
  let writeResults :=
    foldl (write_one now rnd token)
          {| token_id := Ledger.id token; timestamp := now; locations := ∅;
             success_count := 0; failure_count := 0 |}
          (storageLocations s) in
  let log := writeLog s ++ [writeResults] in
  ({| storageLocations := storageLocations s;
      writeLog := if 1000 <? Z.of_nat (length log)
                  then js_slice log (-1000) None else log |},
   writeResults).

(** [w.locations[location]?.success] *)
Definition location_success (w : WriteResults) (loc : string) : bool :=
  match locations w !! loc with
  | Some (Written _ _) => true
  | _ => false
  end.

(** [checkLocationForToken(location, tokenId)] *)
Definition checkLocationForToken (loc tokenId : string)
    (s : MultiLocationWriter) : bool :=
  let writes :=
    filter (fun w => token_id w = tokenId /\ location_success w loc = true)
           (writeLog s) in
  0 <? Z.of_nat (length writes).

Record Verification := mkVerification {
  v_token_id : string;
  verified_locations : list string;
  missing_locations : list string
}.

(** [verifyRedundancy(tokenId)] *)
Definition verifyRedundancy (tokenId : string) (s : MultiLocationWriter)
    : Verification :=
  foldl (fun verification loc =>
           if checkLocationForToken loc tokenId s then
             {| v_token_id := v_token_id verification;
                verified_locations := verified_locations verification ++ [loc];
                missing_locations := missing_locations verification |}
           else
             {| v_token_id := v_token_id verification;
                verified_locations := verified_locations verification;
                missing_locations := missing_locations verification ++ [loc] |})
        {| v_token_id := tokenId; verified_locations := [];
           missing_locations := [] |}
        (storageLocations s).

Record WriteStats := mkWriteStats {
  total_writes : Z;
  n_locations : Z;
  recent_writes : list WriteResults
}.

(** [getWriteStats()] *)
Definition getWriteStats (s : MultiLocationWriter) : WriteStats :=
  {| total_writes := Z.of_nat (length (writeLog s));
     n_locations := Z.of_nat (length (storageLocations s));
     recent_writes := js_slice (writeLog s) (-10) None |}.

(** The writer after a sequence of [writeToAllLocations] calls. *)
Definition run (writes : list (Z * string * Ledger.Token))
    (s : MultiLocationWriter) : MultiLocationWriter :=
  foldl (fun s '(now, rnd, token) => fst (writeToAllLocations now rnd token s))
        s writes.

Definition known (loc : string) : bool :=
  bool_decide (loc ∈ known_locations).

Definition sample_locations : list string :=
  [ "local_mint_database"; "blockchain_backup"; "moon_base"; "user_wallet" ].

End Writer.

(** ** BackupSystem: backup and recovery *)

Module Backup.

Inductive BackupType := full | incremental.

(** [backup.data], with what tells the two kinds of backup apart.  A full
    backup holds the export of the ledger and the write statistics.  An
    incremental backup holds [ledger.slice(sinceIndex)]: a new array of the
    ledger's own entry objects, kept here as their positions in the
    ledger. *)
Inductive BackupData :=
| FullData (ledger : Ledger.Export) (write_stats : Writer.WriteStats)
| IncrementalData (since_index : Z) (entries : list nat).

Record Backup := mkBackup {
  backup_id : string;
  timestamp : Z;
  data : BackupData;
  size : Z;
  compressed : bool
}.

(** [backup.type] *)
Definition type (b : Backup) : BackupType :=
  match data b with
  | FullData _ _ => full
  | IncrementalData _ _ => incremental
  end.

Record BackupSystem := mkBackupSystem {
  backups : list Backup;
  autoBackupInterval : option Z
}.

Definition constructor : BackupSystem :=
  {| backups := []; autoBackupInterval := None |}.

Definition generateBackupId (now : Z) (rnd : string) : string :=
  "BACKUP_" +:+ js_string_of_int now +:+ "_" +:+ rnd.

Section Stringify.
(** [JSON.stringify(backup.data).length], for the data as the ledger stands
    when the backup is made. *)
Variable stringify_length : BackupData -> Ledger.ImmutableLedger -> Z.

(** [createFullBackup()] *)
Definition createFullBackup (now : Z) (rnd : string)
    (L : Ledger.ImmutableLedger) (W : Writer.MultiLocationWriter)
    (s : BackupSystem) : BackupSystem * Backup :=
  let d := FullData (Ledger.exportLedger now L) (Writer.getWriteStats W) in
  let backup := {| backup_id := generateBackupId now rnd;
                   timestamp := now;
                   data := d;
                   size := stringify_length d L;
                   compressed := false |} in
  let all := backups s ++ [backup] in
  ({| backups := if 50 <? Z.of_nat (length all)
                 then js_slice all (-50) None else all;
      autoBackupInterval := autoBackupInterval s |},
   backup).

(** [createIncrementalBackup(sinceIndex = 0)] *)
Definition createIncrementalBackup (now : Z) (rnd : string)
    (sinceIndex : option Z) (L : Ledger.ImmutableLedger) (s : BackupSystem)
    : BackupSystem * Backup :=
  let since := default 0 sinceIndex in
  let newEntries :=
    js_slice (seq 0 (length (Ledger.ledger L))) since None in
  let d := IncrementalData since newEntries in
  let backup := {| backup_id := generateBackupId now rnd;
                   timestamp := now;
                   data := d;
                   size := stringify_length d L;
                   compressed := false |} in
  ({| backups := backups s ++ [backup];
      autoBackupInterval := autoBackupInterval s |},
   backup).
End Stringify.

(** [this.backups.find(b => b.backup_id === backupId)] *)
Definition find_backup (backupId : string) (s : BackupSystem)
    : option Backup :=
  snd <$> list_find (fun b => backup_id b = backupId) (backups s).

(** The number of entries a backup holds, read when the ledger is [L]:
    [data.ledger.ledger.length] of a full backup, [data.entries.length] of
    an incremental one. *)
Definition entries_of (b : Backup) (L : Ledger.ImmutableLedger) : Z :=
  match data b with
  | FullData x _ => Z.of_nat (length (Ledger.export_ledger x L))
  | IncrementalData _ entries => Z.of_nat (length entries)
  end.

Record Restored := mkRestored {
  success : bool;
  r_backup_id : string;
  r_type : BackupType;
  entries_restored : Z;
  message : string
}.

(** [restoreFromBackup(backupId)], called when the ledger is [L]. *)
Definition restoreFromBackup (backupId : string)
    (L : Ledger.ImmutableLedger) (s : BackupSystem)
    : Ledger.result Restored :=
  match find_backup backupId s with
  | None => Ledger.Throw ("Backup not found: " +:+ backupId)
  | Some backup =>
      match type backup with
      | full =>
          Ledger.Ok {| success := true; r_backup_id := backupId;
                       r_type := full;
                       entries_restored := entries_of backup L;
                       message := "Full backup restored" |}
      | incremental =>
          Ledger.Ok {| success := true; r_backup_id := backupId;
                       r_type := incremental;
                       entries_restored := entries_of backup L;
                       message := "Incremental backup restored" |}
      end
  end.

Inductive Verified :=
| NotValid (error : string)
| IsValid (backup_id : string) (type : BackupType) (size : Z) (timestamp : Z).

(** [verifyBackup(backupId)]; a backup always has its data. *)
Definition verifyBackup (backupId : string) (s : BackupSystem) : Verified :=
  match find_backup backupId s with
  | None => NotValid "Backup not found"
  | Some backup =>
      IsValid backupId (type backup) (size backup) (timestamp backup)
  end.

Record Listed := mkListed {
  l_backup_id : string;
  l_timestamp : Z;
  l_type : BackupType;
  l_size : Z;
  l_entries : Z
}.

(** [listBackups()], called when the ledger is [L]. *)
Definition listBackups (L : Ledger.ImmutableLedger) (s : BackupSystem)
    : list Listed :=
  map (fun b => {| l_backup_id := backup_id b; l_timestamp := timestamp b;
                   l_type := type b; l_size := size b;
                   l_entries := entries_of b L |})
      (backups s).

(** [cleanOldBackups(keepLast = 10)] *)
Definition cleanOldBackups (keepLast : option Z) (s : BackupSystem)
    : BackupSystem * Z :=
  let keep := default 10 keepLast in
  let removed := Z.of_nat (length (backups s)) - keep in
  if 0 <? removed then
    ({| backups := js_slice (backups s) (- keep) None;
        autoBackupInterval := autoBackupInterval s |}, removed)
  else (s, 0).

(** Sample data: the length of the data's text stands in as the number of
    ledger entries; five incremental backups. *)
Definition sample_stringify_length (d : BackupData)
    (L : Ledger.ImmutableLedger) : Z :=
  Z.of_nat (length (Ledger.ledger L)).

Definition sample_system : BackupSystem :=
  foldl (fun s k =>
           fst (createIncrementalBackup sample_stringify_length k "a1b2c3"
                  None Ledger.ledger_of_5 s))
        constructor (seqZ 1 5).

End Backup.
(** * Properties *)

(** ** Array helpers *)

Section JsArrayFacts.
Context {A : Type}.
Implicit Types l older recent : list A.

(** [l.slice(-k)] is the suffix of the last [k] elements. *)
Lemma js_slice_suffix l older recent (k : Z) :
  l = older ++ recent ->
  Z.of_nat (length recent) = k ->
  0 < k ->
  js_slice l (- k) None = recent.
Proof.
  intros -> Hk Hpos. unfold js_slice, js_rel_index.
  rewrite length_app.
  destruct (Z.ltb_spec (- k) 0) as [_|?]; [|lia].
  replace (Z.to_nat (Z.max (Z.of_nat (length older + length recent) + - k) 0))
    with (length older) by lia.
  rewrite drop_app_length.
  apply take_ge. lia.
Qed.

Lemma js_splice0_spec l (n : Z) :
  0 <= n <= Z.of_nat (length l) ->
  js_splice0 l n = (take (Z.to_nat n) l, drop (Z.to_nat n) l).
Proof.
  intros Hn. unfold js_splice0.
  by replace (Z.min (Z.max n 0) (Z.of_nat (length l))) with n by lia.
Qed.

Lemma js_slice_range_length l (a b : Z) :
  0 <= a <= b -> b <= Z.of_nat (length l) ->
  Z.of_nat (length (js_slice l a (Some b))) = b - a.
Proof.
  intros Hab Hb. unfold js_slice, js_rel_index.
  destruct (Z.ltb_spec a 0); [lia|]. destruct (Z.ltb_spec b 0); [lia|].
  rewrite length_take, length_drop. lia.
Qed.

Lemma js_slice_fmap {B} (f : A -> B) l (a : Z) (b : option Z) :
  f <$> js_slice l a b = js_slice (f <$> l) a b.
Proof.
  unfold js_slice. by rewrite fmap_take, fmap_drop, length_fmap.
Qed.

End JsArrayFacts.

(** ** The admission controller *)

Module CapacitorFacts.
Import Capacitor.

Lemma canMint_true s : canMint s = true <-> (threshold s <= charge s)%Q.
Proof. apply Qle_bool_iff. Qed.

Lemma canMint_false s : canMint s = false <-> (charge s < threshold s)%Q.
Proof.
  unfold canMint. split.
  - intros Hb. apply Qnot_le_lt. intros Hle.
    apply Qle_bool_iff in Hle. congruence.
  - intros Hlt. destruct (Qle_bool (threshold s) (charge s)) eqn:Hb; [|done].
    apply Qle_bool_iff in Hb. apply Qlt_not_le in Hlt. contradiction.
Qed.

Lemma call_rates c s : rates_nonneg s -> rates_nonneg (call c s).
Proof.
  unfold rates_nonneg.
  destruct c; simpl; try done.
  unfold attemptMint. by destruct (negb (canMint s)).
Qed.

Lemma clamp_above_in_range (m c a : Q) :
  (0 <= c <= m)%Q -> (0 <= a)%Q ->
  (0 <= Qmin m (c + a) /\ Qmin m (c + a) <= m)%Q.
Proof.
  intros [H0 Hm] Ha. split.
  - apply Q.min_glb; lra.
  - apply Q.le_min_l.
Qed.

Lemma clamp_below_in_range (m c a : Q) :
  (0 <= c <= m)%Q -> (0 <= a)%Q ->
  (0 <= Qmax 0 (c - a) /\ Qmax 0 (c - a) <= m)%Q.
Proof.
  intros [H0 Hm] Ha. split.
  - apply Q.le_max_l.
  - apply Q.max_lub; lra.
Qed.

Lemma call_in_range c s :
  rates_nonneg s -> nonneg_args c -> in_range s -> in_range (call c s).
Proof.
  intros [Hcr Hdr] Hc Hs. unfold in_range in *.
  destruct c as [now ty i|a|r|now|]; simpl in *.
  - apply clamp_above_in_range; [done|].
    by apply Qmult_le_0_compat.
  - by apply clamp_above_in_range.
  - by apply clamp_below_in_range.
  - unfold attemptMint. destruct (negb (canMint s)); simpl; [done|].
    by apply clamp_below_in_range.
  - split; lra.
Qed.

Lemma states_after_in_range cs : forall s,
  rates_nonneg s -> in_range s -> Forall nonneg_args cs ->
  Forall in_range (states_after cs s).
Proof.
  induction cs as [|c cs IH]; intros s Hr Hs Hcs; simpl.
  - constructor.
  - inversion Hcs as [|? ? Hc Hcs']; subst.
    constructor.
    + by apply call_in_range.
    + apply IH; [by apply call_rates|by apply call_in_range|done].
Qed.

Lemma constructor_in_range cfg : in_range (constructor cfg).
Proof. unfold in_range; simpl. lra. Qed.

Lemma constructor_rates cfg : rates_nonneg (constructor cfg).
Proof. unfold rates_nonneg; simpl. lra. Qed.

(** C3, as stated, fails: [boost] only clamps from above, so a negative
    amount takes the charge of a fresh controller below zero. *)
Lemma boost_negative_leaves_range :
  let s := call (CallBoost (-5)) (constructor None) in
  (charge s == -5)%Q /\
  ~ Forall in_range (states_after [CallBoost (-5)] (constructor None)).
Proof.
  split; [reflexivity|].
  intros H. inversion H as [|? ? [Hlo _] _]; subst.
  revert Hlo. simpl. unfold Qmin, GenericMinMax.gmin. simpl.
  intros Hlo. lra.
Qed.

(** C3, amended: from a fresh controller, after every call of a sequence of
    [registerActivity], [boost], [applyDecay], [attemptMint] and [reset]
    calls whose numeric arguments are all non-negative,
    [0 <= charge <= maxCharge]. *)
Theorem charge_in_range_after_every_call cfg cs :
  Forall nonneg_args cs ->
  Forall in_range (states_after cs (constructor cfg)).
Proof.
  intros Hcs. apply states_after_in_range; [|by apply constructor_in_range|done].
  apply constructor_rates.
Qed.

Lemma charge_in_range_after_every_call_witness :
  Forall nonneg_args sample_calls /\
  Forall in_range (states_after sample_calls (constructor None)).
Proof.
  assert (Hargs : Forall nonneg_args sample_calls)
    by (repeat constructor; simpl; lra).
  split; [exact Hargs|].
  exact (charge_in_range_after_every_call None sample_calls Hargs).
Defined.

(** C4: [attemptMint] succeeds exactly when [charge >= threshold]; a success
    lowers the charge by [dischargeRate], floored at 0, and records the time
    of the call; a rejection reports [needed = threshold - charge].  From a
    fresh controller with threshold 100, [registerActivity('click', 100)]
    makes [canMint()] true and the next [attemptMint] leaves charge 80. *)
Theorem attemptMint_succeeds_iff_charged now s :
  let s' := fst (attemptMint now s) in
  let r := snd (attemptMint now s) in
  (succeeded r = true <-> (threshold s <= charge s)%Q) /\
  (succeeded r = true ->
     charge s' = Qmax 0 (charge s - dischargeRate s)%Q /\
     (0 <= charge s')%Q /\
     lastMintTime s' = Some now /\
     r = MintSuccess (charge s') now) /\
  (succeeded r = false ->
     r = MintRejected "Insufficient capacitor charge" (charge s) (threshold s)
           (threshold s - charge s)%Q) /\
  (forall t1 t2 cfg,
     config_threshold cfg = 100%Q ->
     let s0 := constructor cfg in
     let s1 := fst (registerActivity t1 "click" (Some 100%Q) s0) in
     dischargeRate s0 = 20%Q /\
     rr_can_mint (snd (registerActivity t1 "click" (Some 100%Q) s0)) = true /\
     canMint s1 = true /\
     charge (fst (attemptMint t2 s1)) = 80%Q /\
     snd (attemptMint t2 s1) = MintSuccess 80%Q t2).
Proof.
  assert (Hscenario : forall t1 t2 cfg,
     config_threshold cfg = 100%Q ->
     let s0 := constructor cfg in
     let s1 := fst (registerActivity t1 "click" (Some 100%Q) s0) in
     dischargeRate s0 = 20%Q /\
     rr_can_mint (snd (registerActivity t1 "click" (Some 100%Q) s0)) = true /\
     canMint s1 = true /\
     charge (fst (attemptMint t2 s1)) = 80%Q /\
     snd (attemptMint t2 s1) = MintSuccess 80%Q t2).
  { intros t1 t2 cfg Hcfg. unfold constructor. rewrite Hcfg. by vm_compute. }
  simpl. unfold attemptMint.
  destruct (canMint s) eqn:Hc; simpl.
  - apply canMint_true in Hc. repeat split; try done.
    + apply Q.le_max_l.
    + by apply Hscenario.
    + by apply Hscenario.
    + by apply Hscenario.
    + by apply Hscenario.
  - apply canMint_false in Hc. repeat split; try done.
    + intros Hle. apply Qlt_not_le in Hc. contradiction.
    + by apply Hscenario.
    + by apply Hscenario.
    + by apply Hscenario.
    + by apply Hscenario.
Qed.

Lemma attemptMint_succeeds_iff_charged_witness :
  let s1 := fst (registerActivity 1 "click" (Some 100%Q) (constructor None)) in
  succeeded (snd (attemptMint 2 s1)) = true /\
  charge (fst (attemptMint 2 s1)) = 80%Q /\
  lastMintTime (fst (attemptMint 2 s1)) = Some 2 /\
  succeeded (snd (attemptMint 3 (constructor None))) = false /\
  snd (attemptMint 3 (constructor None))
    = MintRejected "Insufficient capacitor charge" 0%Q 100%Q (100 - 0)%Q.
Proof.
  set (s1 := fst (registerActivity 1 "click" (Some 100%Q) (constructor None))).
  pose proof (attemptMint_succeeds_iff_charged 2 s1) as (Hiff & Hok & _ & Hsc).
  pose proof (attemptMint_succeeds_iff_charged 3 (constructor None))
    as (_ & _ & Hrej & _).
  assert (Hs : succeeded (snd (attemptMint 2 s1)) = true)
    by (apply Hiff; vm_compute; discriminate).
  destruct (Hok Hs) as (_ & _ & Ht & _).
  destruct (Hsc 1 2 None eq_refl) as (_ & _ & _ & H80 & _).
  assert (Hf : succeeded (snd (attemptMint 3 (constructor None))) = false)
    by reflexivity.
  exact (conj Hs (conj H80 (conj Ht (conj Hf (Hrej Hf))))).
Defined.

(** C10: a rejected [attemptMint] (charge below the threshold) returns the
    controller as it was: charge, threshold, [lastMintTime] and the activity
    log are those of before the call. *)
Theorem rejected_attemptMint_keeps_state now s :
  (charge s < threshold s)%Q ->
  fst (attemptMint now s) = s /\
  succeeded (snd (attemptMint now s)) = false.
Proof.
  intros Hlt. apply canMint_false in Hlt.
  unfold attemptMint. by rewrite Hlt.
Qed.

Lemma rejected_attemptMint_keeps_state_witness :
  (charge (constructor None) < threshold (constructor None))%Q /\
  fst (attemptMint 7 (constructor None)) = constructor None /\
  succeeded (snd (attemptMint 7 (constructor None))) = false.
Proof.
  assert (Hlt : (charge (constructor None) < threshold (constructor None))%Q)
    by reflexivity.
  exact (conj Hlt (rejected_attemptMint_keeps_state 7 (constructor None) Hlt)).
Defined.

Lemma every_same_true types t0 :
  head types = Some t0 ->
  every_same types = true <-> (forall t, t ∈ types -> t = t0).
Proof.
  destruct types as [|t1 types]; [done|]. intros [= ->].
  unfold every_same. rewrite forallb_forall. split.
  - intros H t Ht. apply list_elem_of_In in Ht.
    apply H in Ht. by apply bool_decide_eq_true in Ht.
  - intros H t Ht. apply bool_decide_eq_true, H. by apply list_elem_of_In.
Qed.

(** C9, as stated, fails on its scenario: ten events of one kind at 0, 100,
    ..., 900 ms lie within a 2-second window, and the rapid-fire rule, which
    is checked first, reports them. *)
Lemma identical_clicks_report_rapid_fire :
  let s := run (clicks 100) (constructor None) in
  map a_type (activityLog s) = replicate 10 "click" /\
  map a_timestamp (activityLog s)
    = [0; 100; 200; 300; 400; 500; 600; 700; 800; 900] /\
  pattern (detectAbuse s) = Some "rapid_fire" /\
  pattern (detectAbuse s) <> Some "repetitive".
Proof. by vm_compute. Qed.

(** C9, amended: with fewer than 10 events recorded [detectAbuse] reports no
    abuse; otherwise it looks at the last 10 events: a span under 1000 ms
    between the first and the last of them is [rapid_fire]; failing that,
    all 10 being of one kind is [repetitive]; failing that, no abuse.  So 10
    events of one kind report [repetitive] when their span is at least
    1000 ms, and [rapid_fire] when it is shorter. *)
Theorem detectAbuse_rules s :
  (Z.of_nat (length (activityLog s)) < 10 -> detectAbuse s = NoAbuse) /\
  (forall older recent first newest,
     activityLog s = older ++ recent ->
     length recent = 10%nat ->
     head recent = Some first ->
     last recent = Some newest ->
     let span := a_timestamp newest - a_timestamp first in
     (span < 1000 -> detectAbuse s = RapidFire "throttle" 5000) /\
     (1000 <= span ->
      (forall a, a ∈ recent -> a_type a = a_type first) ->
      detectAbuse s = Repetitive "require_variety" "Vary activity types") /\
     (1000 <= span ->
      (exists a, a ∈ recent /\ a_type a <> a_type first) ->
      detectAbuse s = NoAbuse)).
Proof.
  split.
  - intros Hlen. unfold detectAbuse.
    by destruct (Z.ltb_spec (Z.of_nat (length (activityLog s))) 10); [|lia].
  - intros older recent first newest Hlog Hlen Hfirst Hnewest span.
    assert (Hslice : js_slice (activityLog s) (-10) None = recent).
    { apply (js_slice_suffix _ older recent 10); [done|lia|lia]. }
    assert (Hbig : (Z.of_nat (length (activityLog s)) <? 10) = false).
    { apply Z.ltb_ge. rewrite Hlog, length_app. lia. }
    assert (Hspan : default 0 (last (map a_timestamp recent))
                    - default 0 (head (map a_timestamp recent)) = span).
    { change (map a_timestamp recent) with (a_timestamp <$> recent).
      rewrite fmap_last, Hnewest. simpl.
      destruct recent; [done|]. simpl in *. by inversion Hfirst. }
    assert (Hsame : every_same (map a_type recent) = true
                    <-> forall a, a ∈ recent -> a_type a = a_type first).
    { rewrite (every_same_true _ (a_type first)).
      - split.
        + intros H a Ha. apply H. apply list_elem_of_fmap. eauto.
        + intros H t Ht. apply list_elem_of_fmap in Ht as (a & -> & Ha). auto.
      - destruct recent; [done|]. simpl in *. by inversion Hfirst. }
    unfold detectAbuse. rewrite Hbig, Hslice, Hspan, length_map, Hlen.
    repeat split.
    + intros Hlt. by destruct (Z.ltb_spec span 1000); [|lia].
    + intros Hge Hall. destruct (Z.ltb_spec span 1000); [lia|].
      apply Hsame in Hall. by rewrite Hall.
    + intros Hge (a & Ha & Hne). destruct (Z.ltb_spec span 1000); [lia|].
      destruct (every_same (map a_type recent)) eqn:He; [|done].
      exfalso. apply Hne. by apply Hsame.
Qed.

Lemma detectAbuse_rules_witness :
  let s := run (clicks 200) (constructor None) in
  exists first newest,
    head (activityLog s) = Some first /\
    last (activityLog s) = Some newest /\
    1000 <= a_timestamp newest - a_timestamp first <= 2000 /\
    (forall a, a ∈ activityLog s -> a_type a = a_type first) /\
    detectAbuse s = Repetitive "require_variety" "Vary activity types".
Proof.
  set (s := run (clicks 200) (constructor None)).
  destruct (head (activityLog s)) as [first|] eqn:Hfirst; [|by vm_compute in Hfirst].
  destruct (last (activityLog s)) as [newest|] eqn:Hnewest; [|by vm_compute in Hnewest].
  exists first, newest.
  assert (Hspan : 1000 <= a_timestamp newest - a_timestamp first <= 2000).
  { vm_compute in Hfirst, Hnewest.
    injection Hfirst as <-. injection Hnewest as <-. simpl. lia. }
  assert (Hall : forall a, a ∈ activityLog s -> a_type a = a_type first).
  { vm_compute in Hfirst. injection Hfirst as <-.
    intros a Ha. vm_compute in Ha.
    repeat (apply elem_of_cons in Ha as [->|Ha]; [reflexivity|]).
    by apply elem_of_nil in Ha. }
  destruct (detectAbuse_rules s) as [_ Hrules].
  destruct (Hrules [] (activityLog s) first newest eq_refl eq_refl Hfirst Hnewest)
    as (_ & Hrep & _).
  exact (conj Hfirst (conj Hnewest (conj Hspan (conj Hall
           (Hrep (proj1 Hspan) Hall))))).
Defined.

End CapacitorFacts.

(** ** The ledger *)

Module LedgerFacts.
Import Ledger.

Lemma mark_sealed_idemp rid e :
  mark_sealed rid (mark_sealed rid e) = mark_sealed rid e.
Proof. reflexivity. Qed.

(** The sealing loop over any list of indices. *)
Lemma seal_fold_lookup rid (idx : list Z) : forall (l : list Entry) (j : nat),
  Forall (fun i => 0 <= i) idx ->
  foldl (fun l i => alter (mark_sealed rid) (Z.to_nat i) l) l idx !! j
  = if bool_decide (Z.of_nat j ∈ idx) then mark_sealed rid <$> l !! j
    else l !! j.
Proof.
  induction idx as [|i idx IH]; intros l j Hpos.
  - done.
  - cbn [foldl]. inversion Hpos as [|? ? Hi Hidx]; subst.
    rewrite IH by done. rewrite list_lookup_alter.
    destruct (decide (Z.to_nat i = j)) as [<-|Hne].
    + assert (Z.of_nat (Z.to_nat i) ∈ i :: idx) as Hhere.
      { rewrite Z2Nat.id by done. apply elem_of_cons; by left. }
      repeat case_bool_decide; try done.
      destruct (l !! Z.to_nat i); [|done]. simpl. by rewrite mark_sealed_idemp.
    + assert (Z.of_nat j ∈ i :: idx <-> Z.of_nat j ∈ idx) as Hiff.
      { rewrite elem_of_cons. split; [|by right]. intros [Heq|?]; [|done]. lia. }
      repeat case_bool_decide; try done; tauto.
Qed.

Lemma seal_loop_lookup rid (a b : Z) (l : list Entry) (j : nat) :
  0 <= a ->
  seal_loop rid a b l !! j
  = if bool_decide (a <= Z.of_nat j < b) then mark_sealed rid <$> l !! j
    else l !! j.
Proof.
  intros Ha. unfold seal_loop. rewrite seal_fold_lookup.
  - assert (Z.of_nat j ∈ seqZ a (b - a) <-> a <= Z.of_nat j < b) as Hiff.
    { rewrite elem_of_seqZ. lia. }
    repeat case_bool_decide; try done; tauto.
  - apply Forall_seqZ. lia.
Qed.

Lemma seal_loop_length rid (a b : Z) (l : list Entry) :
  length (seal_loop rid a b l) = length l.
Proof.
  unfold seal_loop. generalize (seqZ a (b - a)) as idx. intros idx. revert l.
  induction idx as [|i idx IH]; intros l; simpl; [done|].
  by rewrite IH, length_alter.
Qed.

Lemma seal_loop_hashes rid (a b : Z) (l : list Entry) :
  0 <= a -> map hash (seal_loop rid a b l) = map hash l.
Proof.
  intros Ha. apply list_eq. intros j.
  change (map hash ?x) with (hash <$> x).
  rewrite !list_lookup_fmap, seal_loop_lookup by done.
  case_bool_decide; [|done]. by destruct (l !! j).
Qed.

Lemma expected_previous_hashes l l' i :
  map hash l = map hash l' -> expected_previous l i = expected_previous l' i.
Proof.
  intros H. destruct i as [|j]; [done|]. simpl.
  change (map hash ?x) with (hash <$> x) in H.
  by rewrite <- !list_lookup_fmap, H.
Qed.

Lemma chain_ok_push l e :
  chain_ok l ->
  index e = Z.of_nat (length l) ->
  previous_hash e = match last l with Some p => hash p | None => "0" end ->
  chain_ok (l ++ [e]).
Proof.
  intros Hl Hidx Hprev i e' Hi.
  destruct (decide (i < length l)%nat) as [Hlt|Hge].
  - rewrite lookup_app_l in Hi by done.
    destruct (Hl i e' Hi) as [? Hp]. split; [done|].
    rewrite Hp. destruct i as [|j]; [done|]. simpl.
    by rewrite lookup_app_l by lia.
  - apply lookup_lt_Some in Hi as Hlen. rewrite length_app in Hlen. simpl in Hlen.
    assert (i = length l) as -> by lia.
    rewrite list_lookup_middle in Hi by done. injection Hi as <-.
    split; [done|]. rewrite Hprev.
    destruct l as [|x l'] using rev_ind; [done|].
    rewrite last_snoc, length_app. simpl.
    replace (length l' + 1)%nat with (S (length l')) by lia. simpl.
    rewrite lookup_app_l by (rewrite length_app; simpl; lia).
    by rewrite list_lookup_middle.
Qed.

Lemma chain_ok_seal rid (a b : Z) l :
  0 <= a -> chain_ok l -> chain_ok (seal_loop rid a b l).
Proof.
  intros Ha Hl i e Hi.
  rewrite (expected_previous_hashes _ l) by by apply seal_loop_hashes.
  rewrite seal_loop_lookup in Hi by done.
  case_bool_decide.
  - destruct (l !! i) as [e0|] eqn:He0; [|done]. injection Hi as <-.
    simpl. by apply Hl.
  - by apply Hl.
Qed.

Lemma addToken_Ok now token L L' e :
  addToken now token L = Ok (L', e) ->
  t_immutable token = true /\
  let L1 := {| ledger := ledger L ++ [new_entry now token L];
               merkleRoots := merkleRoots L;
               l_sealed := l_sealed L |} in
  L' = (if Z.of_nat (length (ledger L1)) mod 100 =? 0
        then fst (createMerkleRoot now L1) else L1).
Proof.
  unfold addToken. destruct (t_immutable token); simpl; [|done].
  intros [= <- _]. done.
Qed.

Lemma addToken_immutable now token L :
  t_immutable token = true -> exists L' e, addToken now token L = Ok (L', e).
Proof. intros H. unfold addToken. rewrite H. simpl. eauto. Qed.

Lemma addToken_chain_ok now token L L' e :
  addToken now token L = Ok (L', e) ->
  chain_ok (ledger L) ->
  chain_ok (ledger L') /\
  map hash (ledger L') = map hash (ledger L) ++ [calculateHash token].
Proof.
  intros Hadd Hl. apply addToken_Ok in Hadd as [_ ->]. cbn zeta.
  assert (chain_ok (ledger L ++ [new_entry now token L])) as Hpush
    by by apply chain_ok_push.
  destruct (_ =? 0); simpl.
  - split; [apply chain_ok_seal; [lia|done]|].
    rewrite seal_loop_hashes by lia. by rewrite map_app.
  - split; [done|]. by rewrite map_app.
Qed.

Lemma createMerkleRoot_full now L (q : nat) :
  length (ledger L) = (100 * q + 100)%nat ->
  let L' := fst (createMerkleRoot now L) in
  let r := snd (createMerkleRoot now L) in
  merkleRoots L' = merkleRoots L ++ [r] /\
  batch_start r = 100 * Z.of_nat q /\
  batch_end r = 100 * Z.of_nat q + 99 /\
  batch_size r = 100 /\
  length (ledger L') = length (ledger L) /\
  forall i : nat,
    ledger L' !! i
    = if bool_decide (100 * q <= i)%nat
      then mark_sealed (root_id r) <$> ledger L !! i
      else ledger L !! i.
Proof.
  intros Hlen. simpl. rewrite Hlen.
  replace (Z.max 0 (Z.of_nat (100 * q + 100) - 100)) with (100 * Z.of_nat q) by lia.
  repeat split; try lia.
  - rewrite js_slice_range_length; lia.
  - by rewrite seal_loop_length.
  - intros i. rewrite seal_loop_lookup by lia.
    destruct (decide (i < length (ledger L))%nat) as [Hi|Hi].
    + repeat case_bool_decide; try done; lia.
    + rewrite (lookup_ge_None_2 (ledger L) i) by lia.
      by repeat case_bool_decide.
Qed.

Lemma addToken_seals_ok now token L L' e :
  addToken now token L = Ok (L', e) ->
  seals_ok L -> seals_ok L'.
Proof.
  intros Hadd (Hroots & Hranges & Hentries).
  apply addToken_Ok in Hadd as [_ ->]. cbn zeta.
  set (n := length (ledger L)) in *.
  set (entry := new_entry now token L).
  set (L1 := {| ledger := ledger L ++ [entry]; merkleRoots := merkleRoots L;
                l_sealed := l_sealed L |}).
  assert (Hn1 : length (ledger L1) = (n + 1)%nat)
    by (simpl; rewrite length_app; simpl; lia).
  assert (Hnew : sealed entry = false /\ merkle_root entry = None) by done.
  clearbody entry.
  destruct (Z.eqb_spec (Z.of_nat (length (ledger L1)) mod 100) 0) as [Hmod|Hmod];
    rewrite Hn1 in Hmod.
  - (* the append completes a range: it is sealed under a new root *)
    set (q := (n / 100)%nat) in *.
    assert (Hq : length (ledger L1) = (100 * q + 100)%nat) by (rewrite Hn1; subst q; lia).
    pose proof (createMerkleRoot_full now L1 q Hq) as Hfull. cbv zeta in Hfull.
    destruct (createMerkleRoot now L1) as [L2 r].
    cbn [fst snd] in Hfull |- *.
    destruct Hfull as (Hr & Hstart & Hend & Hsize & Hlen & Hlook).
    change (merkleRoots L1) with (merkleRoots L) in Hr.
    assert (Hdiv : ((n + 1) / 100 = q + 1)%nat) by (subst q; lia).
    unfold seals_ok. rewrite Hlen, Hr, Hn1, Hdiv. split; [|split].
    + rewrite length_app. simpl. lia.
    + intros k r' Hk.
      destruct (decide (k < length (merkleRoots L))%nat) as [Hlt|Hge].
      * rewrite lookup_app_l in Hk by done. by apply Hranges.
      * apply lookup_lt_Some in Hk as Hklen.
        rewrite length_app in Hklen. simpl in Hklen.
        assert (k = length (merkleRoots L)) as -> by lia.
        rewrite list_lookup_middle in Hk by done. injection Hk as <-.
        rewrite Hroots. done.
    + intros i e' Hi. rewrite Hlook in Hi.
      assert (Hilen : (i < n + 1)%nat).
      { destruct (decide (i < n + 1)%nat); [done|].
        rewrite (lookup_ge_None_2 (ledger L1) i) in Hi by lia.
        by case_bool_decide. }
      rewrite (bool_decide_eq_true_2 (i < 100 * (q + 1))%nat) by lia.
      case_bool_decide as Hrange.
      * destruct (ledger L1 !! i) as [e0|]; [|done]. injection Hi as <-.
        split; [done|]. cbn [merkle_root mark_sealed].
        assert ((i / 100)%nat = length (merkleRoots L)) as ->
          by (rewrite Hroots; subst q; lia).
        by rewrite list_lookup_middle.
      * change (ledger L1) with (ledger L ++ [entry]) in Hi.
        rewrite lookup_app_l in Hi by (fold n; lia).
        destruct (Hentries i e' Hi) as [Hs Hm]. split.
        -- rewrite Hs. apply bool_decide_eq_true_2. lia.
        -- rewrite Hm. rewrite lookup_app_l; [done|]. rewrite Hroots. subst q. lia.
  - (* no range is completed: the new entry stays unsealed *)
    unfold seals_ok. rewrite Hn1. simpl merkleRoots.
    assert (Hdiv : ((n + 1) / 100 = n / 100)%nat) by lia.
    rewrite Hdiv. split; [done|]. split; [done|].
    intros i e' Hi. simpl in Hi.
    destruct (decide (i < n)%nat) as [Hlt|Hge].
    + rewrite lookup_app_l in Hi by done. by apply Hentries.
    + apply lookup_lt_Some in Hi as Hilen. rewrite length_app in Hilen.
      simpl in Hilen. assert (i = n) as -> by lia.
      subst n. rewrite list_lookup_middle in Hi by done. injection Hi as <-.
      destruct Hnew as [-> ->]. split.
      * symmetry. apply bool_decide_eq_false_2. lia.
      * symmetry. rewrite lookup_ge_None_2; [done|]. lia.
Qed.

Lemma appendAll_invariants inputs : forall L L',
  appendAll inputs L = Ok L' ->
  chain_ok (ledger L) -> seals_ok L ->
  chain_ok (ledger L') /\ seals_ok L' /\
  map hash (ledger L')
  = map hash (ledger L) ++ map (fun p => calculateHash (snd p)) inputs.
Proof.
  induction inputs as [|[now token] inputs IH]; intros L L' Hrun Hc Hs.
  - injection Hrun as <-. by rewrite app_nil_r.
  - cbn [appendAll] in Hrun.
    destruct (addToken now token L) as [[L1 e]|m] eqn:Hadd; [|done].
    destruct (addToken_chain_ok _ _ _ _ _ Hadd Hc) as [Hc1 Hh1].
    pose proof (addToken_seals_ok _ _ _ _ _ Hadd Hs) as Hs1.
    destruct (IH L1 L' Hrun Hc1 Hs1) as (Hc' & Hs' & Hh').
    split; [done|]. split; [done|].
    rewrite Hh', Hh1. cbn [map snd]. by rewrite <- app_assoc.
Qed.

Lemma appendAll_immutable inputs : forall L,
  Forall (fun p => t_immutable (snd p) = true) inputs ->
  exists L', appendAll inputs L = Ok L'.
Proof.
  induction inputs as [|[now token] inputs IH]; intros L Himm.
  - by exists L.
  - inversion Himm as [|? ? Htok Hrest]; subst. cbn [appendAll].
    destruct (addToken_immutable now token L Htok) as (L1 & e & ->).
    by apply IH.
Qed.

Lemma constructor_chain_ok : chain_ok (ledger constructor).
Proof. intros i e Hi. done. Qed.

Lemma constructor_seals_ok : seals_ok constructor.
Proof.
  split; [done|]. split; intros ? ? Hk; done.
Qed.

(** C1: in a ledger built by successful appends the entry at position [i]
    has [index = i], the first entry has [previous_hash = '0'] and every
    later entry has the [hash] of the entry before it as [previous_hash];
    the hashes are those of the appended tokens, in order. *)
Theorem appended_entries_are_chained inputs L :
  appendAll inputs constructor = Ok L ->
  length (ledger L) = length inputs /\
  map hash (ledger L) = map (fun p => calculateHash (snd p)) inputs /\
  map index (ledger L) = seqZ 0 (Z.of_nat (length inputs)) /\
  (forall e, ledger L !! 0%nat = Some e -> previous_hash e = "0") /\
  (forall (i : nat) e p,
     ledger L !! S i = Some e -> ledger L !! i = Some p ->
     previous_hash e = hash p /\ index e = index p + 1).
Proof.
  intros Hrun.
  destruct (appendAll_invariants inputs constructor L Hrun
              constructor_chain_ok constructor_seals_ok) as (Hc & _ & Hh).
  simpl in Hh.
  assert (Hlen : length (ledger L) = length inputs).
  { apply (f_equal length) in Hh. by rewrite !length_map in Hh. }
  split; [done|]. split; [done|]. split; [|split].
  - apply list_eq. intros i.
    change (map index ?x) with (index <$> x). rewrite list_lookup_fmap.
    destruct (ledger L !! i) as [e|] eqn:He.
    + destruct (Hc i e He) as [Hidx _]. simpl. rewrite Hidx. symmetry.
      apply lookup_seqZ. apply lookup_lt_Some in He. lia.
    + simpl. symmetry. apply lookup_seqZ_ge.
      apply lookup_ge_None in He. lia.
  - intros e He. destruct (Hc 0%nat e He) as [_ Hp]. by injection Hp.
  - intros i e p He Hp. destruct (Hc (S i) e He) as [Hi Hprev].
    destruct (Hc i p Hp) as [Hi' _].
    simpl in Hprev. rewrite Hp in Hprev. injection Hprev as ->.
    split; [done|]. lia.
Qed.

Lemma verify_step_cases l r i :
  match broken_link l i with
  | Some err =>
      verify_step l r i
      = {| valid := false; total_entries := total_entries r;
           verified_entries := verified_entries r;
           errors := errors r ++ [err] |}
  | None =>
      valid (verify_step l r i) = valid r /\
      errors (verify_step l r i) = errors r /\
      total_entries (verify_step l r i) = total_entries r /\
      (1 <= i < Z.of_nat (length l) ->
       verified_entries (verify_step l r i) = verified_entries r + 1)
  end.
Proof.
  unfold broken_link, verify_step.
  destruct (l !! Z.to_nat i) as [current|] eqn:Hc.
  - destruct (l !! Z.to_nat (i - 1)) as [previous|] eqn:Hp.
    + by case_bool_decide.
    + repeat split. intros Hi. apply lookup_ge_None in Hp. lia.
  - repeat split. intros Hi. apply lookup_ge_None in Hc. lia.
Qed.

Lemma verify_fold l (idx : list Z) : forall r,
  let r' := foldl (verify_step l) r idx in
  errors r' = errors r ++ omap (broken_link l) idx /\
  valid r' = valid r && bool_decide (omap (broken_link l) idx = []) /\
  total_entries r' = total_entries r /\
  (Forall (fun i => 1 <= i < Z.of_nat (length l)) idx ->
   verified_entries r' + Z.of_nat (length (errors r'))
   = verified_entries r + Z.of_nat (length (errors r)) + Z.of_nat (length idx)).
Proof.
  induction idx as [|i idx IH]; intros r; cbn [foldl omap list_omap].
  - cbn zeta. rewrite app_nil_r, andb_true_r. repeat split. simpl. lia.
  - specialize (IH (verify_step l r i)). cbn zeta in IH |- *.
    pose proof (verify_step_cases l r i) as Hstep.
    destruct (broken_link l i) as [err|] eqn:Hb.
    + rewrite Hstep in IH |- *. destruct IH as (He & Hv & Ht & Hn).
      cbn [errors valid total_entries verified_entries] in *.
      split; [|split; [|split]].
      * by rewrite He, <- app_assoc.
      * rewrite Hv. cbn [andb].
        rewrite (bool_decide_eq_false_2 (err :: _ = [])) by done.
        by rewrite andb_false_r.
      * done.
      * intros Hidx. inversion Hidx as [|? ? Hi Hidx']; subst.
        rewrite Hn by done. rewrite length_app. simpl. lia.
    + destruct IH as (He & Hv & Ht & Hn).
      destruct Hstep as (Hv1 & He1 & Ht1 & Hn1).
      split; [|split; [|split]].
      * by rewrite He, He1.
      * by rewrite Hv, Hv1.
      * by rewrite Ht, Ht1.
      * intros Hidx. inversion Hidx as [|? ? Hi Hidx']; subst.
        rewrite Hn by done. rewrite Hn1, He1 by done. simpl. lia.
Qed.

Lemma broken_link_Some l (i : Z) err :
  1 <= i ->
  broken_link l i = Some err <->
  exists (j : nat) cur prev,
    i = Z.of_nat (S j) /\
    l !! S j = Some cur /\ l !! j = Some prev /\
    previous_hash cur <> hash prev /\
    err = {| ie_index := Z.of_nat (S j); ie_error := "Hash chain broken";
             expected := hash prev; actual := previous_hash cur |}.
Proof.
  intros Hi. unfold broken_link.
  assert (Z.to_nat i = S (Z.to_nat (i - 1))) as Hsucc by lia.
  split.
  - destruct (l !! Z.to_nat i) as [cur|] eqn:Hc; [|done].
    destruct (l !! Z.to_nat (i - 1)) as [prev|] eqn:Hp; [|done].
    case_bool_decide as Hne; [|done]. intros [= <-].
    exists (Z.to_nat (i - 1)), cur, prev.
    rewrite <- Hsucc, Z2Nat.id by lia. done.
  - intros (j & cur & prev & -> & Hc & Hp & Hne & ->).
    rewrite Nat2Z.id.
    replace (Z.to_nat (Z.of_nat (S j) - 1)) with j by lia.
    rewrite Hc, Hp. by rewrite bool_decide_eq_true_2.
Qed.

Lemma broken_link_indices l (idx : list Z) :
  map ie_index (omap (broken_link l) idx) `sublist_of` idx.
Proof.
  induction idx as [|i idx IH]; [constructor|].
  cbn [omap list_omap].
  destruct (broken_link l i) as [err|] eqn:Hb.
  - assert (ie_index err = i) as Hi.
    { unfold broken_link in Hb.
      destruct (l !! Z.to_nat i); [|done].
      destruct (l !! Z.to_nat (i - 1)); [|done].
      case_bool_decide; [|done]. by injection Hb as <-. }
    cbn [map]. rewrite Hi. by constructor.
  - by constructor.
Qed.

(** C2: [verifyIntegrity] reports [valid] exactly when every entry after the
    first has the hash of the entry before it as [previous_hash]; its error
    list holds one record for each broken link, all of them, in index order,
    with the index, the expected and the actual hash; links after a broken
    one are still checked, and every link is either counted as verified or
    reported. *)
Theorem verifyIntegrity_reports_every_broken_link L :
  let r := verifyIntegrity L in
  let l := ledger L in
  (valid r = true <->
   forall (i : nat) cur prev,
     l !! S i = Some cur -> l !! i = Some prev ->
     previous_hash cur = hash prev) /\
  (forall err,
     err ∈ errors r <->
     exists (i : nat) cur prev,
       l !! S i = Some cur /\ l !! i = Some prev /\
       previous_hash cur <> hash prev /\
       err = {| ie_index := Z.of_nat (S i); ie_error := "Hash chain broken";
                expected := hash prev; actual := previous_hash cur |}) /\
  map ie_index (errors r) `sublist_of` seqZ 1 (Z.of_nat (length l) - 1) /\
  total_entries r = Z.of_nat (length l) /\
  verified_entries r + Z.of_nat (length (errors r))
  = Z.max 0 (Z.of_nat (length l) - 1).
Proof.
  cbn zeta. unfold verifyIntegrity.
  set (l := ledger L). set (n := Z.of_nat (length l)).
  destruct (verify_fold l (seqZ 1 (n - 1))
              {| valid := true; total_entries := n; verified_entries := 0;
                 errors := [] |}) as (He & Hv & Ht & Hn).
  cbn [errors valid total_entries verified_entries app andb] in He, Hv, Ht, Hn.
  assert (Hmem : forall err,
    err ∈ omap (broken_link l) (seqZ 1 (n - 1)) <->
    exists (i : nat) cur prev,
      l !! S i = Some cur /\ l !! i = Some prev /\
      previous_hash cur <> hash prev /\
      err = {| ie_index := Z.of_nat (S i); ie_error := "Hash chain broken";
               expected := hash prev; actual := previous_hash cur |}).
  { intros err. rewrite list_elem_of_omap. split.
    - intros (i & Hi & Hb). apply elem_of_seqZ in Hi.
      apply broken_link_Some in Hb as (j & cur & prev & _ & ?); [|lia].
      by exists j, cur, prev.
    - intros (j & cur & prev & Hc & Hp & Hne & ->).
      exists (Z.of_nat (S j)). split.
      + apply elem_of_seqZ. apply lookup_lt_Some in Hc. subst n. lia.
      + apply broken_link_Some; [lia|]. by exists j, cur, prev. }
  rewrite He, Hv, Ht. split; [|split; [|split; [|split]]].
  - rewrite bool_decide_eq_true. split.
    + intros Hnil i cur prev Hc Hp.
      destruct (decide (previous_hash cur = hash prev)) as [|Hne]; [done|].
      exfalso. eapply (not_elem_of_nil (A:=IntegrityError)).
      rewrite <- Hnil. apply Hmem. by exists i, cur, prev.
    + intros Hall.
      destruct (omap (broken_link l) (seqZ 1 (n - 1))) as [|err errs] eqn:Ho;
        [done|]. exfalso.
      assert (err ∈ err :: errs) as Hin by (apply elem_of_cons; by left).
      apply Hmem in Hin as (i & cur & prev & Hc & Hp & Hne & _).
      apply Hne. by eapply Hall.
  - exact Hmem.
  - apply broken_link_indices.
  - done.
  - rewrite <- He, Hn.
    + rewrite length_seqZ. simpl. lia.
    + apply Forall_seqZ. lia.
Qed.

Lemma sample_inputs_immutable n :
  Forall (fun p => t_immutable (snd p) = true) (sample_inputs n).
Proof.
  unfold sample_inputs. change (map ?f ?l) with (f <$> l).
  apply Forall_fmap. by apply Forall_true.
Qed.

Lemma appended_entries_are_chained_witness :
  exists L,
    appendAll (sample_inputs 3) constructor = Ok L /\
    map index (ledger L) = [0; 1; 2] /\
    (forall e, ledger L !! 0%nat = Some e -> previous_hash e = "0") /\
    (forall (i : nat) e p,
       ledger L !! S i = Some e -> ledger L !! i = Some p ->
       previous_hash e = hash p /\ index e = index p + 1).
Proof.
  destruct (appendAll (sample_inputs 3) constructor) as [L|m] eqn:Hrun;
    [|by vm_compute in Hrun].
  exists L.
  destruct (appended_entries_are_chained (sample_inputs 3) L Hrun)
    as (_ & _ & Hidx & H0 & Hlink).
  exact (conj eq_refl (conj Hidx (conj H0 Hlink))).
Defined.

(** C5: 250 appends of immutable tokens succeed and leave exactly two Merkle
    roots, for the ranges [0, 99] and [100, 199]; every entry below 200 is
    sealed and carries the id of the root of its range; the entries 200 to
    249 are unsealed and carry no root id. *)
Theorem two_roots_after_250_appends inputs :
  length inputs = 250%nat ->
  Forall (fun p => t_immutable (snd p) = true) inputs ->
  exists L r0 r1,
    appendAll inputs constructor = Ok L /\
    length (ledger L) = 250%nat /\
    merkleRoots L = [r0; r1] /\
    range_of r0 = (0, 99) /\ range_of r1 = (100, 199) /\
    batch_size r0 = 100 /\ batch_size r1 = 100 /\
    (forall i : nat, (i < 100)%nat ->
       exists e, ledger L !! i = Some e /\ index e = Z.of_nat i /\
                 sealed e = true /\ merkle_root e = Some (root_id r0)) /\
    (forall i : nat, (100 <= i < 200)%nat ->
       exists e, ledger L !! i = Some e /\ index e = Z.of_nat i /\
                 sealed e = true /\ merkle_root e = Some (root_id r1)) /\
    (forall i : nat, (200 <= i < 250)%nat ->
       exists e, ledger L !! i = Some e /\ index e = Z.of_nat i /\
                 sealed e = false /\ merkle_root e = None).
Proof.
  intros Hlen Himm.
  destruct (appendAll_immutable inputs constructor Himm) as [L Hrun].
  destruct (appendAll_invariants inputs constructor L Hrun
              constructor_chain_ok constructor_seals_ok)
    as (Hc & (Hroots & Hranges & Hentries) & Hh).
  assert (Hn : length (ledger L) = 250%nat).
  { apply (f_equal length) in Hh. simpl in Hh.
    rewrite !length_map in Hh. lia. }
  rewrite Hn in Hroots, Hentries.
  change (250 / 100)%nat with 2%nat in Hroots, Hentries.
  destruct (merkleRoots L) as [|r0 [|r1 [|r2 rs]]] eqn:Hmr; try done.
  destruct (Hranges 0%nat r0 eq_refl) as (Hs0 & He0 & Hz0).
  destruct (Hranges 1%nat r1 eq_refl) as (Hs1 & He1 & Hz1).
  exists L, r0, r1. unfold range_of. rewrite Hs0, He0, Hs1, He1.
  assert (Hentry : forall i : nat, (i < 250)%nat ->
            exists e, ledger L !! i = Some e /\ index e = Z.of_nat i /\
              sealed e = bool_decide (i < 100 * 2)%nat /\
              merkle_root e = root_id <$> [r0; r1] !! (i / 100)%nat).
  { intros i Hi. destruct (lookup_lt_is_Some_2 (ledger L) i) as [e He]; [lia|].
    exists e. destruct (Hc i e He) as [Hidx _].
    destruct (Hentries i e He) as [Hs Hm]. done. }
  repeat split; try done.
  - intros i Hi. destruct (Hentry i) as (e & He & Hidx & Hs & Hm); [lia|].
    exists e. rewrite Hs, Hm. replace (i / 100)%nat with 0%nat by lia.
    rewrite bool_decide_eq_true_2 by lia. done.
  - intros i Hi. destruct (Hentry i) as (e & He & Hidx & Hs & Hm); [lia|].
    exists e. rewrite Hs, Hm. replace (i / 100)%nat with 1%nat by lia.
    rewrite bool_decide_eq_true_2 by lia. done.
  - intros i Hi. destruct (Hentry i) as (e & He & Hidx & Hs & Hm); [lia|].
    exists e. rewrite Hs, Hm. replace (i / 100)%nat with 2%nat by lia.
    rewrite bool_decide_eq_false_2 by lia. done.
Qed.

Lemma two_roots_after_250_appends_witness :
  length (sample_inputs 250) = 250%nat /\
  Forall (fun p => t_immutable (snd p) = true) (sample_inputs 250) /\
  exists L r0 r1,
    appendAll (sample_inputs 250) constructor = Ok L /\
    merkleRoots L = [r0; r1] /\
    range_of r0 = (0, 99) /\ range_of r1 = (100, 199).
Proof.
  assert (Hlen : length (sample_inputs 250) = 250%nat) by reflexivity.
  pose proof (sample_inputs_immutable 250) as Himm.
  destruct (two_roots_after_250_appends (sample_inputs 250) Hlen Himm)
    as (L & r0 & r1 & Hrun & _ & Hmr & Hr0 & Hr1 & _).
  split; [exact Hlen|]. split; [exact Himm|].
  exists L, r0, r1. exact (conj Hrun (conj Hmr (conj Hr0 Hr1))).
Defined.

(** C6, as stated, fails: [createMerkleRoot] checks nothing before it pushes
    a root.  After 100 appends the range [0, 99] has its root; a further call
    at the same ledger length pushes a second root for the same range. *)
Lemma second_seal_pushes_second_root :
  appendAll (sample_inputs 100) constructor = Ok ledger_of_100 /\
  map range_of (merkleRoots ledger_of_100) = [(0, 99)] /\
  let L2 := fst (createMerkleRoot 100 ledger_of_100) in
  length (ledger L2) = length (ledger ledger_of_100) /\
  map range_of (merkleRoots L2) = [(0, 99); (0, 99)].
Proof. by vm_compute. Qed.

Lemma calculateBatchHash_hashes b1 b2 :
  map hash b1 = map hash b2 -> calculateBatchHash b1 = calculateBatchHash b2.
Proof. unfold calculateBatchHash. by intros ->. Qed.

(** The entries after [createMerkleRoot]: the last up-to-100 carry the seal of
    the new root, every other entry is as it was. *)
Lemma createMerkleRoot_lookup now L (i : nat) :
  let n := Z.of_nat (length (ledger L)) in
  ledger (fst (createMerkleRoot now L)) !! i
  = if bool_decide (n - 100 <= Z.of_nat i)
    then mark_sealed (root_id (snd (createMerkleRoot now L))) <$> ledger L !! i
    else ledger L !! i.
Proof.
  cbn zeta. cbn [createMerkleRoot fst snd ledger root_id].
  rewrite seal_loop_lookup by lia.
  destruct (decide (i < length (ledger L))%nat) as [Hi|Hi].
  - repeat case_bool_decide; try done; lia.
  - rewrite (lookup_ge_None_2 (ledger L) i) by lia.
    by repeat case_bool_decide.
Qed.

(** The batch [createMerkleRoot] hashes: the last up-to-100 entries. *)
Lemma createMerkleRoot_batch (l : list Entry) :
  let n := Z.of_nat (length l) in
  js_slice l (Z.max 0 (n - 100)) (Some n) = drop (Z.to_nat (n - 100)) l.
Proof.
  cbn zeta. unfold js_slice, js_rel_index.
  destruct (Z.ltb_spec (Z.max 0 (Z.of_nat (length l) - 100)) 0); [lia|].
  destruct (Z.ltb_spec (Z.of_nat (length l)) 0); [lia|].
  rewrite (Z.min_l (Z.max _ _)) by lia. rewrite Z.min_id.
  replace (Z.to_nat (Z.max 0 (Z.of_nat (length l) - 100)))
    with (Z.to_nat (Z.of_nat (length l) - 100)) by lia.
  apply take_ge. rewrite length_drop. lia.
Qed.

(** C6, amended: [createMerkleRoot] is not idempotent.  Every call pushes
    one root for the last up-to-100 entries, so two calls at one ledger
    length leave two roots with the same range and the same root hash; the
    entries stay in place, and the covered ones stay sealed, now under the
    id of the newer root.  [addToken] calls it once for each multiple of
    100 the ledger reaches, so a ledger built by appends alone has exactly
    one root for every complete range [100k, 100k + 99], and no two of its
    roots cover the same range. *)
Theorem createMerkleRoot_pushes_one_root_per_call :
  (forall t1 t2 L,
     let n := Z.of_nat (length (ledger L)) in
     let L1 := fst (createMerkleRoot t1 L) in
     let r1 := snd (createMerkleRoot t1 L) in
     let L2 := fst (createMerkleRoot t2 L1) in
     let r2 := snd (createMerkleRoot t2 L1) in
     merkleRoots L2 = merkleRoots L ++ [r1; r2] /\
     range_of r1 = (Z.max 0 (n - 100), n - 1) /\
     batch_size r1 = Z.min n 100 /\
     root_hash r1
     = calculateBatchHash (drop (Z.to_nat (n - 100)) (ledger L)) /\
     range_of r2 = range_of r1 /\
     batch_size r2 = batch_size r1 /\
     root_hash r2 = root_hash r1 /\
     length (ledger L2) = length (ledger L) /\
     (forall (i : nat) e,
        ledger L !! i = Some e ->
        ledger L1 !! i
        = Some (if bool_decide (n - 100 <= Z.of_nat i)
                then mark_sealed (root_id r1) e else e) /\
        ledger L2 !! i
        = Some (if bool_decide (n - 100 <= Z.of_nat i)
                then mark_sealed (root_id r2) e else e))) /\
  (forall inputs L,
     appendAll inputs constructor = Ok L ->
     length (merkleRoots L) = (length inputs / 100)%nat /\
     (forall (k : nat) r, merkleRoots L !! k = Some r ->
        range_of r = (100 * Z.of_nat k, 100 * Z.of_nat k + 99)) /\
     (forall (j k : nat) rj rk,
        merkleRoots L !! j = Some rj -> merkleRoots L !! k = Some rk ->
        range_of rj = range_of rk -> j = k)).
Proof.
  split.
  - intros t1 t2 L. cbn zeta.
    assert (Hlen : length (ledger (fst (createMerkleRoot t1 L)))
                   = length (ledger L)) by apply seal_loop_length.
    assert (Hh : map hash (ledger (fst (createMerkleRoot t1 L)))
                 = map hash (ledger L)) by (apply seal_loop_hashes; lia).
    split; [|split; [|split; [|split; [|split; [|split; [|split; [|split]]]]]]].
    + simpl. by rewrite <- app_assoc.
    + done.
    + cbn [createMerkleRoot snd batch_size].
      rewrite js_slice_range_length; lia.
    + cbn [createMerkleRoot snd root_hash].
      by rewrite createMerkleRoot_batch.
    + unfold range_of. cbn [createMerkleRoot snd batch_start batch_end].
      by rewrite Hlen.
    + cbn [createMerkleRoot snd batch_size]. rewrite Hlen.
      rewrite <- !(length_fmap hash), !js_slice_fmap.
      change (hash <$> ?x) with (map hash x). by rewrite Hh.
    + cbn [createMerkleRoot snd root_hash]. rewrite Hlen.
      apply calculateBatchHash_hashes.
      change (map hash ?x) with (hash <$> x). rewrite !js_slice_fmap.
      change (hash <$> ?x) with (map hash x). by rewrite Hh.
    + rewrite <- Hlen. apply seal_loop_length.
    + intros i e He.
      assert (H1 : ledger (fst (createMerkleRoot t1 L)) !! i
                   = Some (if bool_decide
                                (Z.of_nat (length (ledger L)) - 100
                                 <= Z.of_nat i)
                           then mark_sealed
                                  (root_id (snd (createMerkleRoot t1 L))) e
                           else e)).
      { rewrite createMerkleRoot_lookup. cbn zeta. rewrite He.
        by case_bool_decide. }
      split; [exact H1|].
      rewrite createMerkleRoot_lookup. cbn zeta. rewrite Hlen, H1.
      by repeat case_bool_decide.
  - intros inputs L Hrun.
    destruct (appendAll_invariants inputs constructor L Hrun
                constructor_chain_ok constructor_seals_ok)
      as (_ & (Hroots & Hranges & _) & Hh).
    assert (Hn : length (ledger L) = length inputs).
    { apply (f_equal length) in Hh. simpl in Hh.
      by rewrite !length_map in Hh. }
    rewrite Hn in Hroots.
    assert (Hrange : forall (k : nat) r, merkleRoots L !! k = Some r ->
              range_of r = (100 * Z.of_nat k, 100 * Z.of_nat k + 99)).
    { intros k r Hk. destruct (Hranges k r Hk) as (Hs & He & _).
      unfold range_of. by rewrite Hs, He. }
    split; [done|]. split; [done|].
    intros j k rj rk Hj Hk Heq.
    rewrite (Hrange j rj Hj), (Hrange k rk Hk) in Heq.
    injection Heq as Heq _. lia.
Qed.

Lemma createMerkleRoot_pushes_one_root_per_call_witness :
  appendAll (sample_inputs 100) constructor = Ok ledger_of_100 /\
  length (merkleRoots ledger_of_100) = 1%nat /\
  let L1 := fst (createMerkleRoot 100 ledger_of_100) in
  let L2 := fst (createMerkleRoot 101 L1) in
  length (merkleRoots L2) = 3%nat /\
  exists e e2,
    ledger ledger_of_100 !! 5%nat = Some e /\
    ledger L2 !! 5%nat = Some e2 /\
    sealed e2 = true /\ merkle_root e2 = Some "MERKLE_101" /\
    hash e2 = hash e.
Proof.
  assert (Hrun : appendAll (sample_inputs 100) constructor = Ok ledger_of_100)
    by (by vm_compute).
  assert (H5 : exists e, ledger ledger_of_100 !! 5%nat = Some e)
    by (vm_compute; eauto).
  destruct H5 as [e He].
  destruct createMerkleRoot_pushes_one_root_per_call as [Htwice Happend].
  destruct (Happend (sample_inputs 100) ledger_of_100 Hrun) as (Hlen & _).
  destruct (Htwice 100 101 ledger_of_100)
    as (Hroots & _ & _ & _ & _ & _ & _ & _ & Hentries).
  destruct (Hentries 5%nat e He) as [_ He2].
  split; [exact Hrun|]. split; [exact Hlen|].
  cbn zeta. split; [rewrite Hroots, length_app, Hlen; reflexivity|].
  exists e, (mark_sealed "MERKLE_101" e).
  split; [exact He|]. split; [|split; [reflexivity|split; reflexivity]].
  rewrite He2. rewrite bool_decide_eq_true_2 by (by vm_compute).
  reflexivity.
Defined.

Lemma verifyIntegrity_reports_every_broken_link_witness :
  valid (verifyIntegrity tampered_ledger) = false /\
  map ie_index (errors (verifyIntegrity tampered_ledger)) = [1; 3] /\
  map expected (errors (verifyIntegrity tampered_ledger))
  = ["0xforged"; "0xforged"] /\
  verified_entries (verifyIntegrity tampered_ledger) = 1 /\
  exists cur prev,
    ledger tampered_ledger !! 3%nat = Some cur /\
    ledger tampered_ledger !! 2%nat = Some prev /\
    {| ie_index := 3; ie_error := "Hash chain broken";
       expected := hash prev; actual := previous_hash cur |}
      ∈ errors (verifyIntegrity tampered_ledger).
Proof.
  destruct (verifyIntegrity_reports_every_broken_link tampered_ledger)
    as (_ & Hmem & _).
  split; [reflexivity|]. split; [reflexivity|]. split; [reflexivity|].
  split; [reflexivity|].
  destruct (ledger tampered_ledger !! 3%nat) as [cur|] eqn:Hc;
    [|by vm_compute in Hc].
  destruct (ledger tampered_ledger !! 2%nat) as [prev|] eqn:Hp;
    [|by vm_compute in Hp].
  exists cur, prev. split; [done|]. split; [done|].
  apply Hmem. exists 2%nat, cur, prev.
  split; [done|]. split; [done|]. split; [|done].
  vm_compute in Hc, Hp. injection Hc as <-. injection Hp as <-.
  by vm_compute.
Defined.

End LedgerFacts.

(** ** The batch queue *)

Module BatchFacts.
Import Batch.

Section ProcessorFacts.
Context {Token M F : Type} `{!Collaborators Token M F}.
Implicit Types (batch : list QueuedRequest) (w : M * F).
Implicit Types (os : list (Token + string)).
Implicit Types (bp : @BatchProcessor Token) (s : @System Token M F).

Lemma outcomes_length batch : forall w,
  length (outcomes batch w) = length batch.
Proof.
  induction batch as [|r rest IH]; intros w; simpl; [done|].
  destruct (try_mint r w) as [o w']. simpl. by rewrite IH.
Qed.

(** The loop leaves the successes and the failures of the outcomes, in
    order, after what the results already held. *)
Lemma process_items_outcomes batch : forall i (results : BatchResults) w,
  let r' := fst (process_items i batch results w) in
  tokens r' = tokens results ++ successes (outcomes batch w) /\
  errors r' = errors results ++ failures_from i batch (outcomes batch w) /\
  batch_id r' = batch_id results /\
  b_timestamp r' = b_timestamp results /\
  size r' = size results.
Proof.
  induction batch as [|r rest IH]; intros i results w; cbn zeta.
  - simpl. by rewrite !app_nil_r.
  - cbn [process_items outcomes].
    destruct (try_mint r w) as [o w'].
    specialize (IH (i + 1) (record_item i r o results) w'). cbn zeta in IH.
    destruct IH as (Ht & He & Hid & Hts & Hsz).
    rewrite Ht, He, Hid, Hts, Hsz.
    destruct o as [token|message]; simpl; by rewrite <- ?app_assoc.
Qed.

Lemma successes_failures_length batch : forall i os,
  length os = length batch ->
  (length (successes os) + length (failures_from i batch os))%nat
  = length batch.
Proof.
  induction batch as [|r rest IH]; intros i [|[token|message] os] Hlen;
    simpl in *; try done.
  - rewrite IH; lia.
  - rewrite <- (IH (i + 1) os) by lia. lia.
Qed.

Lemma failures_from_lookup batch : forall i os (k : nat) r message,
  batch !! k = Some r -> os !! k = Some (inr message) ->
  {| be_index := i + Z.of_nat k; be_request := r; be_error := message |}
    ∈ failures_from i batch os.
Proof.
  induction batch as [|r0 rest IH]; intros i os k r message Hr Ho; [done|].
  destruct os as [|o os]; [done|].
  destruct k as [|k]; simpl in Hr, Ho.
  - injection Hr as ->. injection Ho as ->. simpl.
    replace (i + Z.of_nat 0) with i by lia. apply elem_of_cons. by left.
  - pose proof (IH (i + 1) os k r message Hr Ho) as Hin.
    replace (i + 1 + Z.of_nat k) with (i + Z.of_nat (S k)) in Hin by lia.
    destruct o; simpl; [done|]. apply elem_of_cons. by right.
Qed.

Lemma successes_lookup os (k : nat) token :
  os !! k = Some (inl token) -> token ∈ successes os.
Proof.
  revert k. induction os as [|o os IH]; intros k Hk; [done|].
  destruct k as [|k]; simpl in Hk.
  - injection Hk as ->. simpl. apply elem_of_cons. by left.
  - destruct o; simpl; [apply elem_of_cons; right|]; by eapply IH.
Qed.

(** Outcomes with no failure. *)
Lemma all_succeed batch : forall i os,
  length os = length batch ->
  (forall (j : nat), (j < length os)%nat -> exists token, os !! j = Some (inl token)) ->
  length (successes os) = length os /\ failures_from i batch os = [].
Proof.
  induction batch as [|r rest IH]; intros i [|o os] Hlen Hall;
    simpl in *; try done.
  destruct (Hall 0%nat) as [token Ho]; [lia|]. injection Ho as ->.
  destruct (IH (i + 1) os) as [Hs Hf]; [lia| |].
  - intros j Hj. apply (Hall (S j)). lia.
  - simpl. by rewrite Hs, Hf.
Qed.

(** Outcomes with exactly one failure, at position [k]. *)
Lemma single_failure batch : forall i os (k : nat) r message,
  length os = length batch ->
  batch !! k = Some r -> os !! k = Some (inr message) ->
  (forall (j : nat), j <> k -> (j < length os)%nat ->
     exists token, os !! j = Some (inl token)) ->
  S (length (successes os)) = length os /\
  failures_from i batch os
  = [ {| be_index := i + Z.of_nat k; be_request := r; be_error := message |} ].
Proof.
  induction batch as [|r0 rest IH]; intros i os k r message Hlen Hr Ho Hall;
    [done|].
  destruct os as [|o os]; [done|]. simpl in Hlen.
  destruct k as [|k]; simpl in Hr, Ho.
  - injection Hr as ->. injection Ho as ->.
    destruct (all_succeed rest (i + 1) os) as [Hs Hf]; [lia| |].
    + intros j Hj. apply (Hall (S j)); [done|simpl; lia].
    + simpl. rewrite Hs, Hf. split; [done|].
      by replace (i + Z.of_nat 0) with i by lia.
  - destruct (Hall 0%nat) as [token Ho0]; [done|simpl; lia|].
    injection Ho0 as ->.
    destruct (IH (i + 1) os k r message) as [Hs Hf]; [lia|done|done| |].
    + intros j Hj Hlt. apply (Hall (S j)); [lia|simpl; lia].
    + simpl. rewrite Hf. split; [lia|].
      by replace (i + 1 + Z.of_nat k) with (i + Z.of_nat (S k)) by lia.
Qed.

Lemma processBatch_begin_drains now rnd (n : Z) bp :
  processing bp = false ->
  0 < n <= Z.of_nat (length (queue bp)) ->
  processBatch_begin now rnd (Some n) bp
  = ({| queue := drop (Z.to_nat n) (queue bp);
        processing := true;
        maxBatchSize := maxBatchSize bp;
        batchHistory := batchHistory bp |},
     inr {| job_i := 0;
            job_rest := take (Z.to_nat n) (queue bp);
            job_results := {| batch_id := generateBatchId now rnd;
                              b_timestamp := now;
                              size := n;
                              tokens := [];
                              errors := [] |} |}).
Proof.
  intros Hp Hn. unfold processBatch_begin. rewrite Hp.
  destruct (Z.eqb_spec n 0) as [|_]; [lia|].
  replace (Z.min n (Z.of_nat (length (queue bp)))) with n by lia.
  destruct (Z.eqb_spec n 0) as [|_]; [lia|].
  by rewrite js_splice0_spec by lia.
Qed.

(** C7: a batch of [n] queued requests is processed front to back, every
    item on the state its predecessors left in the collaborators.  An item
    whose minting fails is recorded with its index, its request and the
    error message, and the loop goes on: the tokens are the successes in
    order, the errors the failures in order, and together they account for
    all [n] items.  When exactly one item fails, at index [k], the result has
    [n - 1] tokens and the one error, so a batch of 10 out of 12 queued
    requests with a single failing item yields 9 tokens and 1 error and
    leaves 2 requests queued. *)
Theorem processBatch_isolates_item_failures now rnd (n : Z) bp w :
  processing bp = false ->
  0 < n <= Z.of_nat (length (queue bp)) ->
  let batch := take (Z.to_nat n) (queue bp) in
  let os := outcomes batch w in
  exists bp' w' results,
    processBatch now rnd (Some n) bp w = (bp', w', ReplyResults results) /\
    queue bp' = drop (Z.to_nat n) (queue bp) /\
    Z.of_nat (length (queue bp')) = Z.of_nat (length (queue bp)) - n /\
    processing bp' = false /\
    size results = n /\
    tokens results = successes os /\
    errors results = failures_from 0 batch os /\
    Z.of_nat (length (tokens results)) + Z.of_nat (length (errors results)) = n /\
    (forall (k : nat) token,
       os !! k = Some (inl token) -> token ∈ tokens results) /\
    (forall (k : nat) r message,
       batch !! k = Some r -> os !! k = Some (inr message) ->
       {| be_index := Z.of_nat k; be_request := r; be_error := message |}
         ∈ errors results) /\
    (forall (k : nat) r message,
       batch !! k = Some r -> os !! k = Some (inr message) ->
       (forall j : nat, j <> k -> (Z.of_nat j < n) ->
          exists token, os !! j = Some (inl token)) ->
       Z.of_nat (length (tokens results)) = n - 1 /\
       errors results
       = [ {| be_index := Z.of_nat k; be_request := r;
              be_error := message |} ]).
Proof.
  intros Hp Hn batch os.
  unfold processBatch. rewrite processBatch_begin_drains by done.
  cbn [job_i job_rest job_results]. fold batch.
  pose proof (process_items_outcomes batch 0
                {| batch_id := generateBatchId now rnd; b_timestamp := now;
                   size := n; tokens := []; errors := [] |} w) as Hloop.
  cbn zeta in Hloop.
  destruct (process_items 0 batch _ w) as [results w'].
  cbn [fst tokens errors size app] in Hloop.
  destruct Hloop as (Ht & He & _ & _ & Hsz). fold os in Ht, He.
  assert (Hblen : length batch = Z.to_nat n)
    by (subst batch; rewrite length_take; lia).
  assert (Holen : length os = length batch) by apply outcomes_length.
  eexists _, w', results. split; [reflexivity|].
  cbn [processBatch_end queue processing].
  split; [done|]. split; [rewrite length_drop; lia|]. split; [done|].
  split; [done|]. split; [done|]. split; [done|].
  rewrite Ht, He. split; [|split; [|split]].
  - pose proof (successes_failures_length batch 0 os Holen). lia.
  - intros k token. apply successes_lookup.
  - intros k r message Hr Ho.
    pose proof (failures_from_lookup batch 0 os k r message Hr Ho) as Hin.
    by rewrite Z.add_0_l in Hin.
  - intros k r message Hr Ho Hothers.
    destruct (single_failure batch 0 os k r message Holen Hr Ho) as [Hs Hf].
    + intros j Hj Hlt. apply Hothers; [done|lia].
    + rewrite Hf, Z.add_0_l. split; [lia|done].
Qed.

(** C8: while [processing] is set a call of [processBatch] returns the
    'Batch already processing' error and changes nothing: the queue keeps
    its items and no batch is created.  So in every state the system can
    reach, with calls interleaved at will, at most one activation of
    [processBatch] is inside its loop, and one is exactly when [processing]
    is set. *)
Theorem at_most_one_batch_in_flight :
  (forall now rnd batchSize bp w,
     processing bp = true ->
     processBatch_begin now rnd batchSize bp
     = (bp, inl (ReplyError "Batch already processing")) /\
     processBatch now rnd batchSize bp w
     = (bp, w, ReplyError "Batch already processing")) /\
  (forall s,
     reachable s ->
     (length (jobs s) <= 1)%nat /\
     (processing (bp s) = true <-> jobs s <> [])).
Proof.
  assert (Hguard : forall now rnd batchSize bp,
            processing bp = true ->
            processBatch_begin now rnd batchSize bp
            = (bp, inl (ReplyError "Batch already processing"))).
  { intros now rnd batchSize bp Hp. unfold processBatch_begin. by rewrite Hp. }
  split.
  - intros now rnd batchSize bp w Hp. split; [by apply Hguard|].
    unfold processBatch. by rewrite Hguard.
  - intros s Hs.
    enough ((processing (bp s) = false /\ jobs s = []) \/
            (processing (bp s) = true /\ exists job, jobs s = [job])) as Hinv.
    { destruct Hinv as [[Hp ->]|[Hp [job ->]]]; rewrite Hp; simpl.
      - split; [lia|]. split; done.
      - split; [lia|]. split; done. }
    induction Hs as [w|s s' Hs IH Hstep]; [by left|].
    destruct Hstep as [now req s|s|now rnd batchSize s bp' reply Hb
                      |now rnd batchSize s bp' job Hb
                      |s js1 js2 i r rest results o w' Hj Ho
                      |s js1 js2 i results Hj]; cbn [bp jobs world].
    + exact IH.
    + exact IH.
    + destruct (processing (bp s)) eqn:Hp.
      * rewrite Hguard in Hb by done. injection Hb as <- _. by rewrite Hp.
      * unfold processBatch_begin in Hb. rewrite Hp in Hb.
        destruct (_ =? 0) in Hb; [|by destruct (js_splice0 _ _)].
        injection Hb as <- _. by rewrite Hp.
    + destruct (processing (bp s)) eqn:Hp.
      * rewrite Hguard in Hb by done. done.
      * destruct IH as [[_ ->]|[? _]]; [|done].
        unfold processBatch_begin in Hb. rewrite Hp in Hb.
        destruct (_ =? 0) in Hb; [done|].
        destruct (js_splice0 _ _) in Hb. injection Hb as <- _.
        right. simpl. eauto.
    + destruct IH as [[_ Hnil]|[Hp [job Hone]]].
      * rewrite Hnil in Hj. by destruct js1.
      * rewrite Hone in Hj.
        destruct js1 as [|j1 js1]; [|by destruct js1].
        injection Hj as -> <-. right. simpl. eauto.
    + destruct IH as [[_ Hnil]|[Hp [job Hone]]].
      * rewrite Hnil in Hj. by destruct js1.
      * rewrite Hone in Hj.
        destruct js1 as [|j1 js1]; [|by destruct js1].
        injection Hj as -> <-. by left.
Qed.

End ProcessorFacts.

Lemma processBatch_isolates_item_failures_witness :
  processing sample_processor = false /\
  length (queue sample_processor) = 12%nat /\
  exists bp' w' results,
    processBatch 1 "k3x9q" (Some 10) sample_processor (100, 0)
    = (bp', w', ReplyResults results) /\
    length (queue bp') = 2%nat /\
    length (tokens results) = 9%nat /\
    map be_index (errors results) = [4] /\
    map be_error (errors results) = ["Unknown token type: COIN"].
Proof.
  assert (Hp : processing sample_processor = false) by reflexivity.
  assert (Hn : 0 < 10 <= Z.of_nat (length (queue sample_processor)))
    by (vm_compute; split; [reflexivity|discriminate]).
  destruct (processBatch_isolates_item_failures 1 "k3x9q" 10 sample_processor
              (100, 0) Hp Hn)
    as (bp' & w' & results & Hrun & Hq & Hqlen & _ & _ & _ & _ & _ & _ & _ & Hone).
  split; [exact Hp|]. split; [reflexivity|].
  exists bp', w', results.
  destruct (Hone 4%nat
              {| request := {| r_type := Some "COIN"; r_trigger := None;
                               r_owner := Some "alice"; r_amount := Some 1 |};
                 queued_at := 0; status := "queued" |}
              "Unknown token type: COIN" eq_refl eq_refl) as [Htok Herr].
  { intros j Hj Hlt.
    do 10 (destruct j as [|j]; [first [congruence | by eexists]|]). lia. }
  split; [exact Hrun|]. split; [|split; [|split]].
  - assert (Hl : Z.of_nat (length (queue sample_processor)) = 12)
      by reflexivity. lia.
  - lia.
  - by rewrite Herr.
  - by rewrite Herr.
Defined.

Lemma sample_in_flight_reachable : reachable sample_in_flight.
Proof.
  assert (Hq : forall reqs s,
            reachable s ->
            reachable {| bp := foldl (fun bp req => fst (addToQueue 0 req bp))
                                 (bp s) reqs;
                         world := world s; jobs := jobs s |}).
  { induction reqs as [|req reqs IH]; intros s Hs.
    - by destruct s.
    - apply (IH {| bp := fst (addToQueue 0 req (bp s)); world := world s;
                   jobs := jobs s |}).
      eapply reachable_step; [exact Hs|]. apply step_addToQueue. }
  pose proof (Hq sample_requests _ (reachable_init (100, 0))) as Hs.
  change (reachable {| bp := sample_processor; world := (100, 0);
                       jobs := [] |}) in Hs.
  unfold sample_in_flight.
  destruct (processBatch_begin 1 "k3x9q" (Some 10) sample_processor)
    as [bp' [reply|job]] eqn:Hb; [by vm_compute in Hb|].
  exact (reachable_step _ _ Hs
           (step_processBatch_started 1 "k3x9q" (Some 10)
              {| bp := sample_processor; world := (100, 0); jobs := [] |}
              bp' job Hb)).
Qed.

Lemma at_most_one_batch_in_flight_witness :
  reachable sample_in_flight /\
  processing (bp sample_in_flight) = true /\
  (length (jobs sample_in_flight) <= 1)%nat /\
  jobs sample_in_flight <> [] /\
  length (queue (bp sample_in_flight)) = 2%nat /\
  processBatch 2 "p0w7z" (Some 2) (bp sample_in_flight) (world sample_in_flight)
  = (bp sample_in_flight, world sample_in_flight,
     ReplyError "Batch already processing").
Proof.
  pose proof sample_in_flight_reachable as Hs.
  assert (Hp : processing (bp sample_in_flight) = true) by reflexivity.
  destruct (@at_most_one_batch_in_flight string Z Z sample_collaborators)
    as [Hguard Hinv].
  destruct (Hinv sample_in_flight Hs) as [Hle Hiff].
  destruct (Hguard 2 "p0w7z" (Some 2) (bp sample_in_flight)
              (world sample_in_flight) Hp) as [_ Hcall].
  exact (conj Hs (conj Hp (conj Hle (conj (proj1 Hiff Hp)
           (conj eq_refl Hcall))))).
Defined.

End BatchFacts.

(** * Further properties *)

(** ** The admission controller *)

Module CapacitorMore.
Import Capacitor CapacitorFacts.

Lemma call_settings c s :
  maxCharge (call c s) = maxCharge s /\
  threshold (call c s) = threshold s /\
  chargeRate (call c s) = chargeRate s /\
  dischargeRate (call c s) = dischargeRate s.
Proof.
  destruct c; simpl; try done.
  unfold attemptMint. by destruct (negb (canMint s)).
Qed.

Lemma run_settings cs : forall s,
  maxCharge (run cs s) = maxCharge s /\
  threshold (run cs s) = threshold s /\
  chargeRate (run cs s) = chargeRate s /\
  dischargeRate (run cs s) = dischargeRate s.
Proof.
  induction cs as [|c cs IH]; intros s; [done|].
  cbn [run foldl]. fold (run cs (call c s)).
  destruct (IH (call c s)) as (-> & -> & -> & ->). apply call_settings.
Qed.

Lemma run_in_range cs : forall s,
  rates_nonneg s -> in_range s -> Forall nonneg_args cs ->
  in_range (run cs s).
Proof.
  induction cs as [|c cs IH]; intros s Hr Hs Hcs; [done|].
  inversion Hcs as [|? ? Hc Hcs']; subst.
  cbn [run foldl]. fold (run cs (call c s)).
  apply IH; [by apply call_rates|by apply call_in_range|done].
Qed.

Lemma registerActivity_log now ty i s :
  (length (activityLog s) <= 100)%nat ->
  activityLog (fst (registerActivity now ty i s))
  = drop (length (activityLog s) + 1 - 100)
         (activityLog s ++ [logged_event now ty i s]).
Proof.
  intros Hlen. unfold registerActivity, logged_event. cbn [fst activityLog].
  set (log := activityLog s ++ _).
  assert (Hlog : length log = (length (activityLog s) + 1)%nat)
    by (subst log; rewrite length_app; simpl; lia).
  destruct (Z.ltb_spec 100 (Z.of_nat (length log))) as [Hbig|Hsmall].
  - assert (Hs : js_slice log (-100) None = drop 1 log).
    { apply (js_slice_suffix log (take 1 log) (drop 1 log) 100).
      - by rewrite take_drop.
      - rewrite length_drop. lia.
      - lia. }
    rewrite Hs. f_equal. lia.
  - replace (length (activityLog s) + 1 - 100)%nat with 0%nat by lia. done.
Qed.

Lemma call_log_bounded c s :
  (length (activityLog s) <= 100)%nat ->
  (length (activityLog (call c s)) <= 100)%nat.
Proof.
  intros Hlen. destruct c as [now ty i|a|r|now|]; cbn [call].
  - rewrite registerActivity_log by done.
    rewrite length_drop, length_app. simpl. lia.
  - done.
  - done.
  - unfold attemptMint. by destruct (negb (canMint s)).
  - simpl. lia.
Qed.

(** X1: the activity log never holds more than 100 events, whatever calls
    are made; [registerActivity] puts its event last and, when the log was
    full, evicts the oldest event and nothing else. *)
Theorem activity_log_keeps_last_100 :
  (forall cfg cs,
     Forall (fun s => (length (activityLog s) <= 100)%nat)
            (states_after cs (constructor cfg))) /\
  (forall now ty i s,
     (length (activityLog s) <= 100)%nat ->
     let s' := fst (registerActivity now ty i s) in
     last (activityLog s') = Some (logged_event now ty i s) /\
     activityLog s'
     = drop (length (activityLog s) + 1 - 100)
            (activityLog s ++ [logged_event now ty i s]) /\
     length (activityLog s') = Nat.min 100 (length (activityLog s) + 1)).
Proof.
  split.
  - intros cfg cs.
    assert (H0 : (length (activityLog (constructor cfg)) <= 100)%nat)
      by (simpl; lia).
    revert H0. generalize (constructor cfg) as s.
    induction cs as [|c cs IH]; intros s Hs; simpl; constructor.
    + by apply call_log_bounded.
    + by apply IH, call_log_bounded.
  - intros now ty i s Hlen. cbn zeta.
    rewrite registerActivity_log by done. split; [|split].
    + rewrite drop_app_le by lia. by rewrite last_snoc.
    + done.
    + rewrite length_drop, length_app. cbn [length]. lia.
Qed.

Lemma activity_log_keeps_last_100_witness :
  let s := run (replicate 100 (CallRegisterActivity 0 "scroll" None))
             (constructor None) in
  length (activityLog s) = 100%nat /\
  let s' := fst (registerActivity 7 "click" None s) in
  length (activityLog s') = 100%nat /\
  last (activityLog s') = Some (logged_event 7 "click" None s).
Proof.
  set (s := run _ _).
  assert (Hlen : length (activityLog s) = 100%nat) by (by vm_compute).
  destruct activity_log_keeps_last_100 as [_ Hreg].
  destruct (Hreg 7 "click" None s) as (Hlast & _ & Hn); [lia|].
  split; [exact Hlen|]. cbn zeta. split; [|exact Hlast].
  rewrite Hn, Hlen. reflexivity.
Defined.

(** X2: with the default threshold (or any threshold above 80) a mint
    empties the capacitor below the threshold: after any calls with
    non-negative arguments, an [attemptMint] that succeeds is followed by an
    [attemptMint] that is rejected, unless activity comes in between. *)
Theorem no_second_mint_without_recharge cfg cs now1 now2 :
  (80 < config_threshold cfg)%Q ->
  Forall nonneg_args cs ->
  let s := run cs (constructor cfg) in
  succeeded (snd (attemptMint now1 s)) = true ->
  canMint (fst (attemptMint now1 s)) = false /\
  succeeded (snd (attemptMint now2 (fst (attemptMint now1 s)))) = false.
Proof.
  intros Hth Hcs s Hok.
  destruct (run_settings cs (constructor cfg)) as (Hmax & Hthr & _ & Hdis).
  fold s in Hmax, Hthr, Hdis. simpl in Hmax, Hthr, Hdis.
  assert (Hr : in_range s).
  { apply run_in_range; [apply constructor_rates|apply constructor_in_range|done]. }
  destruct Hr as [Hlo Hhi]. rewrite Hmax in Hhi.
  assert (Hcan : canMint s = true).
  { unfold attemptMint in Hok. by destruct (canMint s). }
  assert (Hafter : canMint (fst (attemptMint now1 s)) = false).
  { apply canMint_false. unfold attemptMint. rewrite Hcan. simpl.
    rewrite Hthr, Hdis.
    destruct (Q.max_spec 0 (charge s - 20)) as [[_ ->]|[_ ->]]; lra. }
  split; [done|]. unfold attemptMint at 1. by rewrite Hafter.
Qed.

Lemma no_second_mint_without_recharge_witness :
  let s := run [CallRegisterActivity 0 "click" (Some 100%Q)] (constructor None) in
  succeeded (snd (attemptMint 1 s)) = true /\
  succeeded (snd (attemptMint 2 (fst (attemptMint 1 s)))) = false.
Proof.
  assert (Hth : (80 < config_threshold None)%Q) by reflexivity.
  assert (Hcs : Forall nonneg_args [CallRegisterActivity 0 "click" (Some 100%Q)])
    by (repeat constructor; simpl; lra).
  assert (Hok : succeeded (snd (attemptMint 1
            (run [CallRegisterActivity 0 "click" (Some 100%Q)]
               (constructor None)))) = true) by reflexivity.
  exact (conj Hok (proj2 (no_second_mint_without_recharge None _ 1 2
                            Hth Hcs Hok))).
Defined.






(** X4: [reset] brings the controller back to its state at construction,
    whatever was called before: the charge, the log and the mint time are
    cleared, and no call ever changes the limits and rates. *)
Theorem reset_restores_fresh_state cfg cs :
  reset (run cs (constructor cfg)) = constructor cfg.
Proof.
  destruct (run_settings cs (constructor cfg)) as (Hmax & Hthr & Hcr & Hdr).
  unfold reset. rewrite Hmax, Hthr, Hcr, Hdr. reflexivity.
Qed.

End CapacitorMore.

(** ** The ledger *)

Module LedgerMore.
Import Ledger LedgerFacts.

Lemma omap_all_None {A B} (f : A -> option B) (l : list A) :
  (forall x, x ∈ l -> f x = None) -> omap f l = [].
Proof.
  induction l as [|x l IH]; intros H; [done|].
  cbn [omap list_omap]. rewrite (H x) by (apply elem_of_cons; by left).
  apply IH. intros y Hy. apply H. apply elem_of_cons. by right.
Qed.

Lemma broken_link_intact l (i : Z) :
  links_intact l -> 1 <= i -> broken_link l i = None.
Proof.
  intros Hl Hi. unfold broken_link.
  replace (Z.to_nat i) with (S (Z.to_nat (i - 1))) by lia.
  destruct (l !! S (Z.to_nat (i - 1))) as [cur|] eqn:Hc; [|done].
  destruct (l !! Z.to_nat (i - 1)) as [prev|] eqn:Hp; [|done].
  rewrite bool_decide_eq_false_2; [done|].
  intros Hne. apply Hne. by eapply Hl.
Qed.

Lemma chain_ok_links_intact l : chain_ok l -> links_intact l.
Proof.
  intros Hc i cur prev Hcur Hprev.
  destruct (Hc (S i) cur Hcur) as [_ Hp]. simpl in Hp.
  rewrite Hprev in Hp. by injection Hp.
Qed.

Lemma Integrity_eta (r : Integrity) :
  r = {| valid := valid r; total_entries := total_entries r;
         verified_entries := verified_entries r; errors := errors r |}.
Proof. by destruct r. Qed.

(** What [verifyIntegrity] returns, from the error list of its loop. *)
Lemma verifyIntegrity_result L :
  let n := Z.of_nat (length (ledger L)) in
  let errs := omap (broken_link (ledger L)) (seqZ 1 (n - 1)) in
  verifyIntegrity L
  = {| valid := bool_decide (errs = []);
       total_entries := n;
       verified_entries := Z.max 0 (n - 1) - Z.of_nat (length errs);
       errors := errs |}.
Proof.
  cbn zeta. unfold verifyIntegrity.
  set (l := ledger L). set (n := Z.of_nat (length l)).
  destruct (verify_fold l (seqZ 1 (n - 1))
              {| valid := true; total_entries := n; verified_entries := 0;
                 errors := [] |}) as (He & Hv & Ht & Hn).
  cbn [errors valid total_entries verified_entries app andb] in He, Hv, Ht, Hn.
  rewrite (Integrity_eta (foldl _ _ _)). rewrite He, Hv, Ht. f_equal.
  rewrite He in Hn. rewrite length_seqZ in Hn.
  assert (Hall : Forall (fun i => 1 <= i < Z.of_nat (length l))
                   (seqZ 1 (n - 1))) by (apply Forall_seqZ; lia).
  specialize (Hn Hall). simpl in Hn. lia.
Qed.

(** X5: a ledger built by appends alone verifies: [verifyIntegrity] returns
    [valid], no error, and counts every entry after the first as verified. *)
Theorem appended_ledger_verifies inputs L :
  appendAll inputs constructor = Ok L ->
  verifyIntegrity L
  = {| valid := true;
       total_entries := Z.of_nat (length inputs);
       verified_entries := Z.max 0 (Z.of_nat (length inputs) - 1);
       errors := [] |}.
Proof.
  intros Hrun.
  destruct (appendAll_invariants inputs constructor L Hrun
              constructor_chain_ok constructor_seals_ok) as (Hc & _ & Hh).
  assert (Hlen : length (ledger L) = length inputs).
  { apply (f_equal length) in Hh. simpl in Hh. by rewrite !length_map in Hh. }
  rewrite verifyIntegrity_result. cbn zeta. rewrite Hlen.
  rewrite omap_all_None.
  - simpl. f_equal. lia.
  - intros i Hi. apply elem_of_seqZ in Hi.
    apply broken_link_intact; [by apply chain_ok_links_intact|lia].
Qed.

Lemma appended_ledger_verifies_witness :
  exists L,
    appendAll (sample_inputs 100) constructor = Ok L /\
    valid (verifyIntegrity L) = true /\
    verified_entries (verifyIntegrity L) = 99 /\
    errors (verifyIntegrity L) = [].
Proof.
  exists ledger_of_100.
  assert (Hrun : appendAll (sample_inputs 100) constructor = Ok ledger_of_100)
    by (by vm_compute).
  rewrite (appended_ledger_verifies (sample_inputs 100) ledger_of_100 Hrun).
  split; [exact Hrun|]. split; [reflexivity|]. split; reflexivity.
Defined.

Lemma verify_step_same_hashes l l' r (i : Z) :
  map hash l = map hash l' ->
  map previous_hash l = map previous_hash l' ->
  verify_step l r i = verify_step l' r i.
Proof.
  intros Hh Hp. unfold verify_step.
  assert (Hh' : hash <$> l !! Z.to_nat (i - 1) = hash <$> l' !! Z.to_nat (i - 1))
    by (rewrite <- !list_lookup_fmap; by f_equal).
  assert (Hp' : previous_hash <$> l !! Z.to_nat i
                = previous_hash <$> l' !! Z.to_nat i)
    by (rewrite <- !list_lookup_fmap; by f_equal).
  destruct (l !! Z.to_nat i) as [c|], (l' !! Z.to_nat i) as [c'|];
    simpl in Hp'; try done.
  destruct (l !! Z.to_nat (i - 1)) as [p|], (l' !! Z.to_nat (i - 1)) as [p'|];
    simpl in Hh'; try done.
  injection Hh' as ->. injection Hp' as ->. done.
Qed.

Lemma verifyIntegrity_same_hashes L L' :
  map hash (ledger L) = map hash (ledger L') ->
  map previous_hash (ledger L) = map previous_hash (ledger L') ->
  verifyIntegrity L = verifyIntegrity L'.
Proof.
  intros Hh Hp. unfold verifyIntegrity.
  assert (Hlen : length (ledger L) = length (ledger L')).
  { apply (f_equal length) in Hh. by rewrite !length_map in Hh. }
  rewrite Hlen. generalize (seqZ 1 (Z.of_nat (length (ledger L')) - 1)).
  generalize ({| valid := true;
                 total_entries := Z.of_nat (length (ledger L'));
                 verified_entries := 0; errors := [] |}).
  intros r idx. revert r.
  induction idx as [|i idx IH]; intros r; [done|].
  cbn [foldl]. rewrite (verify_step_same_hashes _ (ledger L')) by done.
  apply IH.
Qed.

Lemma map_alter_same {B} (g : Entry -> B) (f : Entry -> Entry) i l :
  (forall e, g (f e) = g e) -> map g (alter f i l) = map g l.
Proof.
  intros Hg. apply list_eq. intros j.
  change (map g ?x) with (g <$> x).
  rewrite !list_lookup_fmap, list_lookup_alter.
  destruct (decide (i = j)) as [->|]; [|done].
  destruct (l !! j); simpl; [by rewrite Hg|done].
Qed.

(** X6: verification reads nothing but [hash] and [previous_hash]: it never
    recomputes a hash from the content.  Rewriting the owner and the value
    of any entry of any ledger leaves the result of [verifyIntegrity]
    exactly as it was. *)
Theorem content_change_is_not_detected (i : nat) o v L :
  verifyIntegrity (alter_entry (with_content o v) i L) = verifyIntegrity L.
Proof.
  apply verifyIntegrity_same_hashes; simpl; by apply map_alter_same.
Qed.

(** X7: sealing never disturbs the chain: after [createMerkleRoot], at any
    ledger length, [verifyIntegrity] returns what it returned before. *)
Theorem sealing_keeps_verification now L :
  verifyIntegrity (fst (createMerkleRoot now L)) = verifyIntegrity L.
Proof.
  apply verifyIntegrity_same_hashes; simpl.
  - apply seal_loop_hashes. lia.
  - apply list_eq. intros j. change (map previous_hash ?x)
      with (previous_hash <$> x).
    rewrite !list_lookup_fmap, seal_loop_lookup by lia.
    case_bool_decide; [|done]. by destruct (ledger L !! j).
Qed.

Lemma omap_single {A B} (f : A -> option B) (l1 l2 : list A) x y :
  f x = Some y ->
  (forall z, z ∈ l1 -> f z = None) ->
  (forall z, z ∈ l2 -> f z = None) ->
  omap f (l1 ++ x :: l2) = [y].
Proof.
  intros Hx H1 H2. rewrite omap_app. cbn [omap list_omap]. rewrite Hx.
  by rewrite (omap_all_None f l1), (omap_all_None f l2).
Qed.

Lemma broken_link_forged l (i : nat) e h (j : Z) :
  links_intact l -> l !! i = Some e -> h <> hash e -> 1 <= j ->
  broken_link (alter (with_hash h) i l) j
  = if bool_decide (j = Z.of_nat (S i)) then
      match l !! S i with
      | Some nxt => Some {| ie_index := Z.of_nat (S i);
                            ie_error := "Hash chain broken";
                            expected := h;
                            actual := previous_hash nxt |}
      | None => None
      end
    else None.
Proof.
  intros Hl He Hh Hj. unfold broken_link.
  replace (Z.to_nat j) with (S (Z.to_nat (j - 1))) by lia.
  rewrite !list_lookup_alter.
  case_bool_decide as Hji.
  - subst j. replace (Z.to_nat (Z.of_nat (S i) - 1)) with i by lia.
    destruct (decide (i = S i)) as [|_]; [lia|].
    destruct (decide (i = i)) as [_|]; [|done].
    rewrite He. cbn [fmap option_fmap option_map].
    destruct (l !! S i) as [nxt|] eqn:Hn; [|done].
    assert (previous_hash nxt = hash e) as Hp by by eapply Hl.
    cbn [with_hash hash]. rewrite bool_decide_eq_true_2 by congruence. done.
  - destruct (decide (i = Z.to_nat (j - 1))) as [Hi|_]; [lia|].
    destruct (decide (i = S (Z.to_nat (j - 1)))) as [->|_].
    + destruct (l !! S (Z.to_nat (j - 1))) as [cur|] eqn:Hc; [|done].
      cbn [fmap option_fmap option_map].
      destruct (l !! Z.to_nat (j - 1)) as [prev|] eqn:Hp; [|done].
      cbn [with_hash previous_hash].
      rewrite bool_decide_eq_false_2; [done|].
      intros Hne. apply Hne. by eapply Hl.
    + destruct (l !! S (Z.to_nat (j - 1))) as [cur|] eqn:Hc; [|done].
      destruct (l !! Z.to_nat (j - 1)) as [prev|] eqn:Hp; [|done].
      rewrite bool_decide_eq_false_2; [done|].
      intros Hne. apply Hne. by eapply Hl.
Qed.

(** X8: in a ledger whose links all hold, overwriting the hash of one entry
    with a different value is reported once, at the entry after it, with the
    forged hash as the expected one; when the forged entry is the last one,
    nothing is reported and the ledger still verifies. *)
Theorem forged_hash_is_caught_at_next_link L (i : nat) e h :
  links_intact (ledger L) ->
  ledger L !! i = Some e ->
  h <> hash e ->
  let r := verifyIntegrity (alter_entry (with_hash h) i L) in
  errors r
  = match ledger L !! S i with
    | Some nxt => [ {| ie_index := Z.of_nat (S i);
                       ie_error := "Hash chain broken";
                       expected := h;
                       actual := previous_hash nxt |} ]
    | None => []
    end /\
  (valid r = true <-> ledger L !! S i = None).
Proof.
  intros Hl He Hh. cbn zeta. rewrite verifyIntegrity_result. cbn zeta.
  cbn [alter_entry ledger errors valid]. rewrite length_alter.
  set (l := ledger L) in *. set (n := Z.of_nat (length l)).
  set (f := broken_link (alter (with_hash h) i l)).
  assert (Hf : forall j, 1 <= j -> j <> Z.of_nat (S i) -> f j = None).
  { intros j Hj Hne. subst f.
    rewrite (broken_link_forged l i e h j) by done.
    by rewrite bool_decide_eq_false_2. }
  destruct (l !! S i) as [nxt|] eqn:Hn.
  - apply lookup_lt_Some in Hn as Hlt.
    assert (Herrs : omap f (seqZ 1 (n - 1))
              = [ {| ie_index := Z.of_nat (S i);
                     ie_error := "Hash chain broken";
                     expected := h;
                     actual := previous_hash nxt |} ]).
    { replace (n - 1) with (Z.of_nat i + (1 + (n - 2 - Z.of_nat i))) by lia.
      rewrite seqZ_app by lia. rewrite (seqZ_cons (1 + Z.of_nat i)) by lia.
      apply omap_single.
      - subst f. rewrite (broken_link_forged l i e h) by (done || lia).
        rewrite bool_decide_eq_true_2 by lia. fold l. by rewrite Hn.
      - intros z Hz. apply elem_of_seqZ in Hz. apply Hf; lia.
      - intros z Hz. apply elem_of_seqZ in Hz. apply Hf; lia. }
    rewrite Herrs. split; [done|]. split; [|done].
    by rewrite bool_decide_eq_true.
  - rewrite omap_all_None.
    + split; [done|]. by rewrite bool_decide_eq_true.
    + intros z Hz. apply elem_of_seqZ in Hz. apply lookup_ge_None in Hn.
      apply Hf; lia.
Qed.

Lemma ledger_of_5_appended :
  appendAll (sample_inputs 5) constructor = Ok ledger_of_5.
Proof. by vm_compute. Qed.

Lemma ledger_of_5_intact : links_intact (ledger ledger_of_5).
Proof.
  apply chain_ok_links_intact.
  by destruct (appendAll_invariants _ _ _ ledger_of_5_appended
                 constructor_chain_ok constructor_seals_ok) as (Hc & _ & _).
Qed.

Lemma forged_hash_is_caught_at_next_link_witness :
  exists e z,
    ledger ledger_of_5 !! 2%nat = Some e /\
    ledger ledger_of_5 !! 4%nat = Some z /\
    map ie_index (errors (verifyIntegrity
        (alter_entry (with_hash "0xforged") 2 ledger_of_5))) = [3] /\
    valid (verifyIntegrity
        (alter_entry (with_hash "0xforged") 4 ledger_of_5)) = true.
Proof.
  assert (He : exists e, ledger ledger_of_5 !! 2%nat = Some e /\
                         "0xforged" <> hash e)
    by (vm_compute; eexists; split; [reflexivity|discriminate]).
  assert (Hz : exists z, ledger ledger_of_5 !! 4%nat = Some z /\
                         "0xforged" <> hash z)
    by (vm_compute; eexists; split; [reflexivity|discriminate]).
  destruct He as (e & He & Hne). destruct Hz as (z & Hz & Hnz).
  pose proof (forged_hash_is_caught_at_next_link ledger_of_5 2 e "0xforged"
                ledger_of_5_intact He Hne) as [Herr _].
  pose proof (forged_hash_is_caught_at_next_link ledger_of_5 4 z "0xforged"
                ledger_of_5_intact Hz Hnz) as [_ Hval].
  exists e, z. split; [exact He|]. split; [exact Hz|]. split.
  - rewrite Herr. reflexivity.
  - apply Hval. reflexivity.
Defined.

(** X9: [query] returns, in ledger order, exactly the entries that pass
    every filter that is present; an owner or type filter that is absent or
    the empty string constrains nothing, so a query with no usable filter
    returns the whole ledger. *)
Theorem query_filters_conjunctively q L :
  (forall e,
     e ∈ query q L <->
     e ∈ ledger L /\
     (forall o, truthy_string (q_owner q) = Some o -> owner e = o) /\
     (forall t, truthy_string (q_type q) = Some t -> token_type e = t) /\
     (forall a, q_fromIndex q = Some a -> a <= index e) /\
     (forall b, q_toIndex q = Some b -> index e <= b)) /\
  query q L `sublist_of` ledger L /\
  (truthy_string (q_owner q) = None -> truthy_string (q_type q) = None ->
   q_fromIndex q = None -> q_toIndex q = None -> query q L = ledger L).
Proof.
  unfold query. split; [|split].
  - intros e.
    destruct (truthy_string (q_owner q)) as [o|],
             (truthy_string (q_type q)) as [t|],
             (q_fromIndex q) as [a|], (q_toIndex q) as [b|];
      rewrite ?list_elem_of_filter;
      (split; [intros; destruct_and?; repeat split; try done;
               intros ? [= <-]; done
              |intros (? & Ho & Ht & Ha & Hb); repeat split; eauto]).
  - destruct (truthy_string (q_owner q)) as [o|],
             (truthy_string (q_type q)) as [t|],
             (q_fromIndex q) as [a|], (q_toIndex q) as [b|];
      repeat (etrans; [apply sublist_filter|]); done.
  - by intros -> -> -> ->.
Qed.

Lemma query_filters_conjunctively_witness :
  query {| q_owner := Some ""; q_type := None;
           q_fromIndex := None; q_toIndex := None |} ledger_of_5
  = ledger ledger_of_5.
Proof.
  exact (proj2 (proj2 (query_filters_conjunctively
           {| q_owner := Some ""; q_type := None;
              q_fromIndex := None; q_toIndex := None |} ledger_of_5))
           eq_refl eq_refl eq_refl eq_refl).
Defined.

(** Entries whose [index] is their position shifted by [k]. *)
Lemma filter_from_index (a k : Z) (l : list Entry) :
  (forall (i : nat) e, l !! i = Some e -> index e = k + Z.of_nat i) ->
  filter (fun e => a <= index e) l = drop (Z.to_nat (a - k)) l.
Proof.
  revert k. induction l as [|e l IH]; intros k Hidx; [by rewrite drop_nil|].
  assert (He : index e = k) by (rewrite (Hidx 0%nat e eq_refl); lia).
  assert (Hl : forall (i : nat) e', l !! i = Some e' ->
                 index e' = (k + 1) + Z.of_nat i).
  { intros i e' Hi. rewrite (Hidx (S i) e' Hi). lia. }
  specialize (IH (k + 1) Hl).
  destruct (decide (a <= index e)) as [Hle|Hgt].
  - rewrite filter_cons_True by done.
    replace (Z.to_nat (a - k)) with 0%nat by lia.
    rewrite IH. replace (Z.to_nat (a - (k + 1))) with 0%nat by lia. done.
  - rewrite filter_cons_False by done. rewrite IH.
    replace (Z.to_nat (a - k)) with (S (Z.to_nat (a - (k + 1)))) by lia. done.
Qed.

Lemma filter_to_index (b k : Z) (l : list Entry) :
  (forall (i : nat) e, l !! i = Some e -> index e = k + Z.of_nat i) ->
  filter (fun e => index e <= b) l = take (Z.to_nat (b - k + 1)) l.
Proof.
  revert k. induction l as [|e l IH]; intros k Hidx; [by rewrite take_nil|].
  assert (He : index e = k) by (rewrite (Hidx 0%nat e eq_refl); lia).
  assert (Hl : forall (i : nat) e', l !! i = Some e' ->
                 index e' = (k + 1) + Z.of_nat i).
  { intros i e' Hi. rewrite (Hidx (S i) e' Hi). lia. }
  specialize (IH (k + 1) Hl).
  destruct (decide (index e <= b)) as [Hle|Hgt].
  - rewrite filter_cons_True by done. rewrite IH.
    replace (Z.to_nat (b - k + 1)) with (S (Z.to_nat (b - (k + 1) + 1))) by lia.
    done.
  - rewrite filter_cons_False by done. rewrite IH.
    replace (Z.to_nat (b - k + 1)) with 0%nat by lia.
    replace (Z.to_nat (b - (k + 1) + 1)) with 0%nat by lia. done.
Qed.

(** X10: on a ledger built by appends, a query by index bounds
    [fromIndex = a], [toIndex = b] with [0 <= a <= b < length] returns the
    block of entries at positions [a] to [b]: [b - a + 1] entries whose
    indices are [a, a + 1, ..., b]. *)
Theorem index_query_returns_block inputs L (a b : Z) :
  appendAll inputs constructor = Ok L ->
  0 <= a <= b -> b < Z.of_nat (length inputs) ->
  let r := query {| q_owner := None; q_type := None;
                    q_fromIndex := Some a; q_toIndex := Some b |} L in
  r = take (Z.to_nat (b - a + 1)) (drop (Z.to_nat a) (ledger L)) /\
  map index r = seqZ a (b - a + 1).
Proof.
  intros Hrun Hab Hb. cbn zeta. unfold query. cbn [q_owner q_type q_fromIndex
    q_toIndex truthy_string].
  destruct (appendAll_invariants inputs constructor L Hrun
              constructor_chain_ok constructor_seals_ok) as (Hc & _ & Hh).
  assert (Hlen : length (ledger L) = length inputs).
  { apply (f_equal length) in Hh. simpl in Hh. by rewrite !length_map in Hh. }
  assert (Hidx : forall (i : nat) e, ledger L !! i = Some e ->
                   index e = 0 + Z.of_nat i).
  { intros i e Hi. by destruct (Hc i e Hi) as [-> _]. }
  rewrite (filter_from_index a 0) by done.
  replace (a - 0) with a by lia.
  assert (Hidx' : forall (i : nat) e,
            drop (Z.to_nat a) (ledger L) !! i = Some e ->
            index e = a + Z.of_nat i).
  { intros i e Hi. rewrite lookup_drop in Hi. rewrite (Hidx _ _ Hi). lia. }
  rewrite (filter_to_index b a) by done. split; [done|].
  apply list_eq. intros i. change (map index ?x) with (index <$> x).
  rewrite list_lookup_fmap.
  destruct (decide (Z.of_nat i < b - a + 1)) as [Hi|Hi].
  - rewrite lookup_take_lt by lia. rewrite lookup_seqZ_lt by lia.
    destruct (lookup_lt_is_Some_2 (drop (Z.to_nat a) (ledger L)) i)
      as [e He]; [rewrite length_drop; lia|].
    rewrite He. simpl. by rewrite (Hidx' i e He).
  - rewrite lookup_take_ge by lia. rewrite lookup_seqZ_ge by lia. done.
Qed.

Lemma index_query_returns_block_witness :
  map index (query {| q_owner := None; q_type := None;
                      q_fromIndex := Some 1; q_toIndex := Some 3 |}
               ledger_of_5)
  = [1; 2; 3].
Proof.
  assert (H1 : 0 <= 1 <= 3) by lia.
  assert (H2 : 3 < Z.of_nat (length (sample_inputs 5))) by (vm_compute; done).
  exact (proj2 (index_query_returns_block (sample_inputs 5) ledger_of_5 1 3
                  ledger_of_5_appended H1 H2)).
Defined.

Lemma sealed_or_same_fields e1 e2 :
  sealed_or_same e1 e2 ->
  index e2 = index e1 /\ token_id e2 = token_id e1 /\
  token_type e2 = token_type e1 /\ owner e2 = owner e1 /\
  value e2 = value e1 /\ hash e2 = hash e1 /\
  previous_hash e2 = previous_hash e1.
Proof. by intros [->|[rid ->]]. Qed.

(** [createMerkleRoot] at any ledger length. *)
(** X11: [createMerkleRoot], at whatever ledger length it is called, pushes
    one root for the range of the last [min(length, 100)] entries, marks
    exactly those entries sealed under the new root id, also the ones an
    earlier root had sealed, and leaves every other entry and every content
    field as it was. *)
Theorem createMerkleRoot_seals_last_100 now L :
  let n := Z.of_nat (length (ledger L)) in
  let L' := fst (createMerkleRoot now L) in
  let r := snd (createMerkleRoot now L) in
  merkleRoots L' = merkleRoots L ++ [r] /\
  range_of r = (Z.max 0 (n - 100), n - 1) /\
  batch_size r = Z.min n 100 /\
  length (ledger L') = length (ledger L) /\
  (forall (i : nat) e,
     ledger L !! i = Some e ->
     ledger L' !! i
     = Some (if bool_decide (n - 100 <= Z.of_nat i)
             then mark_sealed (root_id r) e else e)) /\
  map hash (ledger L') = map hash (ledger L) /\
  map index (ledger L') = map index (ledger L).
Proof.
  cbn zeta. split; [done|]. split; [done|]. split; [|split; [|split; [|split]]].
  - cbn [createMerkleRoot snd batch_size].
    rewrite js_slice_range_length; lia.
  - apply seal_loop_length.
  - intros i e He. rewrite createMerkleRoot_lookup. cbn zeta. rewrite He.
    by case_bool_decide.
  - apply seal_loop_hashes. lia.
  - apply list_eq. intros j. change (map index ?x) with (index <$> x).
    rewrite !list_lookup_fmap, createMerkleRoot_lookup. cbn zeta.
    case_bool_decide; [|done]. by destruct (ledger L !! j).
Qed.

Lemma createMerkleRoot_seals_last_100_witness :
  exists e,
    ledger ledger_of_5 !! 2%nat = Some e /\
    ledger (fst (createMerkleRoot 9 ledger_of_5)) !! 2%nat
    = Some (mark_sealed (root_id (snd (createMerkleRoot 9 ledger_of_5))) e).
Proof.
  assert (H : exists e, ledger ledger_of_5 !! 2%nat = Some e)
    by (vm_compute; eauto).
  destruct H as [e He]. exists e. split; [exact He|].
  destruct (createMerkleRoot_seals_last_100 9 ledger_of_5)
    as (_ & _ & _ & _ & Hl & _).
  rewrite (Hl 2%nat e He). by vm_compute.
Defined.

Lemma addToken_result now token L L' e :
  addToken now token L = Ok (L', e) ->
  let entry := new_entry now token L in
  let L1 := {| ledger := ledger L ++ [entry];
               merkleRoots := merkleRoots L;
               l_sealed := l_sealed L |} in
  let L2 := if Z.of_nat (length (ledger L1)) mod 100 =? 0
            then fst (createMerkleRoot now L1) else L1 in
  L' = L2 /\ e = default entry (last (ledger L2)).
Proof.
  unfold addToken. destruct (t_immutable token); simpl; [|done].
  intros [= <- <-]. done.
Qed.

Lemma addToken_shape now token L L' e :
  addToken now token L = Ok (L', e) ->
  let n := length (ledger L) in
  let l1 := ledger L ++ [new_entry now token L] in
  length (ledger L') = S n /\
  ledger L' !! n = Some e /\
  (forall (j : nat) e1, l1 !! j = Some e1 ->
     exists e2, ledger L' !! j = Some e2 /\ sealed_or_same e1 e2) /\
  (sealed e = true <-> Z.of_nat (S n) mod 100 = 0) /\
  (merkle_root e = None <-> Z.of_nat (S n) mod 100 <> 0) /\
  length (merkleRoots L')
  = (length (merkleRoots L)
     + if bool_decide ((Z.of_nat (S n) mod 100 = 0)%Z) then 1 else 0)%nat.
Proof.
  intros Hadd. destruct (addToken_result _ _ _ _ _ Hadd) as [HL' He'].
  cbn zeta in HL', He' |- *.
  set (entry := new_entry now token L) in *.
  set (L1 := {| ledger := ledger L ++ [entry]; merkleRoots := merkleRoots L;
                l_sealed := l_sealed L |}) in *.
  assert (Hn1 : length (ledger L1) = S (length (ledger L)))
    by (simpl; rewrite length_app; simpl; lia).
  assert (Hl1 : ledger L1 !! length (ledger L) = Some entry)
    by (simpl; by rewrite list_lookup_middle).
  rewrite Hn1 in HL', He'. revert HL' He'.
  destruct (Z.eqb_spec (Z.of_nat (S (length (ledger L))) mod 100) 0)
    as [Hmod|Hmod]; intros -> He'.
  - assert (Hlen : length (ledger (fst (createMerkleRoot now L1)))
                   = S (length (ledger L)))
      by (rewrite <- Hn1; apply seal_loop_length).
    assert (Hlast : ledger (fst (createMerkleRoot now L1)) !! length (ledger L)
              = Some (mark_sealed (root_id (snd (createMerkleRoot now L1)))
                        entry)).
    { rewrite createMerkleRoot_lookup. cbn zeta. rewrite Hl1, Hn1.
      rewrite bool_decide_eq_true_2 by lia. done. }
    rewrite last_lookup, Hlen in He'. cbn [Nat.pred] in He'.
    rewrite Hlast in He'. cbn [default] in He'. subst e.
    split; [done|]. split; [done|]. split; [|split; [|split]].
    + intros j e1 Hj. rewrite createMerkleRoot_lookup. cbn zeta.
      change (ledger L1) with (ledger L ++ [entry]). rewrite Hj.
      case_bool_decide; eexists; (split; [reflexivity|]).
      * right. eauto.
      * by left.
    + done.
    + done.
    + rewrite bool_decide_eq_true_2 by done.
      cbn [createMerkleRoot fst merkleRoots]. rewrite length_app. simpl. lia.
  - rewrite last_lookup, Hn1 in He'. cbn [Nat.pred] in He'.
    rewrite Hl1 in He'. cbn [default] in He'. subst e.
    split; [done|]. split; [done|]. split; [|split; [|split]].
    + intros j e1 Hj. exists e1. split; [done|]. by left.
    + done.
    + done.
    + rewrite bool_decide_eq_false_2 by done. simpl. lia.
Qed.

(** X12: the entry [addToken] returns is the object it pushed: it sits last
    in the ledger at index [length], carries the token's fields and hash and
    the hash of the entry before it, and, because sealing marks that same
    object, it comes back already sealed exactly when the append brought the
    length to a multiple of 100. *)
Theorem addToken_returns_pushed_entry now token L L' e :
  addToken now token L = Ok (L', e) ->
  let n := length (ledger L) in
  last (ledger L') = Some e /\
  length (ledger L') = S n /\
  index e = Z.of_nat n /\
  token_id e = id token /\ owner e = t_owner token /\
  value e = t_value token /\ hash e = calculateHash token /\
  previous_hash e = match last (ledger L) with
                    | Some p => hash p
                    | None => "0"
                    end /\
  (sealed e = true <-> Z.of_nat (S n) mod 100 = 0) /\
  (merkle_root e = None <-> Z.of_nat (S n) mod 100 <> 0).
Proof.
  intros Hadd. cbn zeta.
  destruct (addToken_shape now token L L' e Hadd)
    as (Hlen & He & Hrel & Hsealed & Hroot & _).
  destruct (Hrel (length (ledger L)) (new_entry now token L))
    as (e2 & He2 & Hsame); [by rewrite list_lookup_middle|].
  rewrite He in He2. injection He2 as <-.
  apply sealed_or_same_fields in Hsame
    as (Hi & Hid & _ & Ho & Hv & Hh & Hp).
  rewrite last_lookup, Hlen. cbn [Nat.pred].
  rewrite Hi, Hid, Ho, Hv, Hh, Hp. done.
Qed.

Lemma addToken_returns_pushed_entry_witness :
  exists L e,
    appendAll (sample_inputs 99) constructor = Ok L /\
    addToken 99 (sample_token 99) L = Ok (ledger_of_100, e) /\
    index e = 99 /\ sealed e = true.
Proof.
  destruct (appendAll (sample_inputs 99) constructor) as [L|m] eqn:Hrun;
    [|by vm_compute in Hrun].
  assert (Hadd : exists e, addToken 99 (sample_token 99) L
                           = Ok (ledger_of_100, e)).
  { vm_compute in Hrun. injection Hrun as <-. vm_compute. eauto. }
  destruct Hadd as [e Hadd]. exists L, e.
  destruct (addToken_returns_pushed_entry _ _ _ _ _ Hadd)
    as (_ & _ & Hi & _ & _ & _ & _ & _ & Hs & _).
  assert (Hlen : length (ledger L) = 99%nat).
  { vm_compute in Hrun. by injection Hrun as <-. }
  rewrite Hlen in Hi, Hs.
  split; [done|]. split; [done|]. split; [exact Hi|]. by apply Hs.
Defined.

Lemma getToken_Some tokenId L e :
  getToken tokenId L = Some e <->
  exists i : nat,
    ledger L !! i = Some e /\ token_id e = tokenId /\
    forall (j : nat) e', ledger L !! j = Some e' -> (j < i)%nat ->
      token_id e' <> tokenId.
Proof.
  unfold getToken. split.
  - destruct (list_find _ _) as [[i x]|] eqn:Hf; [|done].
    intros [= <-]. apply list_find_Some in Hf. by exists i.
  - intros (i & Hi & Hid & Hfirst).
    assert (Hf : list_find (fun e => token_id e = tokenId) (ledger L)
                 = Some (i, e)) by by apply list_find_Some.
    by rewrite Hf.
Qed.

Lemma getToken_None tokenId L :
  getToken tokenId L = None <->
  forall e, e ∈ ledger L -> token_id e <> tokenId.
Proof.
  unfold getToken. rewrite fmap_None, list_find_None, list.Forall_forall.
  done.
Qed.

(** X13: [getToken] returns the first entry that carries the id, and
    [undefined] exactly when no entry does.  So a token appended under an id
    the ledger does not hold yet is found again, as the returned entry; a
    token appended under an id that is already there is not: the lookup
    keeps answering with the earlier entry. *)
Theorem getToken_finds_first_entry_with_id :
  (forall tokenId L,
     getToken tokenId L = None <->
     forall e, e ∈ ledger L -> token_id e <> tokenId) /\
  (forall tokenId L e,
     getToken tokenId L = Some e <->
     exists i : nat,
       ledger L !! i = Some e /\ token_id e = tokenId /\
       forall (j : nat) e', ledger L !! j = Some e' -> (j < i)%nat ->
         token_id e' <> tokenId) /\
  (forall now token L L' e,
     addToken now token L = Ok (L', e) ->
     (getToken (id token) L = None -> getToken (id token) L' = Some e) /\
     (forall e0, getToken (id token) L = Some e0 ->
        exists e1, getToken (id token) L' = Some e1 /\
                   sealed_or_same e0 e1 /\ index e1 = index e0)).
Proof.
  split; [exact getToken_None|]. split; [exact getToken_Some|].
  intros now token L L' e Hadd.
  destruct (addToken_shape now token L L' e Hadd)
    as (Hlen & He & Hrel & _). cbn zeta in Hrel.
  assert (Hback : forall (j : nat) e2, ledger L' !! j = Some e2 ->
            (j < length (ledger L))%nat ->
            exists e1, ledger L !! j = Some e1 /\ sealed_or_same e1 e2).
  { intros j e2 Hj Hlt.
    destruct (lookup_lt_is_Some_2 (ledger L) j Hlt) as [e1 He1].
    destruct (Hrel j e1) as (e2' & He2' & Hs); [by rewrite lookup_app_l|].
    rewrite Hj in He2'. injection He2' as <-. eauto. }
  split.
  - intros Hnone. apply getToken_Some. exists (length (ledger L)).
    split; [done|]. split.
    + destruct (Hrel (length (ledger L)) (new_entry now token L))
        as (e2 & He2 & Hs); [by rewrite list_lookup_middle|].
      rewrite He in He2. injection He2 as <-.
      by apply sealed_or_same_fields in Hs as (_ & -> & _).
    + intros j e2 Hj Hlt. destruct (Hback j e2 Hj Hlt) as (e1 & He1 & Hs).
      apply sealed_or_same_fields in Hs as (_ & -> & _).
      eapply getToken_None; [exact Hnone|].
      apply list_elem_of_lookup. eauto.
  - intros e0 H0. apply getToken_Some in H0 as (i & Hi & Hid & Hfirst).
    destruct (Hrel i e0) as (e1 & He1 & Hs).
    { apply lookup_lt_Some in Hi as Hlt. by rewrite lookup_app_l. }
    exists e1. split; [|split; [done|]].
    + apply getToken_Some. exists i. split; [done|]. split.
      * apply sealed_or_same_fields in Hs as (_ & -> & _). done.
      * intros j e2 Hj Hlt. apply lookup_lt_Some in Hi as Hilt.
        destruct (Hback j e2 Hj) as (e1' & He1' & Hs'); [lia|].
        apply sealed_or_same_fields in Hs' as (_ & -> & _). by eapply Hfirst.
    + by apply sealed_or_same_fields in Hs as (-> & _).
Qed.

Lemma getToken_finds_first_entry_with_id_witness :
  exists L' e e0,
    addToken 5 (sample_token 2) ledger_of_5 = Ok (L', e) /\
    index e = 5 /\
    getToken "TOKEN_2" ledger_of_5 = Some e0 /\
    exists e1, getToken "TOKEN_2" L' = Some e1 /\ index e1 = 2.
Proof.
  destruct getToken_finds_first_entry_with_id as (_ & _ & Hadd).
  destruct (addToken 5 (sample_token 2) ledger_of_5) as [[L' e]|m] eqn:Ha;
    [|by vm_compute in Ha].
  destruct (getToken "TOKEN_2" ledger_of_5) as [e0|] eqn:H0;
    [|by vm_compute in H0].
  destruct (Hadd 5 (sample_token 2) ledger_of_5 L' e Ha) as [_ Hdup].
  destruct (Hdup e0 H0) as (e1 & H1 & _ & Hidx).
  exists L', e, e0. split; [done|]. split.
  - vm_compute in Ha. by injection Ha as <- <-.
  - split; [done|]. exists e1. split; [exact H1|]. rewrite Hidx.
    vm_compute in H0. by injection H0 as <-.
Defined.

Lemma addToken_map_field {B} (f : Entry -> B) now token L L' e :
  (forall e1 e2, sealed_or_same e1 e2 -> f e2 = f e1) ->
  addToken now token L = Ok (L', e) ->
  map f (ledger L') = map f (ledger L) ++ [f (new_entry now token L)].
Proof.
  intros Hf Hadd.
  destruct (addToken_shape now token L L' e Hadd) as (Hlen & _ & Hrel & _).
  cbn zeta in Hrel.
  change (map f (ledger L) ++ [f (new_entry now token L)])
    with (map f (ledger L) ++ map f [new_entry now token L]).
  rewrite <- map_app. apply list_eq. intros j.
  change (map f ?x) with (f <$> x). rewrite !list_lookup_fmap.
  destruct ((ledger L ++ [new_entry now token L]) !! j) as [e1|] eqn:H1.
  - destruct (Hrel j e1 H1) as (e2 & -> & Hs). simpl. f_equal. by apply Hf.
  - apply lookup_ge_None in H1. rewrite length_app in H1. simpl in H1.
    rewrite lookup_ge_None_2 by lia. done.
Qed.

Lemma appendAll_fields inputs : forall L L',
  appendAll inputs L = Ok L' ->
  map value (ledger L')
  = map value (ledger L) ++ map (fun p => t_value (snd p)) inputs /\
  map token_type (ledger L')
  = map token_type (ledger L) ++ map (fun p => type (snd p)) inputs.
Proof.
  induction inputs as [|[now token] inputs IH]; intros L L' Hrun.
  - injection Hrun as <-. by rewrite !app_nil_r.
  - cbn [appendAll] in Hrun.
    destruct (addToken now token L) as [[L1 e]|m] eqn:Hadd; [|done].
    destruct (IH L1 L' Hrun) as [Hv Ht]. rewrite Hv, Ht.
    rewrite (addToken_map_field value _ _ _ _ _ (fun e1 e2 H =>
               proj1 (proj2 (proj2 (proj2 (proj2
                 (sealed_or_same_fields e1 e2 H)))))) Hadd).
    rewrite (addToken_map_field token_type _ _ _ _ _ (fun e1 e2 H =>
               proj1 (proj2 (proj2 (sealed_or_same_fields e1 e2 H)))) Hadd).
    cbn [map snd new_entry value token_type]. by rewrite <- !app_assoc.
Qed.






Lemma to_int32_range z : - 2 ^ 31 <= to_int32 z < 2 ^ 31.
Proof. unfold to_int32. lia. Qed.

Lemma to_int32_congr a b k : a = b + 2 ^ 32 * k -> to_int32 a = to_int32 b.
Proof.
  intros ->. unfold to_int32.
  replace (b + 2 ^ 32 * k + 2 ^ 31) with (b + 2 ^ 31 + k * 2 ^ 32) by lia.
  by rewrite Z.mod_add by lia.
Qed.

Lemma to_int32_wraps z : exists k, to_int32 z = z + 2 ^ 32 * k.
Proof.
  exists (- ((z + 2 ^ 31) / 2 ^ 32)). unfold to_int32.
  pose proof (Z.div_mod (z + 2 ^ 31) (2 ^ 32)). lia.
Qed.

Lemma to_int32_small z : - 2 ^ 31 <= z < 2 ^ 31 -> to_int32 z = z.
Proof. intros Hz. unfold to_int32. rewrite Z.mod_small; lia. Qed.

Lemma rolling_step_horner (H : Z) (c : ascii) :
  rolling_step (to_int32 H) c
  = to_int32 (31 * H + Z.of_nat (nat_of_ascii c)).
Proof.
  unfold rolling_step. rewrite Z.shiftl_mul_pow2 by lia.
  rewrite (to_int32_small (to_int32 H)) by apply to_int32_range.
  destruct (to_int32_wraps H) as [k1 Hk1].
  destruct (to_int32_wraps (to_int32 H * 2 ^ 5)) as [k2 Hk2].
  apply (to_int32_congr _ _ (31 * k1 + k2)). lia.
Qed.

Lemma rolling_hash_horner data :
  rolling_hash data = to_int32 (horner31 data).
Proof.
  unfold rolling_hash, horner31.
  assert (Hgen : forall cs H,
            foldl rolling_step (to_int32 H) cs
            = to_int32 (foldl (fun h c => 31 * h + Z.of_nat (nat_of_ascii c))
                          H cs)).
  { induction cs as [|c cs IH]; intros H; [done|].
    cbn [foldl]. rewrite rolling_step_horner. apply IH. }
  exact (Hgen _ 0).
Qed.

(** X15: the rolling hash of [calculateHash] and [calculateBatchHash] is the
    polynomial hash with multiplier 31 over the character codes, reduced to
    a signed 32-bit integer: it always lies in [-2^31, 2^31), and it is the
    polynomial itself as long as that fits. *)
Theorem rolling_hash_is_polynomial_mod_2_32 data :
  rolling_hash data = to_int32 (horner31 data) /\
  - 2 ^ 31 <= rolling_hash data < 2 ^ 31 /\
  (horner31 data < 2 ^ 31 -> rolling_hash data = horner31 data).
Proof.
  pose proof (rolling_hash_horner data) as Hpoly.
  assert (Hnonneg : 0 <= horner31 data).
  { unfold horner31.
    assert (Hge : forall cs H, 0 <= H ->
              0 <= foldl (fun h c => 31 * h + Z.of_nat (nat_of_ascii c)) H cs).
    { induction cs as [|c cs IH]; intros H HH; [done|].
      cbn [foldl]. apply IH. lia. }
    apply Hge. lia. }
  split; [done|]. split.
  - rewrite Hpoly. apply to_int32_range.
  - intros Hfit. rewrite Hpoly. apply to_int32_small. lia.
Qed.

Lemma rolling_hash_is_polynomial_mod_2_32_witness :
  rolling_hash "abc" = 97 * 31 ^ 2 + 98 * 31 + 99 /\
  rolling_hash "hello world" = to_int32 (horner31 "hello world").
Proof.
  destruct (rolling_hash_is_polynomial_mod_2_32 "abc") as (_ & _ & Hfit).
  destruct (rolling_hash_is_polynomial_mod_2_32 "hello world") as (Hp & _).
  split; [|exact Hp]. rewrite Hfit; [reflexivity|]. vm_compute. reflexivity.
Defined.

Lemma hex_digit_spec (x : N) d :
  (x < 16)%N ->
  HexadecimalPos.Unsigned.hd (hex_digit x d) = x /\
  HexadecimalPos.Unsigned.tl (hex_digit x d) = d /\
  Hexadecimal.nb_digits (hex_digit x d) = S (Hexadecimal.nb_digits d).
Proof.
  intros Hx.
  assert (Hcases : (x = 0 \/ x = 1 \/ x = 2 \/ x = 3 \/ x = 4 \/ x = 5 \/
                    x = 6 \/ x = 7 \/ x = 8 \/ x = 9 \/ x = 10 \/ x = 11 \/
                    x = 12 \/ x = 13 \/ x = 14 \/ x = 15)%N) by lia.
  repeat (destruct Hcases as [->|Hcases]; [done|]).
  subst x. done.
Qed.

Lemma nibbles_lu_value (k : nat) : forall n : N,
  HexadecimalPos.Unsigned.of_lu (nibbles_lu k n) = (n mod 16 ^ N.of_nat k)%N /\
  Hexadecimal.nb_digits (nibbles_lu k n) = k.
Proof.
  induction k as [|k IH]; intros n.
  - simpl. split; [|done]. by rewrite N.mod_1_r.
  - cbn [nibbles_lu].
    assert (Hx : (n mod 16 < 16)%N) by (apply N.mod_lt; lia).
    destruct (hex_digit_spec (n mod 16) (nibbles_lu k (n / 16)) Hx)
      as (Hhd & Htl & Hnb).
    destruct (IH (n / 16)%N) as [Hv Hk].
    rewrite HexadecimalPos.Unsigned.of_lu_eqn, Hhd, Htl, Hv, Hnb, Hk.
    split; [|done].
    rewrite Nat2N.inj_succ, N.pow_succ_r by lia.
    rewrite N.Div0.mod_mul_r. lia.
Qed.

Lemma hex_digits_bound (n : N) (k : nat) :
  (0 < k)%nat -> (n < 16 ^ N.of_nat k)%N ->
  (1 <= Hexadecimal.nb_digits (N.to_hex_uint n) <= k)%nat.
Proof.
  intros Hk Hn.
  set (d := Hexadecimal.rev (nibbles_lu k n)).
  destruct (nibbles_lu_value k n) as [Hv Hd].
  assert (Hof : N.of_hex_uint d = n).
  { unfold N.of_hex_uint, d.
    rewrite HexadecimalPos.Unsigned.of_uint_alt, HexadecimalFacts.rev_rev, Hv.
    by apply N.mod_small. }
  assert (Hnb : Hexadecimal.nb_digits d = k)
    by (unfold d; by rewrite HexadecimalFacts.nb_digits_rev).
  rewrite <- Hof, HexadecimalN.Unsigned.to_of.
  assert (Hnil : d <> Hexadecimal.Nil).
  { intros E. rewrite E in Hnb. simpl in Hnb. lia. }
  pose proof (HexadecimalFacts.nb_digits_unorm d Hnil) as Hle.
  rewrite Hnb in Hle. split; [|done].
  destruct (Hexadecimal.unorm d) eqn:Hu; simpl; try lia.
  unfold Hexadecimal.unorm in Hu. by destruct (Hexadecimal.nzhead d).
Qed.

Lemma hex_string_length (u : Hexadecimal.uint) :
  u <> Hexadecimal.Nil ->
  String.length (HexadecimalString.NilZero.string_of_uint u)
  = Hexadecimal.nb_digits u.
Proof.
  intros Hu.
  assert (Hlen : forall v, String.length
             (HexadecimalString.NilEmpty.string_of_uint v)
           = Hexadecimal.nb_digits v).
  { induction v; simpl; by rewrite ?IHv. }
  destruct u; try done; apply Hlen.
Qed.

Lemma string_of_list_ascii_app (a b : list ascii) :
  string_of_list_ascii (a ++ b)
  = string_of_list_ascii a +:+ string_of_list_ascii b.
Proof.
  induction a as [|c a IH]; [done|].
  change (String c (string_of_list_ascii (a ++ b))
          = String c (string_of_list_ascii a +:+ string_of_list_ascii b)).
  by rewrite IH.
Qed.

Lemma string_length_app (a b : string) :
  String.length (a +:+ b) = (String.length a + String.length b)%nat.
Proof.
  induction a as [|c a IH]; [done|].
  change (S (String.length (a +:+ b))
          = S (String.length a + String.length b)).
  by rewrite IH.
Qed.

Lemma string_length_replicate (n : nat) (c : ascii) :
  String.length (string_of_list_ascii (replicate n c)) = n.
Proof. induction n as [|n IH]; [done|]. cbn. by rewrite IH. Qed.

Lemma string_app_assoc (a b c : string) : (a +:+ b) +:+ c = a +:+ b +:+ c.
Proof.
  induction a as [|x a IH]; [done|].
  change (String x ((a +:+ b) +:+ c) = String x (a +:+ b +:+ c)).
  by rewrite IH.
Qed.

(** [padStart] of the hexadecimal form of a 32-bit magnitude to [8 + m]
    characters: [m] zeros, then eight characters. *)
Lemma padStart_hex32 (h : Z) (m : nat) :
  0 <= h <= 2 ^ 31 ->
  exists digits,
    String.length digits = 8%nat /\
    padStart (js_hex h) (m + 8) "0"
    = string_of_list_ascii (replicate m "0"%char) +:+ digits.
Proof.
  intros Hh. unfold js_hex, padStart.
  set (u := N.to_hex_uint (Z.to_N h)).
  assert (Hk : (1 <= Hexadecimal.nb_digits u <= 8)%nat).
  { apply hex_digits_bound; [lia|]. change (16 ^ N.of_nat 8)%N with 4294967296%N.
    lia. }
  assert (Hu : u <> Hexadecimal.Nil).
  { intros E. rewrite E in Hk. simpl in Hk. lia. }
  rewrite (hex_string_length u Hu).
  set (k := Hexadecimal.nb_digits u) in *.
  exists (string_of_list_ascii (replicate (8 - k) "0"%char)
          +:+ HexadecimalString.NilZero.string_of_uint u).
  split.
  - rewrite string_length_app, string_length_replicate, hex_string_length by done.
    fold k. lia.
  - rewrite <- string_app_assoc, <- string_of_list_ascii_app, <- replicate_add.
    do 3 f_equal. lia.
Qed.

(** X16: every entry hash is 18 characters: ['0x'], eight zeros, and eight
    characters for the 32-bit value; every Merkle root hash is 34
    characters: ['0x'], 24 zeros, and eight characters.  Of the 16 and 32
    digits the formats promise, only the last eight ever vary. *)
Theorem hashes_carry_32_bits :
  (forall token,
     exists digits,
       String.length digits = 8%nat /\
       calculateHash token = "0x00000000" +:+ digits) /\
  (forall batch,
     exists digits,
       String.length digits = 8%nat /\
       calculateBatchHash batch
       = "0x000000000000000000000000" +:+ digits).
Proof.
  assert (Habs : forall data, 0 <= Z.abs (rolling_hash data) <= 2 ^ 31).
  { intros data. rewrite rolling_hash_horner.
    pose proof (to_int32_range (horner31 data)). lia. }
  split.
  - intros token. unfold calculateHash.
    destruct (padStart_hex32 _ 8 (Habs (id token +:+ type token
                +:+ t_owner token +:+ js_string_of_int (t_value token)
                +:+ t_timestamp token))) as (digits & Hlen & Heq).
    change (8 + 8)%nat with 16%nat in Heq. rewrite Heq. by exists digits.
  - intros batch. unfold calculateBatchHash.
    destruct (padStart_hex32 _ 24 (Habs (String.concat "" (map hash batch))))
      as (digits & Hlen & Heq).
    change (24 + 8)%nat with 32%nat in Heq. rewrite Heq. by exists digits.
Qed.

End LedgerMore.

(** ** The batch queue *)

Module BatchMore.
Import Batch BatchFacts.

Section ProcessorMore.
Context {Token M F : Type} `{!Collaborators Token M F}.
Implicit Types (bp : @BatchProcessor Token) (w : M * F).
Implicit Types (s : @System Token M F).

Lemma processBatch_end_history (results : @BatchResults Token) bp :
  last (batchHistory (processBatch_end results bp)) = Some results /\
  (length (batchHistory (processBatch_end results bp)) <= 50)%nat /\
  (length (batchHistory (processBatch_end results bp))
   <= S (length (batchHistory bp)))%nat.
Proof.
  unfold processBatch_end. cbn [batchHistory].
  set (h := batchHistory bp ++ [results]).
  assert (Hh : length h = S (length (batchHistory bp)))
    by (subst h; rewrite length_app; simpl; lia).
  destruct (Z.ltb_spec 50 (Z.of_nat (length h))) as [Hbig|Hsmall].
  - assert (Hs : js_slice h (-50) None = drop (length h - 50) h).
    { apply (js_slice_suffix h (take (length h - 50) h)
               (drop (length h - 50) h) 50).
      - by rewrite take_drop.
      - rewrite length_drop. lia.
      - lia. }
    rewrite Hs. split; [|split].
    + subst h. rewrite drop_app_le by (rewrite length_app in *; simpl in *; lia).
      by rewrite last_snoc.
    + rewrite length_drop. lia.
    + rewrite length_drop. lia.
  - split; [|split]; [|lia|lia]. subst h. by rewrite last_snoc.
Qed.

(** X17: the edges of [processBatch] when no batch is in flight.  With an
    empty queue and an absent or non-negative size it answers
    'Queue is empty' and changes nothing.  With no size, or size 0, it drains
    [min(maxBatchSize, length)] requests.  With a negative size it passes both
    guards: it removes nothing, calls no collaborator, and still records an
    empty result carrying that negative size in the history. *)
Theorem processBatch_size_edges now rnd bp w :
  processing bp = false ->
  (forall batchSize,
     queue bp = [] -> 0 <= maxBatchSize bp ->
     (forall b, batchSize = Some b -> 0 <= b) ->
     processBatch now rnd batchSize bp w
     = (bp, w, ReplyMessage "Queue is empty")) /\
  (forall batchSize,
     batchSize = None \/ batchSize = Some 0 ->
     queue bp <> [] -> 0 < maxBatchSize bp ->
     exists bp' w' results,
       processBatch now rnd batchSize bp w = (bp', w', ReplyResults results) /\
       size results = Z.min (maxBatchSize bp) (Z.of_nat (length (queue bp))) /\
       queue bp' = drop (Z.to_nat (size results)) (queue bp)) /\
  (forall b,
     b < 0 ->
     exists bp',
       processBatch now rnd (Some b) bp w
       = (bp', w,
          ReplyResults {| batch_id := generateBatchId now rnd;
                          b_timestamp := now; size := b;
                          tokens := []; errors := [] |}) /\
       queue bp' = queue bp /\ processing bp' = false /\
       last (batchHistory bp')
       = Some {| batch_id := generateBatchId now rnd;
                 b_timestamp := now; size := b;
                 tokens := []; errors := [] |}).
Proof.
  intros Hp. split; [|split].
  - intros batchSize Hq Hmax Hb. unfold processBatch, processBatch_begin.
    rewrite Hp, Hq. cbn [length].
    assert (Hsz : Z.min match batchSize with
                        | Some b => if b =? 0 then maxBatchSize bp else b
                        | None => maxBatchSize bp
                        end (Z.of_nat 0) = 0).
    { destruct batchSize as [b|]; [|lia].
      specialize (Hb b eq_refl). destruct (Z.eqb_spec b 0); lia. }
    by rewrite Hsz.
  - intros batchSize Hsize Hq Hmax.
    assert (Hlen : 0 < Z.of_nat (length (queue bp)))
      by (destruct (queue bp); [done|simpl; lia]).
    set (n := Z.min (maxBatchSize bp) (Z.of_nat (length (queue bp)))).
    assert (Hbegin : processBatch_begin now rnd batchSize bp
                     = processBatch_begin now rnd (Some n) bp).
    { unfold processBatch_begin. rewrite Hp.
      destruct (Z.eqb_spec n 0) as [|_]; [lia|].
      replace (Z.min n (Z.of_nat (length (queue bp)))) with n by lia.
      by destruct Hsize as [->| ->]. }
    unfold processBatch. rewrite Hbegin.
    rewrite processBatch_begin_drains by (done || lia).
    cbn [job_i job_rest job_results].
    pose proof (process_items_outcomes (take (Z.to_nat n) (queue bp)) 0
                  {| batch_id := generateBatchId now rnd; b_timestamp := now;
                     size := n; tokens := []; errors := [] |} w) as Hloop.
    cbn zeta in Hloop.
    destruct (process_items 0 _ _ w) as [results w'].
    destruct Hloop as (_ & _ & _ & _ & Hsz). cbn [fst size] in Hsz.
    eexists _, w', results. split; [reflexivity|]. by rewrite Hsz.
  - intros b Hb. unfold processBatch, processBatch_begin. rewrite Hp.
    destruct (Z.eqb_spec b 0) as [|_]; [lia|].
    replace (Z.min b (Z.of_nat (length (queue bp)))) with b by lia.
    destruct (Z.eqb_spec b 0) as [|_]; [lia|].
    unfold js_splice0.
    replace (Z.to_nat (Z.min (Z.max b 0) (Z.of_nat (length (queue bp)))))
      with 0%nat by lia.
    rewrite take_0, drop_0. cbn [job_i job_rest job_results process_items].
    eexists. split; [reflexivity|]. split; [done|]. split; [done|].
    apply processBatch_end_history.
Qed.

(** X18: however calls interleave, the processor keeps at most the last 50
    batch results and its batch size limit stays 100; a batch that finishes
    is always the newest entry of the history. *)
Theorem batch_history_keeps_last_50 :
  (forall s,
     reachable s ->
     (length (batchHistory (bp s)) <= 50)%nat /\ maxBatchSize (bp s) = 100) /\
  (forall (results : @BatchResults Token) bp,
     last (batchHistory (processBatch_end results bp)) = Some results /\
     (length (batchHistory (processBatch_end results bp)) <= 50)%nat).
Proof.
  split.
  - intros s Hs. induction Hs as [w|s s' Hs IH Hstep]; [simpl; split; [lia|done]|].
    destruct Hstep as [now req s|s|now rnd batchSize s bp' reply Hb
                      |now rnd batchSize s bp' job Hb
                      |s js1 js2 i r rest results o w' Hj Ho
                      |s js1 js2 i results Hj]; cbn [bp]; try exact IH.
    + unfold processBatch_begin in Hb.
      destruct (processing (bp s)); [by injection Hb as <- _|].
      destruct (_ =? 0) in Hb; [by injection Hb as <- _|].
      by destruct (js_splice0 _ _).
    + unfold processBatch_begin in Hb.
      destruct (processing (bp s)); [done|].
      destruct (_ =? 0) in Hb; [done|].
      destruct (js_splice0 _ _). by injection Hb as <- _.
    + split; [apply processBatch_end_history|apply IH].
  - intros results bp.
    destruct (processBatch_end_history results bp) as (? & ? & _). done.
Qed.



End ProcessorMore.

Lemma processBatch_size_edges_witness :
  exists bp',
    processBatch 1 "k3x9q" (Some (-3)) sample_processor (100, 0)
    = (bp', (100, 0),
       ReplyResults {| batch_id := generateBatchId 1 "k3x9q";
                       b_timestamp := 1; size := -3;
                       tokens := []; errors := [] |}) /\
    length (queue bp') = 12%nat /\ length (batchHistory bp') = 1%nat.
Proof.
  assert (Hp : processing sample_processor = false) by reflexivity.
  destruct (processBatch_size_edges 1 "k3x9q" sample_processor (100, 0) Hp)
    as (_ & _ & Hneg).
  destruct (Hneg (-3)) as (bp' & Hrun & Hq & _); [lia|].
  exists bp'. split; [exact Hrun|]. split; [by rewrite Hq|].
  assert (Hrun' := Hrun). vm_compute in Hrun'. by injection Hrun' as <-.
Defined.

Lemma batch_history_keeps_last_50_witness :
  (length (batchHistory (bp sample_in_flight)) <= 50)%nat /\
  maxBatchSize (bp sample_in_flight) = 100.
Proof.
  exact (proj1 (@batch_history_keeps_last_50 string Z Z sample_collaborators)
           sample_in_flight sample_in_flight_reachable).
Defined.


End BatchMore.

(** ** The ALC minter *)

Module MinterFacts.
Import Minter.

Lemma checkCapacitorCharge_true s :
  checkCapacitorCharge s = true
  <-> (threshold (config s) <= capacitorCharge s)%Q.
Proof. apply Qle_bool_iff. Qed.

Lemma checkCapacitorCharge_false s :
  checkCapacitorCharge s = false
  <-> (capacitorCharge s < threshold (config s))%Q.
Proof.
  unfold checkCapacitorCharge. split.
  - intros Hb. apply Qnot_le_lt. intros Hle.
    apply Qle_bool_iff in Hle. congruence.
  - intros Hlt. destruct (Qle_bool _ _) eqn:Hb; [|done].
    apply Qle_bool_iff in Hb. apply Qlt_not_le in Hlt. contradiction.
Qed.

(** The three ways [mint] can end. *)
Lemma mint_cases now rnd_sig rnd_id r s :
  (validateMintRequest r s = false /\
   mint now rnd_sig rnd_id r s = (s, MintRefused "Invalid mint request")) \/
  (validateMintRequest r s = true /\ checkCapacitorCharge s = false /\
   mint now rnd_sig rnd_id r s
   = (s, MintRefused "Insufficient capacitor charge")) \/
  (validateMintRequest r s = true /\ checkCapacitorCharge s = true /\
   exists t tr,
     Ledger.truthy_string (r_trigger r) = Some t /\
     minting_triggers (config s) !! t = Some tr /\ enabled tr = true /\
     let token := new_token now rnd_sig rnd_id r tr s in
     let s' := {| config := config s;
                  totalMinted := totalMinted s + value token;
                  inCirculation := inCirculation s + value token;
                  mintingHistory := mintingHistory s ++ [token];
                  capacitorCharge := Qmax 0 (capacitorCharge s - 20)%Q |} in
     mint now rnd_sig rnd_id r s = (s', MintDone token (getStats now s'))).
Proof.
  unfold mint. destruct (validateMintRequest r s) eqn:Hv; [|by left].
  right. destruct (checkCapacitorCharge s) eqn:Hc; [|by left].
  right. split; [done|]. split; [done|].
  unfold validateMintRequest in Hv.
  destruct (Ledger.truthy_string (r_trigger r)) as [t|] eqn:Ht; [|done].
  destruct (Ledger.truthy_string (r_owner r)); [|done].
  destruct (minting_triggers (config s) !! t) as [tr|] eqn:Htr; [|done].
  exists t, tr. split; [done|]. split; [done|]. split; [done|]. cbn zeta.
  assert (Hkey : default "" (r_trigger r) = t).
  { unfold Ledger.truthy_string in Ht. destruct (r_trigger r) as [x|]; [|done].
    simpl. by case_bool_decide; simplify_eq. }
  simpl negb. cbv iota. by rewrite Hkey, Htr.
Qed.

Lemma call_config c s : config (call c s) = config s.
Proof.
  destruct c as [now rs ri r|a|a]; [|done|done]. cbn [call].
  destruct (mint_cases now rs ri r s)
    as [[_ ->]|[(_ & _ & ->)|(_ & _ & t & tr & _ & _ & _ & ->)]]; done.
Qed.



(** X21: a mint discharges the capacitor by 20.  When the threshold is above
    80 and the charge is at most 100, as it is after the minter's own
    charging calls, a successful mint leaves the charge below the threshold:
    the next valid request is refused with 'Insufficient capacitor charge'
    and changes nothing, until the capacitor is charged again.  The minted
    value is the requested amount, or the trigger's base amount when the
    amount is absent or 0. *)
Theorem mint_needs_recharge now rs ri r s s' token stats :
  (80 < threshold (config s))%Q ->
  (capacitorCharge s <= 100)%Q ->
  mint now rs ri r s = (s', MintDone token stats) ->
  (capacitorCharge s' == Qmax 0 (capacitorCharge s - 20))%Q /\
  (exists tr,
     minting_triggers (config s) !! default "" (r_trigger r) = Some tr /\
     value token = match r_amount r with
                   | Some a => if a =? 0 then base_amount tr else a
                   | None => base_amount tr
                   end) /\
  (forall now' rs' ri' r',
     validateMintRequest r' s' = true ->
     mint now' rs' ri' r' s'
     = (s', MintRefused "Insufficient capacitor charge")).
Proof.
  intros Hth Hmax Hmint.
  destruct (mint_cases now rs ri r s)
    as [[_ E]|[(_ & _ & E)|(_ & Hc & t & tr & Ht & Htr & _ & E)]];
    rewrite E in Hmint; [done|done|].
  cbn zeta in Hmint. injection Hmint as <- <- _.
  cbn [capacitorCharge config]. split; [reflexivity|]. split.
  - exists tr. split; [|done].
    unfold Ledger.truthy_string in Ht. destruct (r_trigger r) as [x|]; [|done].
    simpl. case_bool_decide; by simplify_eq.
  - intros now' rs' ri' r' Hv'.
    match goal with |- mint _ _ _ _ ?st = _ => set (s' := st) in * end.
    destruct (mint_cases now' rs' ri' r' s')
      as [[Hv _]|[(_ & _ & E')|(_ & Hc' & _)]]; [congruence|done|].
    apply checkCapacitorCharge_true in Hc'. subst s'.
    cbn [capacitorCharge config] in Hc'.
    destruct (Q.max_spec 0 (capacitorCharge s - 20)) as [[? E']|[? E']];
      rewrite E' in Hc'; lra.
Qed.

Lemma mint_needs_recharge_witness :
  let s := chargeCapacitor 100 (constructor Pipeline.sample_config) in
  let r := {| r_trigger := Some "purchase"; r_amount := Some 0;
              r_owner := Some "alice"; r_metadata := ∅ |} in
  exists s' token stats,
    mint 1 "a1b2c3" "d4e5f6" r s = (s', MintDone token stats) /\
    value token = 5 /\
    mint 2 "a1b2c3" "d4e5f6" r s'
    = (s', MintRefused "Insufficient capacitor charge").
Proof.
  cbn zeta.
  set (s := chargeCapacitor 100 (constructor Pipeline.sample_config)).
  set (r := {| r_trigger := Some "purchase"; r_amount := Some 0;
               r_owner := Some "alice"; r_metadata := ∅ |}).
  destruct (mint 1 "a1b2c3" "d4e5f6" r s) as [s' [e|token stats]] eqn:Hmint;
    [by vm_compute in Hmint|].
  assert (Hth : (80 < threshold (config s))%Q) by reflexivity.
  assert (Hmax : (capacitorCharge s <= 100)%Q) by (vm_compute; discriminate).
  destruct (mint_needs_recharge 1 _ _ r s s' token stats Hth Hmax Hmint)
    as (_ & (tr & Htr & Hval) & Hnext).
  exists s', token, stats. split; [done|]. split.
  - rewrite Hval. vm_compute in Htr. by injection Htr as <-.
  - apply Hnext.
    assert (Hcfg : config s' = config s).
    { change s' with (fst (s', MintDone token stats)). rewrite <- Hmint.
      apply (call_config (CallMint 1 "a1b2c3" "d4e5f6" r)). }
    unfold validateMintRequest. rewrite Hcfg. reflexivity.
Defined.

End MinterFacts.

(** ** The token factory *)

Module FactoryFacts.
Import Factory.

Lemma createToken_cases now rnd r s :
  (exists message,
     createToken now rnd r s = (s, Thrown message) /\
     (message = "Unknown token type: " +:+ type_key (r_type r) \/
      message = "Token type " +:+ type_key (r_type r) +:+ " is not mintable" \/
      message = "Token validation failed")) \/
  (exists token,
     createToken now rnd r s
     = ({| rules := rules s; ledger := ledger s ++ [token] |}, Returned token) /\
     validateToken (rules s) token = true /\
     type token = r_type r /\ owner token = r_owner r /\
     value token = r_value r /\
     immutable token = structure_immutable (rules s)).
Proof.
  unfold createToken.
  destruct (token_types (rules s) !! type_key (r_type r)) as [tt|];
    [|left; eauto].
  destruct (mintable tt); simpl negb; cbv iota; [|left; eauto 6].
  match goal with |- context [validateToken ?rs ?t] =>
    destruct (validateToken rs t) eqn:Hv end; simpl negb; cbv iota.
  - right. eexists. split; [reflexivity|]. done.
  - left. eauto 6.
Qed.

Lemma batchCreate_from_accounts inputs : forall i tokens errors s,
  let r := batchCreate_from i inputs tokens errors s in
  exists new_tokens new_errors,
    snd r = (tokens ++ new_tokens, errors ++ new_errors) /\
    ledger (fst r) = ledger s ++ new_tokens /\
    rules (fst r) = rules s /\
    (length new_tokens + length new_errors)%nat = length inputs /\
    Forall (fun e => i <= be_index e < i + Z.of_nat (length inputs))
           new_errors.
Proof.
  induction inputs as [|[[now rnd] r] inputs IH]; intros i tokens errors s;
    cbn zeta.
  - exists [], []. by rewrite !app_nil_r.
  - cbn [batchCreate_from].
    destruct (createToken_cases now rnd r s)
      as [(message & -> & _)|(token & -> & _)].
    + destruct (IH (i + 1) tokens
                  (errors ++ [ {| be_index := i; be_error := message |} ]) s)
        as (nt & ne & Hr & Hl & Hrs & Hlen & Hidx).
      exists nt, ({| be_index := i; be_error := message |} :: ne).
      rewrite Hr, Hl, Hrs, <- app_assoc.
      split; [done|]. split; [done|]. split; [done|]. split.
      * cbn [length]. clear - Hlen. lia.
      * constructor; [cbn [length be_index]; lia|].
        eapply Forall_impl; [exact Hidx|]. cbn [length]. intros; lia.
    + destruct (IH (i + 1) (tokens ++ [token]) errors
                  {| rules := rules s; ledger := ledger s ++ [token] |})
        as (nt & ne & Hr & Hl & Hrs & Hlen & Hidx).
      exists (token :: nt), ne. cbn [ledger rules] in Hl, Hrs.
      rewrite Hr, Hl, Hrs, <- !app_assoc.
      split; [done|]. split; [done|]. split; [done|]. split.
      * cbn [length]. clear - Hlen. lia.
      * eapply Forall_impl; [exact Hidx|]. cbn [length]. intros; lia.
Qed.

(** X22: [batchCreate] accounts for every request: each one yields a token
    or an error, never both and never neither; the factory's ledger grows by
    exactly the tokens returned, in order; every error carries the index of
    its request; a request that fails leaves the factory as it was. *)
Theorem batchCreate_accounts_for_every_request inputs s :
  let r := batchCreate inputs s in
  (length (fst (snd r)) + length (snd (snd r)))%nat = length inputs /\
  ledger (fst r) = ledger s ++ fst (snd r) /\
  Forall (fun e => 0 <= be_index e < Z.of_nat (length inputs)) (snd (snd r)) /\
  (forall now rnd q message,
     snd (createToken now rnd q s) = Thrown message ->
     fst (createToken now rnd q s) = s).
Proof.
  cbn zeta. unfold batchCreate.
  destruct (batchCreate_from_accounts inputs 0 [] [] s)
    as (nt & ne & Hr & Hl & _ & Hlen & Hidx).
  rewrite Hr, Hl. cbn [fst snd app]. repeat split; try done.
  intros now rnd q message Hthrown.
  destruct (createToken_cases now rnd q s)
    as [(m & E & _)|(token & E & _)]; rewrite E in Hthrown |- *; done.
Qed.

Lemma base36_digits_nonempty fuel n : base36_digits fuel n <> [].
Proof.
  destruct fuel; simpl; [done|].
  destruct (n <? 36); [done|]. by destruct (base36_digits fuel (n / 36)).
Qed.

Lemma generateUniqueId_nonempty now rnd ty : generateUniqueId now rnd ty <> "".
Proof.
  unfold generateUniqueId, simpleHash, js_base36.
  set (ds := base36_digits _ _).
  pose proof (base36_digits_nonempty
                (Z.to_nat (Z.log2 (Z.abs (rolling_hash
                   (type_key ty +:+ "_" +:+ js_string_of_int now +:+ "_"
                    +:+ rnd)))))
                (Z.abs (rolling_hash
                   (type_key ty +:+ "_" +:+ js_string_of_int now +:+ "_"
                    +:+ rnd)))) as Hne.
  fold ds in Hne. by destruct ds.
Qed.

(** X23: validation tests required fields for truthiness, so when [value]
    is a required field a request with value 0, or with no value, is
    rejected with 'Token validation failed' whatever [min_value] allows, and
    the factory keeps its ledger.  The id is safe from that test:
    [generateUniqueId] never returns the empty string, so a token that
    carries a generated id never fails on the required field [id]. *)
Theorem required_value_rejects_zero now rnd r s tt :
  token_types (rules s) !! type_key (r_type r) = Some tt ->
  mintable tt = true ->
  "value" ∈ required_fields (rules s) ->
  r_value r = Some 0 \/ r_value r = None ->
  createToken now rnd r s = (s, Thrown "Token validation failed") /\
  (forall now' rnd' ty,
     generateUniqueId now' rnd' ty <> "" /\
     forall t, id t = generateUniqueId now' rnd' ty ->
               field_falsy "id" t = false).
Proof.
  intros Htt Hm Hreq Hval. split.
  - unfold createToken. rewrite Htt, Hm. simpl negb. cbv iota.
    match goal with |- context [validateToken ?rs ?t] =>
      assert (Hv : validateToken rs t = false) end.
    { unfold validateToken.
      match goal with |- context [existsb ?f ?l] =>
        assert (He : existsb f l = true) end.
      { apply existsb_exists. exists "value".
        split; [by apply list_elem_of_In|].
        unfold field_falsy. cbn [value].
        repeat (rewrite bool_decide_eq_false_2 by done).
        rewrite bool_decide_eq_true_2 by done.
        by destruct Hval as [-> | ->]. }
      by rewrite He. }
    by rewrite Hv.
  - intros now' rnd' ty.
    pose proof (generateUniqueId_nonempty now' rnd' ty) as Hid.
    split; [exact Hid|]. intros t Ht. unfold field_falsy.
    rewrite bool_decide_eq_true_2 by done.
    apply bool_decide_eq_false_2. by rewrite Ht.
Qed.

Lemma required_value_rejects_zero_witness :
  let s := constructor Pipeline.sample_rules in
  let r := {| r_type := Some "ART"; r_owner := Some "alice";
              r_value := Some 0; r_metadata := ∅ |} in
  createToken 1 "a1b2c3" r s = (s, Thrown "Token validation failed") /\
  exists token,
    snd (createToken 1 "a1b2c3"
           {| r_type := Some "ART"; r_owner := Some "alice";
              r_value := Some 1; r_metadata := ∅ |} s) = Returned token.
Proof.
  cbn zeta. split.
  - refine (proj1 (required_value_rejects_zero 1 "a1b2c3" _ _ _ _ _ _ _)).
    + reflexivity.
    + reflexivity.
    + cbn. set_solver.
    + by left.
  - vm_compute. eauto.
Defined.

Lemma batchCreate_accounts_for_every_request_witness :
  let s := constructor Pipeline.sample_rules in
  let req v := {| r_type := Some "ART"; r_owner := Some "alice";
                  r_value := Some v; r_metadata := ∅ |} in
  let r := batchCreate [(1, "a1b2c3", req 5); (2, "d4e5f6", req 0);
                        (3, "g7h8i9", req 2000); (4, "j0k1l2", req 7)] s in
  length (fst (snd r)) = 2%nat /\
  map be_index (snd (snd r)) = [1; 2] /\
  ledger (fst r) = fst (snd r) /\
  fst (createToken 2 "d4e5f6" (req 0) s) = s.
Proof.
  cbn zeta.
  set (s := constructor Pipeline.sample_rules).
  set (inputs := [(1, "a1b2c3", _); _; _; _]).
  destruct (batchCreate_accounts_for_every_request inputs s)
    as (_ & Hl & _ & Hfail).
  split; [by vm_compute|]. split; [by vm_compute|]. split; [exact Hl|].
  apply (Hfail 2 "d4e5f6" _ "Token validation failed"). by vm_compute.
Defined.

End FactoryFacts.

(** ** The batch processor with the minter and the factory *)

Module PipelineFacts.
Import Batch BatchFacts Pipeline.

Section WithMinter.
Implicit Types (m : Minter.ALCMinter * Clock) (f : Factory.TokenFactory * Clock).
Implicit Types (batch : list QueuedRequest).

(** What the loop body gets for a request that goes to the minter. *)
Lemma try_mint_alc (r : QueuedRequest) m f :
  uses_alc_minter r = true ->
  let e := readings (snd m) (tick (snd m)) in
  let res := Minter.mint (env_now e) (env_rnd1 e) (env_rnd2 e)
               (minter_request r) (fst m) in
  try_mint r (m, f)
  = (match snd res with
     | Minter.MintDone token _ => inl (inl token)
     | Minter.MintRefused error => inr error
     end, ((fst res, advance (snd m)), f)).
Proof.
  intros Halc. cbn zeta. unfold try_mint. rewrite Halc.
  cbn [mint collaborators fst snd]. unfold collab_mint.
  by destruct (Minter.mint _ _ _ _ _) as [s' [error|token stats]].
Qed.

Lemma alc_batch_refused_when_low batch : forall m f,
  Forall (fun r => uses_alc_minter r = true) batch ->
  (Minter.capacitorCharge (fst m) < Minter.threshold (Minter.config (fst m)))%Q ->
  successes (outcomes batch (m, f)) = [].
Proof.
  induction batch as [|r batch IH]; intros m f Halc Hlow; [done|].
  inversion Halc as [|? ? Hr Hrest]; subst.
  cbn [outcomes]. rewrite try_mint_alc by done. cbn zeta.
  set (e := readings (snd m) (tick (snd m))).
  destruct (MinterFacts.mint_cases (env_now e) (env_rnd1 e) (env_rnd2 e)
              (minter_request r) (fst m))
    as [[_ E]|[(_ & _ & E)|(_ & Hc & _)]].
  - rewrite E. cbn [fst snd successes]. by apply IH.
  - rewrite E. cbn [fst snd successes]. by apply IH.
  - apply MinterFacts.checkCapacitorCharge_true in Hc.
    apply Qlt_not_le in Hlow. contradiction.
Qed.

Lemma alc_batch_at_most_one batch : forall m f,
  Forall (fun r => uses_alc_minter r = true) batch ->
  (80 < Minter.threshold (Minter.config (fst m)))%Q ->
  (Minter.capacitorCharge (fst m) <= 100)%Q ->
  (length (successes (outcomes batch (m, f))) <= 1)%nat.
Proof.
  induction batch as [|r batch IH]; intros m f Halc Hth Hmax; [simpl; lia|].
  inversion Halc as [|? ? Hr Hrest]; subst.
  cbn [outcomes]. rewrite try_mint_alc by done. cbn zeta.
  set (e := readings (snd m) (tick (snd m))).
  destruct (MinterFacts.mint_cases (env_now e) (env_rnd1 e) (env_rnd2 e)
              (minter_request r) (fst m))
    as [[_ E]|[(_ & _ & E)|(_ & Hc & t & tr & _ & _ & _ & E)]].
  - rewrite E. cbn [fst snd successes]. by apply IH.
  - rewrite E. cbn [fst snd successes]. by apply IH.
  - cbn zeta in E. rewrite E. cbn [fst snd successes length].
    rewrite alc_batch_refused_when_low; [simpl; lia|done|].
    cbn [fst Minter.capacitorCharge Minter.config].
    destruct (Q.max_spec 0 (Minter.capacitorCharge (fst m) - 20))
      as [[? ->]|[? ->]]; lra.
Qed.

(** X24: a batch sent to the ALC minter mints at most one token.  Every mint
    discharges the minter's capacitor by 20 and nothing charges it while the
    batch runs, so with a threshold above 80 and a charge of at most 100 the
    requests after the first success all fail; the batch still accounts for
    every request. *)
Theorem alc_batch_mints_at_most_one now rnd (n : Z) bp m f :
  processing bp = false ->
  0 < n <= Z.of_nat (length (queue bp)) ->
  Forall (fun r => uses_alc_minter r = true) (take (Z.to_nat n) (queue bp)) ->
  (80 < Minter.threshold (Minter.config (fst m)))%Q ->
  (Minter.capacitorCharge (fst m) <= 100)%Q ->
  exists bp' w' results,
    processBatch now rnd (Some n) bp (m, f) = (bp', w', ReplyResults results) /\
    (length (tokens results) <= 1)%nat /\
    Z.of_nat (length (tokens results)) + Z.of_nat (length (errors results)) = n /\
    snd w' = f.
Proof.
  intros Hp Hn Halc Hth Hmax. unfold processBatch.
  rewrite processBatch_begin_drains by done.
  cbn [job_i job_rest job_results].
  set (batch := take (Z.to_nat n) (queue bp)) in *.
  pose proof (process_items_outcomes batch 0
                {| batch_id := generateBatchId now rnd; b_timestamp := now;
                   size := n; tokens := []; errors := [] |} (m, f)) as Hloop.
  cbn zeta in Hloop.
  assert (Hf : forall batch i (results : @BatchResults Token) m f,
            Forall (fun r => uses_alc_minter r = true) batch ->
            snd (snd (process_items i batch results (m, f))) = f).
  { clear. induction batch as [|r batch IH]; intros i results m f Halc; [done|].
    inversion Halc as [|? ? Hr Hrest]; subst. cbn [process_items].
    rewrite try_mint_alc by done. cbn zeta. by apply IH. }
  specialize (Hf batch 0 {| batch_id := generateBatchId now rnd;
                            b_timestamp := now; size := n; tokens := [];
                            errors := [] |} m f Halc).
  destruct (process_items 0 batch _ (m, f)) as [results w'].
  cbn [fst snd tokens errors app] in Hloop, Hf.
  destruct Hloop as (Ht & He & _).
  eexists _, w', results. split; [reflexivity|].
  rewrite Ht, He. split; [by apply alc_batch_at_most_one|]. split; [|done].
  pose proof (successes_failures_length batch 0 (outcomes batch (m, f))
                (outcomes_length batch (m, f))) as Hsum.
  assert (length batch = Z.to_nat n) by (subst batch; rewrite length_take; lia).
  lia.
Qed.

End WithMinter.

Lemma alc_batch_mints_at_most_one_witness :
  exists bp' w' results,
    processBatch 7 "k3x9q" (Some 3) sample_alc_processor
      ((sample_minter, sample_clock),
       (Factory.constructor sample_rules, sample_clock))
    = (bp', w', ReplyResults results) /\
    (length (tokens results) <= 1)%nat /\
    Z.of_nat (length (tokens results)) + Z.of_nat (length (errors results)) = 3 /\
    snd w' = (Factory.constructor sample_rules, sample_clock).
Proof.
  apply (alc_batch_mints_at_most_one 7 "k3x9q" 3 sample_alc_processor
           (sample_minter, sample_clock)
           (Factory.constructor sample_rules, sample_clock)).
  - reflexivity.
  - vm_compute. split; [reflexivity|discriminate].
  - vm_compute. repeat constructor.
  - by vm_compute.
  - vm_compute. discriminate.
Defined.

(** X25: what the ledger accepts.  A token minted by the ALC minter is
    always immutable, so [addToken] never throws on it.  A token made by the
    factory carries the [immutable] flag of the factory's rules: [addToken]
    accepts it when the rules say immutable and throws
    'Only immutable tokens can be added to ledger' when they do not. *)
Theorem ledger_accepts_minted_tokens iso now' L :
  (forall now rs ri r s s' token stats,
     Minter.mint now rs ri r s = (s', Minter.MintDone token stats) ->
     exists L' e,
       Ledger.addToken now' (ledger_token_of_alc iso token) L
       = Ledger.Ok (L', e)) /\
  (forall now rnd r s s' token lt,
     Factory.createToken now rnd r s = (s', Factory.Returned token) ->
     ledger_token_of_factory iso token = Some lt ->
     if Factory.structure_immutable (Factory.rules s)
     then exists L' e, Ledger.addToken now' lt L = Ledger.Ok (L', e)
     else Ledger.addToken now' lt L
          = Ledger.Throw "Only immutable tokens can be added to ledger").
Proof.
  split.
  - intros now rs ri r s s' token stats Hmint.
    apply LedgerFacts.addToken_immutable.
    destruct (MinterFacts.mint_cases now rs ri r s)
      as [[_ E]|[(_ & _ & E)|(_ & _ & t & tr & _ & _ & _ & E)]];
      rewrite E in Hmint; [done|done|].
    cbn zeta in Hmint. by injection Hmint as _ <- _.
  - intros now rnd r s s' token lt Hcreate Hlt.
    assert (Himm : Ledger.t_immutable lt
                   = Factory.structure_immutable (Factory.rules s)).
    { destruct (FactoryFacts.createToken_cases now rnd r s)
        as [(m & E & _)|(token' & E & _ & _ & _ & _ & Hi)];
        rewrite E in Hcreate; [done|].
      injection Hcreate as _ <-.
      unfold ledger_token_of_factory in Hlt.
      destruct (Factory.type token'), (Factory.owner token'),
               (Factory.value token'); try done.
      by injection Hlt as <-. }
    destruct (Factory.structure_immutable (Factory.rules s)).
    + by apply LedgerFacts.addToken_immutable.
    + unfold Ledger.addToken. by rewrite Himm.
Qed.

Lemma ledger_accepts_minted_tokens_witness :
  let req := {| Minter.r_trigger := Some "purchase"; Minter.r_amount := None;
                Minter.r_owner := Some "alice"; Minter.r_metadata := ∅ |} in
  let freq := {| Factory.r_type := Some "ART"; Factory.r_owner := Some "alice";
                 Factory.r_value := Some 5; Factory.r_metadata := ∅ |} in
  (exists s' token stats L' e,
     Minter.mint 7 "a1b2c3" "d4e5f6" req sample_minter
     = (s', Minter.MintDone token stats) /\
     Ledger.addToken 9 (ledger_token_of_alc js_string_of_int token)
       Ledger.constructor = Ledger.Ok (L', e)) /\
  (exists s' token lt L' e,
     Factory.createToken 7 "a1b2c3" freq (Factory.constructor sample_rules)
     = (s', Factory.Returned token) /\
     ledger_token_of_factory js_string_of_int token = Some lt /\
     Ledger.addToken 9 lt Ledger.constructor = Ledger.Ok (L', e)).
Proof.
  cbn zeta.
  destruct (ledger_accepts_minted_tokens js_string_of_int 9 Ledger.constructor)
    as [Halc Hfac].
  split.
  - assert (Hm : exists s' token stats,
              Minter.mint 7 "a1b2c3" "d4e5f6"
                {| Minter.r_trigger := Some "purchase";
                   Minter.r_amount := None;
                   Minter.r_owner := Some "alice"; Minter.r_metadata := ∅ |}
                sample_minter = (s', Minter.MintDone token stats))
      by (vm_compute; eauto).
    destruct Hm as (s' & token & stats & Hm).
    destruct (Halc _ _ _ _ _ _ _ _ Hm) as (L' & e & Hadd).
    exists s', token, stats, L', e. split; [exact Hm | exact Hadd].
  - assert (Hc : exists s' token lt,
              Factory.createToken 7 "a1b2c3"
                {| Factory.r_type := Some "ART";
                   Factory.r_owner := Some "alice";
                   Factory.r_value := Some 5; Factory.r_metadata := ∅ |}
                (Factory.constructor sample_rules)
              = (s', Factory.Returned token) /\
              ledger_token_of_factory js_string_of_int token = Some lt)
      by (vm_compute; eauto).
    destruct Hc as (s' & token & lt & Hc & Hlt).
    pose proof (Hfac _ _ _ _ _ _ _ Hc Hlt) as Hadd.
    change (Factory.structure_immutable
              (Factory.rules (Factory.constructor sample_rules)))
      with true in Hadd.
    destruct Hadd as (L' & e & Hadd).
    exists s', token, lt, L', e.
    split; [exact Hc | split; [exact Hlt | exact Hadd]].
Defined.

End PipelineFacts.

(** ** The intake queue *)

Module ReceiverFacts.
Import Receiver.

Lemma js_sort_insert_perm {A} (compareFn : A -> A -> Z) x l :
  js_sort_insert compareFn x l ≡ₚ x :: l.
Proof.
  induction l as [|y l IH]; cbn [js_sort_insert]; [done|].
  destruct (compareFn x y <=? 0); [done|]. rewrite IH. apply Permutation_swap.
Qed.

Lemma js_sort_perm {A} (compareFn : A -> A -> Z) l :
  js_sort compareFn l ≡ₚ l.
Proof.
  induction l as [|x l IH]; [done|]. cbn [js_sort foldr].
  rewrite js_sort_insert_perm. by constructor.
Qed.

Lemma insert_skip x l1 l2 :
  Forall (fun y => priorityOrder (priority x) < priorityOrder (priority y)) l1 ->
  js_sort_insert by_priority x (l1 ++ l2)
  = l1 ++ js_sort_insert by_priority x l2.
Proof.
  induction 1 as [|y l1 Hy _ IH]; [done|].
  cbn [app js_sort_insert]. unfold by_priority at 1.
  destruct (Z.leb_spec (priorityOrder (priority y) - priorityOrder (priority x)) 0);
    [lia|]. by rewrite IH.
Qed.

Lemma insert_here x l :
  Forall (fun y => priorityOrder (priority y) <= priorityOrder (priority x)) l ->
  js_sort_insert by_priority x l = x :: l.
Proof.
  destruct 1 as [|y l Hy _]; [done|].
  cbn [js_sort_insert]. unfold by_priority.
  by destruct (Z.leb_spec (priorityOrder (priority y) - priorityOrder (priority x)) 0);
    [|lia].
Qed.

Lemma with_priority_Forall p queue :
  Forall (fun r => priority r = p) (with_priority p queue).
Proof. apply Forall_forall. intros r Hr. by apply list_elem_of_filter in Hr as [? _]. Qed.

Lemma with_priority_cons p x queue :
  with_priority p (x :: queue)
  = if decide (priority x = p) then x :: with_priority p queue
    else with_priority p queue.
Proof. unfold with_priority. by rewrite filter_cons. Qed.

(** The sorted queue: the high requests, then the medium ones, then the low
    ones, each group in its order of arrival. *)
Lemma js_sort_by_priority queue :
  js_sort by_priority queue
  = with_priority high queue ++ with_priority medium queue
    ++ with_priority low queue.
Proof.
  induction queue as [|x queue IH]; [done|].
  cbn [js_sort foldr]. fold (js_sort by_priority queue). rewrite IH.
  rewrite !with_priority_cons.
  pose proof (with_priority_Forall high queue) as Hh.
  pose proof (with_priority_Forall medium queue) as Hm.
  pose proof (with_priority_Forall low queue) as Hl.
  destruct (priority x) eqn:Hp; repeat case_decide; try done.
  - apply insert_here. rewrite !Forall_app. rewrite Hp.
    repeat split; (eapply Forall_impl; [eassumption|]);
      intros y ->; simpl; lia.
  - rewrite insert_skip
      by (rewrite Hp; eapply Forall_impl; [exact Hh|]; intros y ->; simpl; lia).
    f_equal. apply insert_here. rewrite !Forall_app, Hp.
    split; (eapply Forall_impl; [eassumption|]); intros y ->; simpl; lia.
  - rewrite insert_skip
      by (rewrite Hp; eapply Forall_impl; [exact Hh|]; intros y ->; simpl; lia).
    f_equal.
    rewrite insert_skip
      by (rewrite Hp; eapply Forall_impl; [exact Hm|]; intros y ->; simpl; lia).
    f_equal. apply insert_here. rewrite Hp.
    eapply Forall_impl; [exact Hl|]. intros y ->; simpl; lia.
Qed.

Lemma filter_head {A} (P : A -> Prop) `{forall x, Decision (P x)} l x rest :
  filter P l = x :: rest ->
  exists i : nat,
    l !! i = Some x /\ P x /\
    forall (j : nat) y, (j < i)%nat -> l !! j = Some y -> ~ P y.
Proof.
  induction l as [|y l IH]; [done|]. rewrite filter_cons.
  destruct (decide (P y)) as [Hy|Hy].
  - intros [= -> <-]. exists 0%nat. split; [done|]. split; [done|]. lia.
  - intros Hf. destruct (IH Hf) as (i & Hi & Hx & Hbefore).
    exists (S i). split; [done|]. split; [done|].
    intros [|j] z Hj Hz; [by injection Hz as <-|].
    apply (Hbefore j); [lia|done].
Qed.

Lemma getNextRequest_sorted s :
  (requestQueue s = [] -> getNextRequest s = (s, None)) /\
  (requestQueue s <> [] ->
   exists next s',
     getNextRequest s = (s', Some next) /\
     endpoints s' = endpoints s /\ receivedCount s' = receivedCount s /\
     next :: requestQueue s'
     = with_priority high (requestQueue s)
       ++ with_priority medium (requestQueue s)
       ++ with_priority low (requestQueue s)).
Proof.
  split.
  - intros Hq. unfold getNextRequest. by rewrite Hq.
  - intros Hq. unfold getNextRequest.
    destruct (requestQueue s) as [|x queue] eqn:Eq; [done|].
    pose proof (js_sort_by_priority (x :: queue)) as Hsort.
    pose proof (js_sort_perm by_priority (x :: queue)) as Hperm.
    destruct (js_sort by_priority (x :: queue)) as [|next rest].
    { by apply Permutation_nil_cons in Hperm. }
    by eexists next, _.
Qed.

(** X26: [getNextRequest] serves by priority, first come first served
    within a priority.  On an empty queue it returns [null] and changes
    nothing.  Otherwise it hands out the oldest request among those of the
    highest priority present, and leaves the others sorted: the high
    requests first, then the medium, then the low, each group in its order
    of arrival. *)
Theorem getNextRequest_serves_by_priority s :
  let queue := requestQueue s in
  (queue = [] -> getNextRequest s = (s, None)) /\
  (queue <> [] ->
   exists next s',
     getNextRequest s = (s', Some next) /\
     endpoints s' = endpoints s /\ receivedCount s' = receivedCount s /\
     next :: requestQueue s'
     = with_priority high queue ++ with_priority medium queue
       ++ with_priority low queue /\
     (forall r, r ∈ queue ->
        priorityOrder (priority r) <= priorityOrder (priority next)) /\
     (exists i : nat,
        queue !! i = Some next /\
        forall (j : nat) r, (j < i)%nat -> queue !! j = Some r ->
          priority r <> priority next)).
Proof.
  cbn zeta. destruct (getNextRequest_sorted s) as [Hempty Hnext].
  split; [done|].
  intros Hq. destruct (Hnext Hq) as (next & s' & Hg & He & Hc & Hsort).
  exists next, s'. do 4 (split; [done|]).
  clear Hempty Hnext Hg He Hc.
  destruct s' as [eps rest n]. cbn [requestQueue] in Hsort.
  set (q := requestQueue s) in *.
  assert (Hin : forall r, r ∈ q -> r ∈ with_priority (priority r) q).
  { intros r Hr. by apply list_elem_of_filter. }
  pose proof (with_priority_Forall high q) as Hh.
  pose proof (with_priority_Forall medium q) as Hm.
  pose proof (with_priority_Forall low q) as Hl.
  destruct (with_priority high q) as [|h hs] eqn:Eh.
  - destruct (with_priority medium q) as [|m ms] eqn:Em.
    + destruct (with_priority low q) as [|l ls] eqn:El; [done|].
      injection Hsort as -> ->. inversion Hl as [|? ? Hp _]; subst.
      split.
      * intros r Hr. specialize (Hin r Hr). rewrite Hp.
        destruct (priority r); rewrite ?Eh, ?Em in Hin;
          [by apply elem_of_nil in Hin..|simpl; lia].
      * destruct (filter_head _ _ _ _ El) as (i & Hi & _ & Hbefore).
        exists i. split; [done|]. intros j r Hj Hr. rewrite Hp.
        by apply (Hbefore j).
    + injection Hsort as -> ->. inversion Hm as [|? ? Hp _]; subst.
      split.
      * intros r Hr. specialize (Hin r Hr). rewrite Hp.
        destruct (priority r); rewrite ?Eh in Hin;
          [by apply elem_of_nil in Hin|simpl; lia..].
      * destruct (filter_head _ _ _ _ Em) as (i & Hi & _ & Hbefore).
        exists i. split; [done|]. intros j r Hj Hr. rewrite Hp.
        by apply (Hbefore j).
  - injection Hsort as -> ->. inversion Hh as [|? ? Hp _]; subst.
    split.
    + intros r Hr. rewrite Hp. destruct (priority r); simpl; lia.
    + destruct (filter_head _ _ _ _ Eh) as (i & Hi & _ & Hbefore).
      exists i. split; [done|]. intros j r Hj Hr. rewrite Hp.
      by apply (Hbefore j).
Qed.

Lemma getNextRequest_serves_by_priority_witness :
  let s := run sample_calls (constructor sample_endpoints) in
  exists next s',
    getNextRequest s = (s', Some next) /\
    r_owner (request next) = Some "carol" /\
    map (fun r => r_owner (request r)) (requestQueue s')
    = [Some "erin"; Some "bob"; Some "alice"].
Proof.
  cbn zeta.
  destruct (getNextRequest_serves_by_priority
              (run sample_calls (constructor sample_endpoints)))
    as [_ Hnext].
  destruct Hnext as (next & s' & Hg & _ & _ & Hq & _); [by vm_compute|].
  destruct s' as [eps queue n]. cbn [requestQueue] in Hq |- *.
  eexists next, _. split; [exact Hg|].
  vm_compute in Hq. injection Hq as -> ->. split; reflexivity.
Defined.

Lemma find_endpoint_source source s endpoint :
  find_endpoint source s = Some endpoint -> e_source endpoint = source.
Proof.
  unfold find_endpoint. intros Hf.
  apply fmap_Some in Hf as ([i e] & Hf & ->).
  by apply list_find_Some in Hf as (_ & ? & _).
Qed.

Lemma validated_endpoints s s' e :
  endpoints s' = endpoints s -> validated s e -> validated s' e.
Proof.
  intros He (Hv & (source & endpoint & Hs & Hf & Hsrc & Hp) & Ho & Ht).
  split; [done|]. split; [|done].
  exists source, endpoint. unfold find_endpoint in *. by rewrite He.
Qed.

Lemma receiveRequest_cases now rnd r s :
  (exists error,
     receiveRequest now rnd r s = (s, Rejected error) /\
     validateRequest r s = Invalid error) \/
  (exists e,
     receiveRequest now rnd r s
     = ({| endpoints := endpoints s;
           requestQueue := requestQueue s ++ [e];
           receivedCount := receivedCount s + 1 |},
        Accepted (generateRequestId now rnd)
          (Z.of_nat (length (requestQueue s)) + 1)) /\
     request e = r /\ validated s e).
Proof.
  unfold receiveRequest.
  destruct (validateRequest r s) as [|error] eqn:Hv; [right|left; eauto].
  eexists. split.
  { rewrite length_app. cbn [length request_id]. do 2 f_equal. lia. }
  split; [done|]. unfold validated. cbn [request source_validated priority].
  unfold validateRequest in Hv.
  destruct (Ledger.truthy_string (r_source r)) as [source|] eqn:Hs; [|done].
  destruct (find_endpoint source s) as [endpoint|] eqn:Hf; [|done].
  assert (Hsrc : r_source r = Some source).
  { unfold Ledger.truthy_string in Hs. destruct (r_source r) as [x|]; [|done].
    by case_bool_decide; [|injection Hs as ->]. }
  split; [done|]. split.
  { exists source, endpoint. split; [done|]. split; [done|].
    split; [by eapply find_endpoint_source|].
    unfold getPriority. by rewrite Hsrc, Hf. }
  destruct (Ledger.truthy_string (r_owner r)); [|by destruct
    (Ledger.truthy_string (r_trigger r)), (Ledger.truthy_string (r_type r))].
  split; [done|].
  destruct (Ledger.truthy_string (r_trigger r)); [by left|].
  destruct (Ledger.truthy_string (r_type r)); [by right|done].
Qed.

Lemma run_invariant cs : forall s0,
  Forall (validated s0) (requestQueue s0) ->
  let s := run cs s0 in
  endpoints s = endpoints s0 /\
  Forall (validated s) (requestQueue s) /\
  receivedCount s - Z.of_nat (length (requestQueue s))
  = receivedCount s0 - Z.of_nat (length (requestQueue s0)) + removed_by cs s0.
Proof.
  induction cs as [|c cs IH]; intros s0 Hq; cbn zeta.
  { cbn [run foldl removed_by]. split; [done|]. split; [done|]. lia. }
  assert (Hstep : endpoints (call c s0) = endpoints s0 /\
                  Forall (validated s0) (requestQueue (call c s0)) /\
                  receivedCount (call c s0)
                  - Z.of_nat (length (requestQueue (call c s0)))
                  = receivedCount s0 - Z.of_nat (length (requestQueue s0))
                    + match c with
                      | CallReceiveRequest _ _ _ => 0
                      | CallGetNextRequest =>
                          match snd (getNextRequest s0) with
                          | Some _ => 1
                          | None => 0
                          end
                      | CallClearQueue => snd (clearQueue s0)
                      end).
  { destruct c as [now rnd r| |]; cbn [call].
    - destruct (receiveRequest_cases now rnd r s0)
        as [(error & -> & _)|(e & -> & _ & He)]; cbn [fst].
      + split; [done|]. split; [done|]. lia.
      + cbn [endpoints requestQueue receivedCount]. split; [done|].
        split; [apply Forall_app; split; [done|by constructor]|].
        rewrite length_app. cbn [length]. lia.
    - destruct (getNextRequest_sorted s0) as [Hempty Hnext].
      destruct (requestQueue s0) as [|x queue] eqn:Eq.
      + rewrite Hempty by done. cbn [fst snd]. rewrite Eq.
        split; [done|]. split; [done|]. lia.
      + destruct Hnext as (next & s' & -> & He & Hc & Hsorted); [done|].
        cbn [fst snd]. split; [done|].
        pose proof (js_sort_perm by_priority (x :: queue)) as Hperm.
        rewrite js_sort_by_priority, <- Hsorted in Hperm.
        rewrite <- Hperm in Hq. inversion Hq; subst. split; [done|].
        apply Permutation_length in Hperm. cbn [length] in Hperm |- *. lia.
    - cbn [clearQueue fst snd endpoints requestQueue receivedCount length].
      split; [done|]. split; [done|]. lia. }
  destruct Hstep as (He & Hv & Hc).
  destruct (IH (call c s0)) as (He' & Hv' & Hc').
  { eapply Forall_impl; [exact Hv|]. intros e. by apply validated_endpoints. }
  cbn [run foldl removed_by]. fold (run cs (call c s0)).
  split; [congruence|]. split; [done|]. lia.
Qed.

(** X27: the queue only ever holds validated requests.  After any sequence
    of [receiveRequest], [getNextRequest] and [clearQueue] calls on a fresh
    receiver, every queued request names a configured source and carries the
    priority of the first endpoint with that source ([medium] when the
    endpoint has none), has an owner and a trigger or a type; the count of
    received requests is the queue length plus the requests handed out or
    cleared; and a rejected request leaves the receiver as it was. *)
Theorem queue_holds_validated_requests receives_from cs :
  let s := run cs (constructor receives_from) in
  endpoints s = receives_from /\
  Forall (validated s) (requestQueue s) /\
  receivedCount s
  = Z.of_nat (length (requestQueue s))
    + removed_by cs (constructor receives_from) /\
  (forall now rnd r error,
     snd (receiveRequest now rnd r s) = Rejected error ->
     fst (receiveRequest now rnd r s) = s).
Proof.
  cbn zeta.
  destruct (run_invariant cs (constructor receives_from)) as (He & Hv & Hc);
    [by constructor|].
  split; [done|]. split; [done|]. split.
  - cbn [constructor receivedCount requestQueue length] in Hc. lia.
  - intros now rnd r error.
    by destruct (receiveRequest_cases now rnd r
                   (run cs (constructor receives_from)))
      as [(error' & -> & _)|(e & -> & _)].
Qed.

Lemma queue_holds_validated_requests_witness :
  let s := run sample_calls (constructor sample_endpoints) in
  snd (receiveRequest 4 "r4" (sample_request "nowhere" "dave") s)
  = Rejected "Unknown source: nowhere" /\
  fst (receiveRequest 4 "r4" (sample_request "nowhere" "dave") s) = s.
Proof.
  cbn zeta.
  destruct (queue_holds_validated_requests sample_endpoints sample_calls)
    as (_ & _ & _ & Hrej).
  assert (Hr : snd (receiveRequest 4 "r4" (sample_request "nowhere" "dave")
                      (run sample_calls (constructor sample_endpoints)))
               = Rejected "Unknown source: nowhere") by (by vm_compute).
  split; [exact Hr|]. exact (Hrej _ _ _ _ Hr).
Defined.

End ReceiverFacts.

(** ** Redundant storage *)

Lemma js_slice_last {A} (l : list A) (k : Z) :
  0 < k ->
  js_slice l (- k) None = drop (length l - Z.to_nat k) l.
Proof.
  intros Hk. unfold js_slice, js_rel_index.
  destruct (Z.ltb_spec (- k) 0); [|lia].
  replace (Z.to_nat (Z.max (Z.of_nat (length l) + - k) 0))
    with (length l - Z.to_nat k)%nat by lia.
  apply take_ge. rewrite length_drop. lia.
Qed.

Lemma filter_ext_elem {A} (P Q : A -> Prop) `{forall x, Decision (P x)}
    `{forall x, Decision (Q x)} (l : list A) :
  (forall x, x ∈ l -> P x <-> Q x) -> filter P l = filter Q l.
Proof.
  induction l as [|x l IH]; intros Hl; [done|].
  rewrite !filter_cons.
  rewrite IH by (intros y Hy; apply Hl, elem_of_cons; by right).
  pose proof (Hl x (proj2 (elem_of_cons _ _ _) (or_introl eq_refl))) as Hx.
  destruct (decide (P x)), (decide (Q x)); tauto.
Qed.

Lemma filter_none {A} (P : A -> Prop) `{forall x, Decision (P x)} (l : list A) :
  (forall x, ~ P x) -> filter P l = [].
Proof.
  intros HP. induction l as [|x l IH]; [done|].
  rewrite filter_cons, IH. by rewrite decide_False.
Qed.

Lemma filter_all {A} (P : A -> Prop) `{forall x, Decision (P x)} (l : list A) :
  (forall x, P x) -> filter P l = l.
Proof.
  intros HP. induction l as [|x l IH]; [done|].
  rewrite filter_cons, IH. by rewrite decide_True.
Qed.

Module WriterFacts.
Import Writer.

Lemma writeToLocation_known now rnd loc token :
  known loc = true ->
  exists result,
    writeToLocation now rnd loc token = Ledger.Ok result /\
    r_timestamp result = now.
Proof.
  intros Hk. apply bool_decide_eq_true in Hk. unfold known_locations in Hk.
  repeat (apply elem_of_cons in Hk as [->|Hk];
          [eexists; split; reflexivity|]).
  by apply elem_of_nil in Hk.
Qed.

Lemma writeToLocation_unknown now rnd loc token :
  known loc = false ->
  writeToLocation now rnd loc token
  = Ledger.Throw ("Unknown storage location: " +:+ loc).
Proof.
  intros Hk. apply bool_decide_eq_false in Hk. unfold writeToLocation.
  repeat (rewrite bool_decide_eq_false_2
            by (intros ->; apply Hk; clear; unfold known_locations;
                set_solver)).
  done.
Qed.

Lemma write_one_spec now rnd token acc loc :
  let res := write_one now rnd token acc loc in
  token_id res = token_id acc /\
  success_count res = success_count acc + (if known loc then 1 else 0) /\
  failure_count res = failure_count acc + (if known loc then 0 else 1) /\
  (forall l, location_success res l
             = if decide (l = loc) then known loc else location_success acc l) /\
  (forall l, l <> loc -> locations res !! l = locations acc !! l).
Proof.
  cbn zeta. unfold write_one. destruct (known loc) eqn:Hk.
  - destruct (writeToLocation_known now rnd loc token Hk) as (r & -> & _).
    cbn [token_id success_count failure_count locations].
    split; [done|]. split; [done|]. split; [lia|]. split.
    + intros l. unfold location_success. cbn [locations].
      destruct (decide (l = loc)) as [->|Hne].
      * by rewrite lookup_insert_eq.
      * by rewrite lookup_insert_ne.
    + intros l Hne. by rewrite lookup_insert_ne.
  - rewrite (writeToLocation_unknown now rnd loc token Hk).
    cbn [token_id success_count failure_count locations].
    split; [done|]. split; [lia|]. split; [done|]. split.
    + intros l. unfold location_success. cbn [locations].
      destruct (decide (l = loc)) as [->|Hne].
      * by rewrite lookup_insert_eq.
      * by rewrite lookup_insert_ne.
    + intros l Hne. by rewrite lookup_insert_ne.
Qed.

Lemma write_fold now rnd token locs : forall acc,
  let res := foldl (write_one now rnd token) acc locs in
  token_id res = token_id acc /\
  success_count res
  = success_count acc
    + Z.of_nat (length (filter (fun l => known l = true) locs)) /\
  failure_count res
  = failure_count acc
    + Z.of_nat (length (filter (fun l => known l = false) locs)) /\
  (forall l, location_success res l
             = if decide (l ∈ locs) then known l else location_success acc l) /\
  (forall l, l ∉ locs -> locations res !! l = locations acc !! l).
Proof.
  induction locs as [|loc locs IH]; intros acc; cbn zeta.
  { cbn [foldl filter list_filter length]. split; [done|]. split; [lia|].
    split; [lia|]. split; [|done]. intros l.
    destruct (decide (l ∈ [])) as [Hl|_]; [by apply elem_of_nil in Hl|done]. }
  cbn [foldl].
  destruct (IH (write_one now rnd token acc loc)) as (Ht & Hs & Hf & Hl & Hn).
  destruct (write_one_spec now rnd token acc loc) as (Ht1 & Hs1 & Hf1 & Hl1 & Hn1).
  rewrite Ht, Hs, Hf, Ht1, Hs1, Hf1, !filter_cons.
  split; [done|]. split; [|split; [|split]].
  - destruct (known loc); [rewrite decide_True by done|rewrite decide_False by done];
      cbn [length]; lia.
  - destruct (known loc); [rewrite decide_False by done|rewrite decide_True by done];
      cbn [length]; lia.
  - intros l. rewrite Hl, Hl1.
    destruct (decide (l ∈ locs)) as [Hin|Hnin].
    + rewrite decide_True by (apply elem_of_cons; by right). done.
    + destruct (decide (l = loc)) as [->|Hne].
      * rewrite decide_True by (apply elem_of_cons; by left). done.
      * rewrite decide_False; [done|]. intros [?|?]%elem_of_cons; done.
  - intros l Hnin. rewrite Hn, Hn1; [done|..];
      intros ?; apply Hnin, elem_of_cons; auto.
Qed.

Lemma verifyRedundancy_fold (check : string -> bool) locs : forall acc,
  let res :=
    foldl (fun verification loc =>
             if check loc then
               {| v_token_id := v_token_id verification;
                  verified_locations := verified_locations verification ++ [loc];
                  missing_locations := missing_locations verification |}
             else
               {| v_token_id := v_token_id verification;
                  verified_locations := verified_locations verification;
                  missing_locations := missing_locations verification ++ [loc] |})
          acc locs in
  v_token_id res = v_token_id acc /\
  verified_locations res
  = verified_locations acc ++ filter (fun l => check l = true) locs /\
  missing_locations res
  = missing_locations acc ++ filter (fun l => check l = false) locs.
Proof.
  induction locs as [|loc locs IH]; intros acc; cbn zeta.
  { cbn [foldl filter list_filter]. by rewrite !app_nil_r. }
  cbn [foldl]. rewrite !filter_cons.
  destruct (check loc) eqn:Hc.
  - edestruct IH as (-> & -> & ->).
    cbn [v_token_id verified_locations missing_locations].
    rewrite decide_True, decide_False by done. by rewrite <- app_assoc.
  - edestruct IH as (-> & -> & ->).
    cbn [v_token_id verified_locations missing_locations].
    rewrite decide_False, decide_True by done. by rewrite <- app_assoc.
Qed.

Lemma checkLocationForToken_true loc tokenId s :
  checkLocationForToken loc tokenId s = true <->
  exists w, w ∈ writeLog s /\ token_id w = tokenId /\
            location_success w loc = true.
Proof.
  unfold checkLocationForToken. cbn zeta.
  destruct (filter _ (writeLog s)) as [|w ws] eqn:Hf.
  - split; [done|]. intros (w & Hw & Ht & Hs).
    assert (w ∈ filter (fun w => token_id w = tokenId /\
                                 location_success w loc = true) (writeLog s))
      as Hin by (by apply list_elem_of_filter).
    rewrite Hf in Hin. by apply elem_of_nil in Hin.
  - split; [intros _|intros _; cbn [length]; by apply Z.ltb_lt; lia].
    assert (w ∈ filter (fun w => token_id w = tokenId /\
                                 location_success w loc = true) (writeLog s))
      as Hin by (rewrite Hf; apply elem_of_cons; by left).
    apply list_elem_of_filter in Hin as [[? ?] ?]. eauto.
Qed.

Lemma known_partition locs :
  (length (filter (fun l => known l = true) locs)
   + length (filter (fun l => known l = false) locs))%nat = length locs.
Proof.
  induction locs as [|loc locs IH]; [done|]. rewrite !filter_cons.
  destruct (known loc);
    [rewrite decide_True, decide_False by done
    |rewrite decide_False, decide_True by done]; cbn [length]; lia.
Qed.

(** The log after a write: the new entry last, after the newest entries of
    the old log. *)
Lemma writeToAllLocations_log now rnd token s :
  let r := writeToAllLocations now rnd token s in
  storageLocations (fst r) = storageLocations s /\
  snd r ∈ writeLog (fst r) /\
  (forall w, w ∈ writeLog (fst r) -> w ∈ writeLog s \/ w = snd r) /\
  (length (writeLog (fst r)) <= 1000)%nat /\
  token_id (snd r) = Ledger.id token /\
  (forall l, location_success (snd r) l
             = if decide (l ∈ storageLocations s) then known l else false).
Proof.
  cbn zeta. unfold writeToAllLocations.
  cbn [fst snd storageLocations writeLog].
  set (w0 := {| token_id := Ledger.id token; timestamp := now;
                locations := ∅; success_count := 0; failure_count := 0 |}).
  destruct (write_fold now rnd token (storageLocations s) w0)
    as (Ht & _ & _ & Hl & _).
  set (entry := foldl _ w0 (storageLocations s)) in *.
  split; [done|].
  assert (Hlog : exists older,
            (if 1000 <? Z.of_nat (length (writeLog s ++ [entry]))
             then js_slice (writeLog s ++ [entry]) (-1000) None
             else writeLog s ++ [entry]) = older ++ [entry] /\
            older ⊆ writeLog s /\ (length older < 1000)%nat).
  { rewrite length_app. cbn [length].
    destruct (Z.ltb_spec 1000 (Z.of_nat (length (writeLog s) + 1))) as [Hgt|Hle].
    - rewrite (js_slice_last _ 1000) by lia.
      rewrite drop_app_le by (rewrite length_app; cbn [length]; lia).
      eexists. split; [reflexivity|]. split; [apply subseteq_drop|].
      rewrite length_drop, length_app. cbn [length]. lia.
    - exists (writeLog s). split; [done|]. split; [done|]. lia. }
  destruct Hlog as (older & -> & Hsub & Hlen).
  split; [apply elem_of_app; right; apply list_elem_of_singleton; done|].
  split.
  { intros w [Hw| ->%list_elem_of_singleton]%elem_of_app; [left|by right].
    by apply Hsub. }
  split; [rewrite length_app; cbn [length]; lia|]. split; [done|].
  intros l. rewrite Hl. by destruct (decide (l ∈ storageLocations s)).
Qed.

Lemma run_log writes : forall s,
  (length (writeLog s) <= 1000)%nat ->
  let s' := run writes s in
  storageLocations s' = storageLocations s /\
  (length (writeLog s') <= 1000)%nat /\
  (forall w, w ∈ writeLog s' ->
     w ∈ writeLog s \/
     (token_id w ∈ map (fun p => Ledger.id (snd p)) writes /\
      forall l, location_success w l
                = if decide (l ∈ storageLocations s) then known l else false)).
Proof.
  induction writes as [|[[now rnd] token] writes IH]; intros s Hlen; cbn zeta.
  { cbn [run foldl]. split; [done|]. split; [done|]. by left. }
  cbn [run foldl]. fold (run writes (fst (writeToAllLocations now rnd token s))).
  destruct (writeToAllLocations_log now rnd token s)
    as (Hlocs & _ & Hold & Hlen1 & Hid & Hsucc).
  destruct (IH (fst (writeToAllLocations now rnd token s)) Hlen1)
    as (Hlocs' & Hlen' & Hlog').
  split; [congruence|]. split; [done|].
  intros w Hw. destruct (Hlog' w Hw) as [Hw1|[Hin Hs]].
  - destruct (Hold w Hw1) as [?| ->]; [by left|]. right.
    split; [|done]. cbn [map snd]. rewrite Hid. apply elem_of_cons. by left.
  - right. split; [cbn [map]; apply elem_of_cons; by right|].
    intros l. rewrite Hs, Hlocs. done.
Qed.

(** X28: a written token is found again.  [writeToAllLocations] accounts
    for every configured location, succeeding exactly on the eight locations
    it has a case for; after it, [verifyRedundancy] of the token's id lists
    as verified the configured locations that are known and as missing the
    unknown ones, in their configured order, whatever was written before.
    A token id that was never written has every location missing.  The write
    log never holds more than 1000 entries. *)
Theorem written_token_is_verified locs writes now rnd token :
  let s := run writes (constructor locs) in
  let r := writeToAllLocations now rnd token s in
  let v := verifyRedundancy (Ledger.id token) (fst r) in
  success_count (snd r) + failure_count (snd r) = Z.of_nat (length locs) /\
  failure_count (snd r)
  = Z.of_nat (length (filter (fun l => known l = false) locs)) /\
  (forall l, l ∈ locs -> location_success (snd r) l = known l) /\
  verified_locations v = filter (fun l => known l = true) locs /\
  missing_locations v = filter (fun l => known l = false) locs /\
  (forall tokenId,
     tokenId <> Ledger.id token ->
     Forall (fun p => Ledger.id (snd p) <> tokenId) writes ->
     verified_locations (verifyRedundancy tokenId (fst r)) = [] /\
     missing_locations (verifyRedundancy tokenId (fst r)) = locs) /\
  (length (writeLog (fst r)) <= 1000)%nat.
Proof.
  cbn zeta.
  destruct (run_log writes (constructor locs)) as (Hlocs & Hlen & Hlog);
    [simpl; lia|].
  cbn [constructor storageLocations writeLog] in Hlocs, Hlog.
  set (s := run writes (constructor locs)) in *.
  destruct (writeToAllLocations_log now rnd token s)
    as (Hlocs1 & Hnew & Hold & Hlen1 & Hid & Hsucc).
  rewrite Hlocs in Hsucc, Hlocs1.
  assert (Hcounts : success_count (snd (writeToAllLocations now rnd token s))
                    = Z.of_nat (length (filter (fun l => known l = true) locs))
                    /\ failure_count (snd (writeToAllLocations now rnd token s))
                    = Z.of_nat (length (filter (fun l => known l = false) locs))).
  { unfold writeToAllLocations. cbn [snd]. rewrite Hlocs.
    destruct (write_fold now rnd token locs
                {| token_id := Ledger.id token; timestamp := now;
                   locations := ∅; success_count := 0; failure_count := 0 |})
      as (_ & Hs & Hf & _).
    cbn [success_count failure_count] in Hs, Hf. split; lia. }
  destruct Hcounts as [Hs Hf].
  assert (Hsuccess : forall w l,
            w ∈ writeLog (fst (writeToAllLocations now rnd token s)) ->
            location_success w l = true -> l ∈ locs /\ known l = true).
  { intros w l Hw Hl. destruct (Hold w Hw) as [Hw0| ->].
    - destruct (Hlog w Hw0) as [Hnil|[_ Hw1]]; [by apply elem_of_nil in Hnil|].
      rewrite Hw1 in Hl. by destruct (decide (l ∈ locs)).
    - rewrite Hsucc in Hl. by destruct (decide (l ∈ locs)). }
  split; [pose proof (known_partition locs); lia|]. split; [done|]. split.
  { intros l Hl. rewrite Hsucc. by rewrite decide_True. }
  assert (Hverify : forall tokenId,
            let v := verifyRedundancy tokenId
                       (fst (writeToAllLocations now rnd token s)) in
            verified_locations v
            = filter (fun l => checkLocationForToken l tokenId
                         (fst (writeToAllLocations now rnd token s)) = true) locs /\
            missing_locations v
            = filter (fun l => checkLocationForToken l tokenId
                         (fst (writeToAllLocations now rnd token s)) = false) locs).
  { intros tokenId. cbn zeta. unfold verifyRedundancy. rewrite Hlocs1.
    destruct (verifyRedundancy_fold
                (fun l => checkLocationForToken l tokenId
                            (fst (writeToAllLocations now rnd token s)))
                locs {| v_token_id := tokenId; verified_locations := [];
                        missing_locations := [] |}) as (_ & Hv & Hm).
    by rewrite Hv, Hm. }
  assert (Hcheck : forall l, l ∈ locs ->
            checkLocationForToken l (Ledger.id token)
              (fst (writeToAllLocations now rnd token s)) = known l).
  { intros l Hl. destruct (known l) eqn:Hk.
    - apply checkLocationForToken_true.
      exists (snd (writeToAllLocations now rnd token s)).
      split; [done|]. split; [done|]. rewrite Hsucc.
      by rewrite decide_True.
    - apply not_true_is_false. intros Hc.
      apply checkLocationForToken_true in Hc as (w & Hw & _ & Hc).
      destruct (Hsuccess w l Hw Hc) as [_ ?]. congruence. }
  destruct (Hverify (Ledger.id token)) as [-> ->].
  split; [|split; [|split]].
  - apply filter_ext_elem. intros l Hl. by rewrite Hcheck.
  - apply filter_ext_elem. intros l Hl. by rewrite Hcheck.
  - intros tokenId Hne Hwrites.
    assert (Hnone : forall l,
              checkLocationForToken l tokenId
                (fst (writeToAllLocations now rnd token s)) = false).
    { intros l. apply not_true_is_false. intros Hc.
      apply checkLocationForToken_true in Hc as (w & Hw & Ht & _).
      destruct (Hold w Hw) as [Hw0| ->]; [|congruence].
      destruct (Hlog w Hw0) as [Hnil|[Hin _]]; [by apply elem_of_nil in Hnil|].
      change (map ?f ?l) with (f <$> l) in Hin.
      apply list_elem_of_fmap in Hin as (p & Hp & Hin).
      rewrite Forall_forall in Hwrites. apply (Hwrites p Hin). congruence. }
    destruct (Hverify tokenId) as [-> ->]. split.
    + apply filter_none. intros l. by rewrite Hnone.
    + apply filter_all. intros l. by rewrite Hnone.
  - done.
Qed.

Lemma written_token_is_verified_witness :
  let r := writeToAllLocations 7 "a1b2c3" (Ledger.sample_token 1)
             (constructor sample_locations) in
  location_success (snd r) "moon_base" = false /\
  verified_locations (verifyRedundancy "unwritten" (fst r)) = [] /\
  missing_locations (verifyRedundancy "unwritten" (fst r)) = sample_locations.
Proof.
  cbn zeta.
  destruct (written_token_is_verified sample_locations [] 7 "a1b2c3"
              (Ledger.sample_token 1)) as (_ & _ & Hl & _ & _ & Hother & _).
  split.
  - apply (Hl "moon_base"). unfold sample_locations.
    do 2 (apply elem_of_cons; right). apply elem_of_cons. by left.
  - apply Hother; [by vm_compute|constructor].
Defined.

End WriterFacts.

(** ** Backup and recovery *)

Lemma js_push_trim {A} (l : list A) (x : A) (k : Z) :
  0 < k ->
  (if k <? Z.of_nat (length (l ++ [x]))
   then js_slice (l ++ [x]) (- k) None else l ++ [x])
  = drop (length l + 1 - Z.to_nat k) l ++ [x].
Proof.
  intros Hk. rewrite length_app. cbn [length].
  destruct (Z.ltb_spec k (Z.of_nat (length l + 1))) as [Hgt|Hle].
  - rewrite js_slice_last by done. rewrite length_app. cbn [length].
    by rewrite drop_app_le by lia.
  - by replace (length l + 1 - Z.to_nat k)%nat with 0%nat by lia.
Qed.

Lemma js_slice_all {A} (l : list A) : js_slice l 0 None = l.
Proof.
  unfold js_slice, js_rel_index. cbn zeta. cbn [Z.ltb Z.compare].
  rewrite Z.min_l by lia. cbn [Z.to_nat drop]. apply take_ge. lia.
Qed.

Module BackupFacts.
Import Backup.

Lemma find_backup_newest backupId older b auto :
  Forall (fun b' => backup_id b' <> backupId) older ->
  backup_id b = backupId ->
  find_backup backupId {| backups := older ++ [b];
                          autoBackupInterval := auto |} = Some b.
Proof.
  intros Hold Hb. unfold find_backup. cbn [backups].
  induction Hold as [|b' older Hb' _ IH].
  - cbn. by rewrite decide_True.
  - cbn [app list_find]. rewrite decide_False by done.
    destruct (list_find _ (older ++ [b])) as [[i y]|]; [|done].
    cbn in IH |- *. done.
Qed.

Lemma find_backup_none backupId s :
  Forall (fun b => backup_id b <> backupId) (backups s) ->
  find_backup backupId s = None.
Proof.
  intros Hall. unfold find_backup.
  induction Hall as [|b l Hb _ IH]; [done|].
  cbn [list_find]. rewrite decide_False by done.
  by destruct (list_find _ l).
Qed.

Lemma appendAll_length inputs L L' :
  Ledger.appendAll inputs L = Ledger.Ok L' ->
  length (Ledger.ledger L')
  = (length (Ledger.ledger L) + length inputs)%nat.
Proof.
  intros Hrun.
  destruct (LedgerMore.appendAll_fields inputs L L' Hrun) as [Hv _].
  apply (f_equal length) in Hv.
  by rewrite length_app, !length_map in Hv.
Qed.

Section StringifyFacts.
Variable stringify_length : BackupData -> Ledger.ImmutableLedger -> Z.

(** X29: a full backup is no snapshot.  It holds the ledger's own array,
    so what it restores is the ledger as it stands when [restoreFromBackup]
    is called: after more tokens are appended, a full backup taken at [n]
    entries reports the [n] entries and the new ones, while an incremental
    backup taken at the same time still reports [n].  An id that no backup
    carries makes [restoreFromBackup] throw. *)
Theorem full_backup_follows_the_ledger now rnd W s L inputs L' :
  Forall (fun b => backup_id b <> generateBackupId now rnd) (backups s) ->
  Ledger.appendAll inputs L = Ledger.Ok L' ->
  let n := Z.of_nat (length (Ledger.ledger L)) in
  let backupId := generateBackupId now rnd in
  let s1 := fst (createFullBackup stringify_length now rnd L W s) in
  let s2 := fst (createIncrementalBackup stringify_length now rnd None L s) in
  restoreFromBackup backupId L s1
  = Ledger.Ok {| success := true; r_backup_id := backupId; r_type := full;
                 entries_restored := n;
                 message := "Full backup restored" |} /\
  restoreFromBackup backupId L' s1
  = Ledger.Ok {| success := true; r_backup_id := backupId; r_type := full;
                 entries_restored := n + Z.of_nat (length inputs);
                 message := "Full backup restored" |} /\
  restoreFromBackup backupId L' s2
  = Ledger.Ok {| success := true; r_backup_id := backupId;
                 r_type := incremental;
                 entries_restored := n;
                 message := "Incremental backup restored" |} /\
  restoreFromBackup backupId L' s
  = Ledger.Throw ("Backup not found: " +:+ backupId).
Proof.
  intros Hfresh Hrun. cbn zeta.
  pose proof (appendAll_length inputs L L' Hrun) as Hlen.
  assert (Hfull : forall L0,
            restoreFromBackup (generateBackupId now rnd) L0
              (fst (createFullBackup stringify_length now rnd L W s))
            = Ledger.Ok {| success := true;
                           r_backup_id := generateBackupId now rnd;
                           r_type := full;
                           entries_restored :=
                             Z.of_nat (length (Ledger.ledger L0));
                           message := "Full backup restored" |}).
  { intros L0. unfold restoreFromBackup, createFullBackup. cbn [fst].
    rewrite js_push_trim by lia.
    rewrite find_backup_newest; [done| |done].
    rewrite Forall_forall in Hfresh |- *. intros b Hb. apply Hfresh.
    eapply subseteq_drop, Hb. }
  split; [apply Hfull|]. split; [rewrite Hfull, Hlen; do 2 f_equal; lia|].
  split.
  - unfold restoreFromBackup, createIncrementalBackup. cbn [fst].
    rewrite find_backup_newest by done.
    cbn [type data]. unfold entries_of. cbn [data default].
    by rewrite js_slice_all, length_seq.
  - unfold restoreFromBackup. by rewrite find_backup_none.
Qed.

End StringifyFacts.

Lemma full_backup_follows_the_ledger_witness :
  let backupId := generateBackupId 9 "z9y8x7" in
  let s1 := fst (createFullBackup sample_stringify_length 9 "z9y8x7"
                   Ledger.constructor (Writer.constructor [])
                   sample_system) in
  restoreFromBackup backupId Ledger.ledger_of_5 s1
  = Ledger.Ok {| success := true; r_backup_id := backupId; r_type := full;
                 entries_restored := 5;
                 message := "Full backup restored" |}.
Proof.
  cbn zeta.
  refine (proj1 (proj2 (full_backup_follows_the_ledger sample_stringify_length
            9 "z9y8x7" (Writer.constructor []) sample_system
            Ledger.constructor (Ledger.sample_inputs 5) Ledger.ledger_of_5
            _ _))).
  - vm_compute. repeat constructor; discriminate.
  - by vm_compute.
Defined.

(** X30: [cleanOldBackups] keeps the newest backups.  With [keepLast]
    below the number of backups and positive, it keeps exactly the last
    [keepLast] and reports the rest as removed; with [keepLast] at or above
    the number of backups it changes nothing and reports 0.  With
    [keepLast = 0] it removes nothing, because [slice(-0)] is the whole
    array, yet reports every backup as removed. *)
Theorem cleanOldBackups_keeps_newest keepLast s :
  let n := Z.of_nat (length (backups s)) in
  let keep := default 10 keepLast in
  let r := cleanOldBackups keepLast s in
  (n <= keep -> r = (s, 0)) /\
  (0 < keep < n ->
   backups (fst r) = drop (Z.to_nat (n - keep)) (backups s) /\
   Z.of_nat (length (backups (fst r))) = keep /\
   snd r = n - keep) /\
  (keep = 0 -> 0 < n -> r = (s, n)).
Proof.
  cbn zeta. unfold cleanOldBackups. cbn zeta.
  set (keep := default 10 keepLast).
  set (n := Z.of_nat (length (backups s))).
  split; [|split].
  - intros Hle. by destruct (Z.ltb_spec 0 (n - keep)); [lia|].
  - intros [Hpos Hlt]. destruct (Z.ltb_spec 0 (n - keep)); [|lia].
    cbn [fst snd backups]. rewrite js_slice_last by done.
    replace (length (backups s) - Z.to_nat keep)%nat
      with (Z.to_nat (n - keep)) by lia.
    split; [done|]. split; [|done]. rewrite length_drop. lia.
  - intros Hzero Hn. destruct (Z.ltb_spec 0 (n - keep)); [|lia].
    rewrite Hzero. f_equal; [|lia]. destruct s as [l auto].
    cbn [backups autoBackupInterval]. f_equal.
    apply js_slice_all.
Qed.

Lemma cleanOldBackups_keeps_newest_witness :
  cleanOldBackups (Some 0) sample_system = (sample_system, 5) /\
  snd (cleanOldBackups (Some 2) sample_system) = 3.
Proof.
  destruct (cleanOldBackups_keeps_newest (Some 0) sample_system)
    as (_ & _ & Hzero).
  destruct (cleanOldBackups_keeps_newest (Some 2) sample_system)
    as (_ & Htwo & _).
  split.
  - apply Hzero; [reflexivity|by vm_compute].
  - apply Htwo. by vm_compute.
Defined.

End BackupFacts.
